(** * Stochastic-Sudoku: the genetic and hill-climbing engines, and the
      Sudoku populator of the genetic engine

    A shallow embedding of [src/stochastic/GeneticAlgorithm.h],
    [src/stochastic/HillClimbingAlgorithm.h] and
    [src/gensudoku/GenSudokuBoardGAPopulator.h], followed by the properties
    proved about them.

    Conventions of the embedding.
    - [uint64_t] values are integers of [Z] with the wrap-around written
      out ([wrap64]); [size_t] indices into vectors are [nat] (they never
      wrap: every index is below a vector length), and the [size_t] loop
      counter [generation] is 64 bits wide (LP64).
    - [std::unique_ptr<T>] is [option T]; dereferencing a null pointer,
      indexing a vector out of range, and the remainder by zero are
      undefined behaviour ([Undefined]).
    - [double] probabilities are the rationals they denote; the comparison
      of two finite doubles is the comparison of these rationals.
    - The shared generator [RNG::getGenerator()] and the private state of
      the populator and of the selector form one abstract state, threaded
      through every call; every call of a collaborator is also appended to
      an event log, which is what an instrumented collaborator would count.
    - [#pragma omp parallel for] loops are run in index order, which is
      what the program does when compiled without OpenMP.
    - A [double] computed by the program is the rational rounded to
      binary64 ([to_double]): the default probabilities and the product of
      the kill threshold.
    - An [assert] expands to nothing in a build with [NDEBUG] and aborts
      the program on a false condition otherwise: [initialize] of the
      populator is given for both builds.
    - The [for (;;)] loop of [fillRow] takes a number of turns that depends
      on the shuffles: it is run for at most [fuel] turns, and the result
      says whether it has returned. *)

From Stdlib Require Import ZArith QArith Qround Qabs List Sorted String Lia.
From stdpp Require Import base tactics option list sorting.

Local Open Scope Z_scope.
Local Open Scope list_scope.

(** ** Machine integers *)

Definition UINT64_MAX : Z := 2 ^ 64 - 1.

Definition wrap64 (z : Z) : Z := z mod 2 ^ 64.

(** [a < b] on doubles, as rationals. *)
Definition Qltb (a b : Q) : bool := negb (Qle_bool b a).

(** ** Rounding to [double]

    [to_double q] is the binary64 number nearest to [q], ties to even (the
    rounding of a literal, of the conversion of an integer and of a
    product): 53 bits of precision, exponents from -1074.  Magnitudes are
    taken to stay within [DBL_MAX]: the engines do not produce an
    infinity. *)
Definition Qpow2 (e : Z) : Q :=
  if 0 <=? e then inject_Z (2 ^ e) else Qinv (inject_Z (2 ^ (- e))).

(** The [e] with [2 ^ e <= a < 2 ^ (e + 1)], for [a > 0]. *)
Definition Qfloor_log2 (a : Q) : Z :=
  let e := Z.log2 (Qnum a) - Z.log2 (Z.pos (Qden a)) in
  if Qle_bool (Qpow2 e) a then e else e - 1.

Definition round_half_even (a : Q) : Z :=
  let f := Qfloor a in
  match Qcompare (Qminus a (inject_Z f)) (1 # 2) with
  | Lt => f
  | Gt => f + 1
  | Eq => if Z.even f then f else f + 1
  end.

Definition to_double (q : Q) : Q :=
  if Qnum q =? 0 then 0%Q
  else
    let a := Qabs q in
    let e := Z.max (Qfloor_log2 a - 52) (- 1074) in
    let m := round_half_even (Qdiv a (Qpow2 e)) in
    Qred (Qmult (inject_Z (Z.sgn (Qnum q) * m)) (Qpow2 e)).

(** ** The fitness type

    [Fitness] is a template parameter ([double] by default in the genetic
    engine, [size_t] in the hill-climbing one, which asserts that it is
    arithmetic).  The engines use [<], [>], [>=], [<=], [std::max], the
    literal [0] and [static_cast<Fitness>(factor * f)] with a [double]
    factor. *)

Record Arithmetic : Type := {
  num :> Type;
  lt : num -> num -> bool;              (* a < b *)
  zero : num;                           (* Fitness(0) *)
  scaled : Q -> num -> num;             (* static_cast<Fitness>(factor * f) *)
}.

Arguments lt {_} _ _.
Arguments zero {_}.
Arguments scaled {_} _ _.

Definition gt {F : Arithmetic} (a b : F) : bool := lt b a.
Definition ge {F : Arithmetic} (a b : F) : bool := negb (lt a b).
Definition le {F : Arithmetic} (a b : F) : bool := negb (lt b a).

(** [std::max(a, b)]: [(a < b) ? b : a]. *)
Definition std_max {F : Arithmetic} (a b : F) : F := if lt a b then b else a.

(** The order that [<] is on an arithmetic type without NaN: a strict weak
    order. *)
Record StrictWeakOrder (F : Arithmetic) : Prop := {
  lt_irrefl : forall a : F, lt a a = false;
  lt_trans : forall a b c : F, lt a b = true -> lt b c = true -> lt a c = true;
  ge_trans : forall a b c : F, lt a b = false -> lt b c = false -> lt a c = false;
}.

(** An integral fitness type: in [factor * f] the fitness is converted to
    [double], the product is the [double] product, and the cast truncates
    towards zero (the product is taken to be in the range of the integral
    type, outside of which the cast is undefined). *)
Definition truncate (q : Q) : Z := Z.quot (Qnum q) (Z.pos (Qden q)).

Definition ZFitness : Arithmetic :=
  {| num := Z; lt := Z.ltb; zero := 0;
     scaled := fun factor f =>
       truncate (to_double (Qmult factor (to_double (inject_Z f)))) |}.

(** ** Results, worlds and the monad of the engines *)

Inductive Message (F : Type) : Type :=
  | SolvedAtGeneration (generation : Z)
  | KilledEverything
  | Progress (generation : Z) (fittest : F) (dead_rounds : Z)
  | Best (fitness : F).

Arguments SolvedAtGeneration {F} _.
Arguments KilledEverything {F}.
Arguments Progress {F} _ _ _.
Arguments Best {F} _.

Inductive Event (F : Type) : Type :=
  | EvClock
  | EvDraw
  | EvGenerate
  | EvSurvive
  | EvSelect
  | EvCrossover
  | EvMutate
  | EvShuffle
  | EvGenerateNeighbour
  | EvInitState
  | EvAccept
  | EvPrint (m : Message F).

Arguments EvClock {F}.
Arguments EvDraw {F}.
Arguments EvGenerate {F}.
Arguments EvSurvive {F}.
Arguments EvSelect {F}.
Arguments EvCrossover {F}.
Arguments EvMutate {F}.
Arguments EvShuffle {F}.
Arguments EvGenerateNeighbour {F}.
Arguments EvInitState {F}.
Arguments EvAccept {F}.
Arguments EvPrint {F} _.

Record World (R F : Type) : Type := {
  source : R;
  events : list (Event F);
}.

Arguments source {R F} _.
Arguments events {R F} _.

Inductive Res (W A : Type) : Type :=
  | Val (a : A) (w : W)
  | Throw (what : string) (w : W)          (* std::invalid_argument *)
  | Undefined.

Arguments Val {W A} _ _.
Arguments Throw {W A} _ _.
Arguments Undefined {W A}.

Definition M (W A : Type) : Type := W -> Res W A.

Definition ret {W A} (a : A) : M W A := fun w => Val a w.

Definition bind {W A B} (c : M W A) (k : A -> M W B) : M W B :=
  fun w =>
    match c w with
    | Val a w' => k a w'
    | Throw what w' => Throw what w'
    | Undefined => Undefined
    end.

Definition throw {W A} (what : string) : M W A := fun w => Throw what w.

Definition undefined {W A} : M W A := fun _ => Undefined.

Notation "'let*' x ':=' c 'in' k" := (bind c (fun x => k))
  (at level 10, x pattern, c at level 100, k at level 200).

Notation "c ';;' k" := (bind c (fun _ => k))
  (at level 100, k at level 200, right associativity).

(** [*p] on a [unique_ptr]. *)
Definition deref {W A} (p : option A) : M W A :=
  match p with
  | Some a => ret a
  | None => undefined
  end.

(** A call of a collaborator: run it on the shared state and log it. *)
Definition call {R F A} (e : Event F) (f : R -> A * R) : M (World R F) A :=
  fun w =>
    let (a, s) := f (source w) in
    Val a {| source := s; events := events w ++ [e] |}.

Definition emit {R F} (e : Event F) : M (World R F) unit :=
  fun w => Val tt {| source := source w; events := events w ++ [e] |}.

(** The generations of the genetic engine in an event log: every
    generation of the loop of [run] ends in the shuffle of line 181 or in
    the message of line 145, and nothing else logs either of the two. *)
Definition ends_generation {F} (e : Event F) : bool :=
  match e with
  | EvShuffle => true
  | EvPrint (SolvedAtGeneration _) => true
  | _ => false
  end.

Definition generations_run {F} (log : list (Event F)) : nat :=
  length (List.filter ends_generation log).

(** A computation that ends no generation. *)
Definition quiet {R F A} (c : M (World R F) A) : Prop :=
  forall w a w', c w = Val a w' ->
    generations_run (events w') = generations_run (events w).

(** [for (size_t i = first; i < first + count; ++i) body], over the
    variables [st] that the body updates. *)
Fixpoint for_range {W St} (first count : nat) (body : nat -> St -> M W St)
    (st : St) : M W St :=
  match count with
  | O => ret st
  | S count' =>
      let* st' := body first st in
      for_range (S first) count' body st'
  end.

(** [v[i]] then [->]: a candidate read through the pointer in slot [i]. *)
Definition at_ {W T} (v : list (option T)) (i : nat) : M W T :=
  match v !! i with
  | Some (Some c) => ret c
  | _ => undefined
  end.

(** [v[i] = std::move(p)]. *)
Definition store {W T} (v : list (option T)) (i : nat) (p : option T)
    : M W (list (option T)) :=
  if (i <? length v)%nat then ret (<[i := p]> v) else undefined.

(** ** The collaborators

    [Populator.h] and [PopulationSelector.h] are interfaces; the operations
    are those that [GenSudokuBoardGAPopulator] overrides and that the
    engines call.  Each takes the shared state and returns the new one. *)

Record Populator (T R : Type) : Type := {
  generate : R -> T * R;
  mutate : T -> R -> T * R;
  crossover : T -> T -> R -> (T * T) * R;
  survive : T -> R -> T * R;
}.

Arguments generate {T R} _ _.
Arguments mutate {T R} _ _ _.
Arguments crossover {T R} _ _ _ _.
Arguments survive {T R} _ _ _.

Record Selector (T R : Type) : Type := {
  select : list (option T) -> R -> nat * R;
}.

Arguments select {T R} _ _ _.

(** ** GeneticAlgorithm.h *)

Module GeneticAlgorithm.

Section Engine.

Context {T R : Type} {F : Arithmetic}.

(** [T::fitness()]. *)
Variable fitness : T -> F.

(** [probabilityGenerator(gen)]. *)
Variable uniform_real : R -> Q * R.

(** [std::shuffle(begin, end, gen)]. *)
Variable std_shuffle : list (option T) -> R -> list (option T) * R.

Record Options : Type := {
  populator : option (Populator T R);
  population_size : nat;
  max_generations : Z;
  crossover_probability : Q;
  selector : option (Selector T R);
  mutation_probability : Q;
  fitness_success_threshold : F;
  fitness_death_threshold : F;
  fitness_death_factor : Q;
  permissible_dead_rounds : Z;
  output_rounds : Z;
}.

(** The default member initializers; the populator and the success
    threshold have none, and the default selector is the 2-tournament one
    of [PopulationSelector.h]. *)
Definition default_options (p : option (Populator T R))
    (two_tournament : Selector T R) (threshold : F) : Options :=
  {| populator := p;
     population_size := 2000;
     max_generations := UINT64_MAX;
     crossover_probability := to_double (3 # 10);
     selector := Some two_tournament;
     mutation_probability := to_double (1 # 10);
     fitness_success_threshold := threshold;
     fitness_death_threshold := zero;
     fitness_death_factor := 0;
     permissible_dead_rounds := UINT64_MAX;
     output_rounds := 1000 |}.

Local Abbreviation W := (World R F).
Local Abbreviation population := (list (option T)).

(** The variables of [run] that live across generations. *)
Record Loop : Type := {
  generation : Z;
  prevGeneration : population;
  best : T;
  deadRounds : Z;
}.

Inductive Step : Type :=
  | Return (b : T)
  | Continue (st : Loop).

Inductive Exit : Type :=
  | Solved (generation : Z) (b : T)
  | Exhausted (generation : Z) (b : T).

Definition exit_best (e : Exit) : T :=
  match e with
  | Solved _ b => b
  | Exhausted _ b => b
  end.

(** [best] after a generation. *)
Definition step_best (r : Step) : T :=
  match r with
  | Return b => b
  | Continue st => best st
  end.

(** Lines 99-104: one iteration of the initial population loop. *)
Definition init_body (pop : Populator T R) (i : nat) (st : population * nat)
    : M W (population * nat) :=
  let '(prevGeneration, max_init) := st in
  let* c := call EvGenerate (generate pop) in
  let* prevGeneration := store prevGeneration i (Some c) in
  let* ci := at_ prevGeneration i in
  let* cm := at_ prevGeneration max_init in
  ret (prevGeneration, if gt (fitness ci) (fitness cm) then i else max_init).

(** Lines 117-134: pair-slot [i] of the breeding loop. *)
Definition breed_body (o : Options) (pop : Populator T R)
    (prevGeneration : population) (i : nat) (nextGeneration : population)
    : M W population :=
  let* u := call EvDraw uniform_real in
  if Qltb u (crossover_probability o) then
    let* sel := deref (selector o) in
    let* p0Idx := call EvSelect (select sel prevGeneration) in
    let* p0 := at_ prevGeneration p0Idx in
    let* p1Idx := call EvSelect (select sel prevGeneration) in
    let* p1 := at_ prevGeneration p1Idx in
    let* (c0, c1) := call EvCrossover (crossover pop p0 p1) in
    let* m0 := call EvDraw uniform_real in
    let* n0 := (if Qltb m0 (mutation_probability o)
                then call EvMutate (mutate pop c0) else ret c0) in
    let* nextGeneration := store nextGeneration (2 * i) (Some n0) in
    let* m1 := call EvDraw uniform_real in
    let* n1 := (if Qltb m1 (mutation_probability o)
                then call EvMutate (mutate pop c1) else ret c1) in
    store nextGeneration (2 * i + 1) (Some n1)
  else
    let* a := at_ prevGeneration (2 * i) in
    let* a' := call EvSurvive (survive pop a) in
    let* nextGeneration := store nextGeneration (2 * i) (Some a') in
    let* b := at_ prevGeneration (2 * i + 1) in
    let* b' := call EvSurvive (survive pop b) in
    store nextGeneration (2 * i + 1) (Some b').

(** Lines 112-134. *)
Definition breed (o : Options) (pop : Populator T R)
    (prevGeneration : population) : M W population :=
  for_range 0 (population_size o / 2) (breed_body o pop prevGeneration)
    (replicate (population_size o) None).

(** [std::max_element(cbegin(v), cend(v), comp)] with
    [comp(s1, s2) = s1->fitness() < s2->fitness()], as the index of the
    iterator returned; on an empty range that is the end. *)
Definition max_element_body (v : population) (i largest : nat) : M W nat :=
  let* a := at_ v largest in
  let* b := at_ v i in
  ret (if lt (fitness a) (fitness b) then i else largest).

Definition max_element (v : population) : M W nat :=
  for_range 1 (length v - 1) (max_element_body v) 0%nat.

(** Lines 137-143: the new [best] and [fitness_increased]. *)
Definition assess (pop : Populator T R) (nextGeneration : population)
    (best : T) : M W (T * bool) :=
  let* k := max_element nextGeneration in
  let* fittest := at_ nextGeneration k in
  if gt (fitness fittest) (fitness best) then
    let* best' := call EvSurvive (survive pop fittest) in
    ret (best', true)
  else ret (best, false).

(** Lines 148-151. *)
Definition count_dead_round (fitness_increased : bool) (deadRounds : Z) : Z :=
  if fitness_increased then 0 else wrap64 (deadRounds + 1).

(** Lines 155-157. *)
Definition kill_threshold (o : Options) (best : T) : F :=
  std_max (fitness_death_threshold o)
          (scaled (fitness_death_factor o) (fitness best)).

(** Lines 161-163: one iteration of the demise loop. *)
Definition kill_body (o : Options) (pop : Populator T R) (deadRounds : Z)
    (threshold : F) (i : nat) (nextGeneration : population) : M W population :=
  if deadRounds >=? permissible_dead_rounds o then
    let* g := call EvGenerate (generate pop) in
    store nextGeneration i (Some g)
  else
    let* c := at_ nextGeneration i in
    if le (fitness c) threshold then
      let* g := call EvGenerate (generate pop) in
      store nextGeneration i (Some g)
    else ret nextGeneration.

Definition kill (o : Options) (pop : Populator T R) (deadRounds : Z)
    (threshold : F) (nextGeneration : population) : M W population :=
  for_range 0 (population_size o) (kill_body o pop deadRounds threshold)
    nextGeneration.

(** Lines 164-168. *)
Definition euthanized (o : Options) (deadRounds : Z) : M W Z :=
  if deadRounds >=? permissible_dead_rounds o then
    emit (EvPrint KilledEverything) ;; ret 0
  else ret deadRounds.

(** Lines 171-176. *)
Definition report (o : Options) (generation : Z) (best : T) (deadRounds : Z)
    : M W unit :=
  if output_rounds o =? 0 then undefined
  else if generation mod output_rounds o =? 0 then
    emit EvClock ;;
    emit (EvPrint (Progress generation (fitness best) deadRounds))
  else ret tt.

(** Lines 111-181: the body of the generation loop. *)
Definition generation_body (o : Options) (pop : Populator T R) (st : Loop)
    : M W Step :=
  let* nextGeneration := breed o pop (prevGeneration st) in
  let* (best, fitness_increased) := assess pop nextGeneration (best st) in
  if ge (fitness best) (fitness_success_threshold o) then
    emit (EvPrint (SolvedAtGeneration (generation st))) ;;
    ret (Return best)
  else
    let deadRounds := count_dead_round fitness_increased (deadRounds st) in
    let threshold := kill_threshold o best in
    let* nextGeneration := kill o pop deadRounds threshold nextGeneration in
    let* deadRounds := euthanized o deadRounds in
    report o (generation st) best deadRounds ;;
    let* prevGeneration := call EvShuffle (std_shuffle nextGeneration) in
    ret (Continue {| generation := wrap64 (generation st + 1);
                     prevGeneration := prevGeneration;
                     best := best;
                     deadRounds := deadRounds |}).

(** Line 110: [options.max_generations - 1], in [uint64_t]. *)
Definition loop_bound (o : Options) : Z := wrap64 (max_generations o - 1).

(** Lines 110-185: the generation loop makes [remaining] more tests of
    [generation < options.max_generations - 1] that can succeed. *)
Fixpoint generations (o : Options) (pop : Populator T R) (remaining : nat)
    (st : Loop) : M W Exit :=
  match remaining with
  | O => ret (Exhausted (generation st) (best st))
  | S remaining' =>
      let* r := generation_body o pop st in
      match r with
      | Return b => ret (Solved (generation st) b)
      | Continue st' => generations o pop remaining' st'
      end
  end.

(** Lines 87-107: the initial population and the first [best]. *)
Definition initialize (o : Options) (pop : Populator T R) : M W Loop :=
  emit EvClock ;;
  let* (prevGeneration, max_init) :=
    for_range 0 (population_size o) (init_body pop)
      (replicate (population_size o) None, 0%nat) in
  let* c := at_ prevGeneration max_init in
  let* best := call EvSurvive (survive pop c) in
  ret {| generation := 0;
         prevGeneration := prevGeneration;
         best := best;
         deadRounds := 0 |}.

(** [GeneticAlgorithm::run]. *)
Definition run (o : Options) : M W (option T) :=
  match populator o with
  | None => throw "must set a Populator"
  | Some pop =>
      if (population_size o mod 2 =? 1)%nat then
        throw "pppulation_size must be even"
      else
        let* st := initialize o pop in
        let* e := generations o pop (Z.to_nat (loop_bound o)) st in
        ret (Some (exit_best e))
  end.

(** *** What the properties below speak of *)

(** The values that [best] takes during the loop: at the head of each
    iteration, and the one returned when a generation solves. *)
Fixpoint bests (o : Options) (pop : Populator T R) (remaining : nat)
    (st : Loop) (w : W) : list T :=
  best st ::
  match remaining with
  | O => []
  | S remaining' =>
      match generation_body o pop st w with
      | Val (Continue st') w' => bests o pop remaining' st' w'
      | Val (Return b) _ => [b]
      | _ => []
      end
  end.

(** The values of [best] during [run]. *)
Definition run_bests (o : Options) (pop : Populator T R) (w : W) : list T :=
  match initialize o pop w with
  | Val st w' => bests o pop (Z.to_nat (loop_bound o)) st w'
  | _ => []
  end.

(** The candidates of a generation. *)
Definition candidates (v : population) : list T := omap id v.

(** The candidates that the loop compares with [best]: those of each
    generation as bred, before the demise pass. *)
Fixpoint assessed (o : Options) (pop : Populator T R) (remaining : nat)
    (st : Loop) (w : W) : list T :=
  match remaining with
  | O => []
  | S remaining' =>
      match breed o pop (prevGeneration st) w with
      | Val nextGeneration _ =>
          candidates nextGeneration ++
          match generation_body o pop st w with
          | Val (Continue st') w' => assessed o pop remaining' st' w'
          | _ => []
          end
      | _ => []
      end
  end.

(** The candidates that [run] compares: the initial population and the
    generations as bred. *)
Definition run_assessed (o : Options) (pop : Populator T R) (w : W) : list T :=
  match initialize o pop w with
  | Val st w' =>
      candidates (prevGeneration st) ++ assessed o pop (Z.to_nat (loop_bound o)) st w'
  | _ => []
  end.

(** A pair-slot in the words of the specification: what a slot does when
    the crossover draw falls below [crossover_probability] ... *)
Definition spec_offspring (o : Options) (pop : Populator T R)
    (prevGeneration : population) : M W (T * T) :=
  let* sel := deref (selector o) in
  let* p0Idx := call EvSelect (select sel prevGeneration) in
  let* p0 := at_ prevGeneration p0Idx in
  let* p1Idx := call EvSelect (select sel prevGeneration) in
  let* p1 := at_ prevGeneration p1Idx in
  let* (c0, c1) := call EvCrossover (crossover pop p0 p1) in
  let* m0 := call EvDraw uniform_real in
  let* n0 := (if Qltb m0 (mutation_probability o)
              then call EvMutate (mutate pop c0) else ret c0) in
  let* m1 := call EvDraw uniform_real in
  let* n1 := (if Qltb m1 (mutation_probability o)
              then call EvMutate (mutate pop c1) else ret c1) in
  ret (n0, n1).

(** ... and what it does otherwise. *)
Definition spec_survivors (pop : Populator T R) (prevGeneration : population)
    (i : nat) : M W (T * T) :=
  let* a := at_ prevGeneration (2 * i) in
  let* a' := call EvSurvive (survive pop a) in
  let* b := at_ prevGeneration (2 * i + 1) in
  let* b' := call EvSurvive (survive pop b) in
  ret (a', b').

Definition spec_pair_slot (o : Options) (pop : Populator T R)
    (prevGeneration : population) (i : nat) : M W (T * T) :=
  let* u := call EvDraw uniform_real in
  if Qltb u (crossover_probability o) then spec_offspring o pop prevGeneration
  else spec_survivors pop prevGeneration i.

(** The pairs of the slots [first], ..., [first + count - 1], in order. *)
Fixpoint spec_pair_slots (o : Options) (pop : Populator T R)
    (prevGeneration : population) (first count : nat) : M W (list (T * T)) :=
  match count with
  | O => ret []
  | S count' =>
      let* p := spec_pair_slot o pop prevGeneration first in
      let* ps := spec_pair_slots o pop prevGeneration (S first) count' in
      ret (p :: ps)
  end.

(** A generation made of [n] freshly generated candidates. *)
Fixpoint spec_fresh (pop : Populator T R) (n : nat) : M W population :=
  match n with
  | O => ret []
  | S n' =>
      let* g := call EvGenerate (generate pop) in
      let* rest := spec_fresh pop n' in
      ret (Some g :: rest)
  end.

(** [survive] returns a copy: the copy has the fitness of the original. *)
Definition survive_copies (pop : Populator T R) : Prop :=
  forall c r, fitness (fst (survive pop c r)) = fitness c.

(** The index [k] is the lowest one of a candidate of maximal fitness. *)
Definition lowest_fittest (v : population) (k : nat) : Prop :=
  exists ck, v !! k = Some (Some ck) /\
    forall j cj, v !! j = Some (Some cj) ->
      lt (fitness ck) (fitness cj) = false /\
      ((j < k)%nat -> lt (fitness cj) (fitness ck) = true).

(** A population of [n] candidates, none of them null. *)
Definition populated (n : nat) (v : population) : Prop :=
  length v = n /\ forall j, (j < n)%nat -> exists c, v !! j = Some (Some c).

(** Breeding from [prevGeneration] in world [w] gave [nextGeneration] in
    world [w']: the slots of the specification, run one after the other
    from [w], end in [w'], and the pair of slot [i] is at the positions
    [2i] and [2i+1] of [nextGeneration]. *)
Definition fills_pair_slots (o : Options) (pop : Populator T R)
    (prevGeneration : population) (w : W) (nextGeneration : population) (w' : W)
    : Prop :=
  exists ps,
    spec_pair_slots o pop prevGeneration 0 (population_size o / 2) w = Val ps w' /\
    length ps = (population_size o / 2)%nat /\
    length nextGeneration = population_size o /\
    forall i, (i < population_size o / 2)%nat ->
      exists a b, ps !! i = Some (a, b) /\
                  nextGeneration !! (2 * i)%nat = Some (Some a) /\
                  nextGeneration !! (2 * i + 1)%nat = Some (Some b).

(** The rule of the dead-rounds counter for the generation that takes the
    loop from [st] in world [w] to [st'] in world [w']: [counted] is 0 when
    the fitness of [best] strictly improved and one more than [deadRounds]
    otherwise; below [permissible_dead_rounds] it is the new [deadRounds];
    otherwise the demise pass is the generation of [population_size] fresh
    candidates, which are what the shuffle receives, and the new
    [deadRounds] is 0. *)
Definition dead_rounds_rule (o : Options) (pop : Populator T R)
    (st : Loop) (w : W) (st' : Loop) (w' : W) : Prop :=
  let counted :=
    if lt (fitness (best st)) (fitness (best st')) then 0 else deadRounds st + 1 in
  (counted < permissible_dead_rounds o /\ deadRounds st' = counted) \/
  (permissible_dead_rounds o <= counted /\ deadRounds st' = 0 /\
   exists next w1 increased w2 fresh w3 w5,
     breed o pop (prevGeneration st) w = Val next w1 /\
     assess pop next (best st) w1 = Val (best st', increased) w2 /\
     spec_fresh pop (population_size o) w2 = Val fresh w3 /\
     kill o pop counted (kill_threshold o (best st')) next w2 = Val fresh w3 /\
     call EvShuffle (std_shuffle fresh) w5 = Val (prevGeneration st') w').

(** The state [st] in world [w] is at the head of an iteration of the
    generation loop of a run started in world [w0]. *)
Inductive reached (o : Options) (pop : Populator T R) (w0 : W)
    : Loop -> W -> Prop :=
  | reached_first (st : Loop) (w : W) :
      initialize o pop w0 = Val st w -> reached o pop w0 st w
  | reached_next (st : Loop) (w : W) (st' : Loop) (w' : W) :
      reached o pop w0 st w ->
      generation_body o pop st w = Val (Continue st') w' ->
      reached o pop w0 st' w'.

(** *** Invariants of the loops *)

(** Among the first [i] slots, [k] is the lowest index of a fittest
    candidate. *)
Definition first_max (v : population) (i k : nat) : Prop :=
  forall j cj ck, (j < i)%nat ->
    v !! j = Some (Some cj) -> v !! k = Some (Some ck) ->
    lt (fitness ck) (fitness cj) = false /\
    ((j < k)%nat -> lt (fitness cj) (fitness ck) = true).

(** The initial population loop, after [i] iterations: the first [i]
    slots are filled, and [max_init] is the lowest index of a fittest
    candidate among them. *)
Definition init_inv (n i : nat) (st : population * nat) : Prop :=
  length st.1 = n /\
  (forall j, (j < i)%nat -> exists c, st.1 !! j = Some (Some c)) /\
  (st.2 < Nat.max 1 i)%nat /\
  first_max st.1 i st.2.

(** The initial population loop, without the order: the slots filled so
    far hold candidates that [generate] returned. *)
Definition init_filled (pop : Populator T R) (n i : nat) (st : population * nat)
    : Prop :=
  length st.1 = n /\
  (forall j, (j < i)%nat -> exists r, st.1 !! j = Some (Some (generate pop r).1)) /\
  (st.2 < Nat.max 1 i)%nat.

(** A configuration with which the initial population and breeding have
    defined behaviour: a populator and a selector, an even, positive
    population size, and a selector that returns an index of the
    population. *)
Record breedable (o : Options) (pop : Populator T R) (sel : Selector T R)
    : Prop := {
  breedable_populator : populator o = Some pop;
  breedable_selector : selector o = Some sel;
  breedable_even : (population_size o mod 2 = 0)%nat;
  breedable_positive : (0 < population_size o)%nat;
  breedable_select : forall v r, v <> [] -> (fst (select sel v r) < length v)%nat;
}.

(** A configuration with which the whole of [run] has defined behaviour:
    moreover the shuffle permutes, and the period of output is not 0. *)
Record workable (o : Options) (pop : Populator T R) (sel : Selector T R)
    : Prop := {
  workable_breedable : breedable o pop sel;
  workable_shuffle : forall v r, Permutation (fst (std_shuffle v r)) v;
  workable_output : output_rounds o <> 0;
}.

End Engine.

End GeneticAlgorithm.

(** ** HillClimbingAlgorithm.h *)

Module HillClimbingAlgorithm.

(** [HillClimbingPopulator.h] is an interface; the engine calls these two
    operations of it. *)
Record HillClimbingPopulator (T R : Type) : Type := {
  generate : R -> T * R;
  generateNeighbour : T -> R -> T * R;
}.

Arguments generate {T R} _ _.
Arguments generateNeighbour {T R} _ _ _.

(** Modelled from the spec: [HillClimbingOptions.h] is not among the
    sources.  The fields are those that [run] reads and that the
    configuration of the hill-climbing engine lists: populator, max_rounds,
    max_iterations_per_round, fitness_success_threshold; the two budgets
    are compared with [uint64_t] counters. *)
Record Options (T R : Type) (F : Arithmetic) : Type := {
  populator : option (HillClimbingPopulator T R);
  max_rounds : Z;
  max_iterations_per_round : Z;
  fitness_success_threshold : F;
}.

Arguments populator {T R F} _.
Arguments max_rounds {T R F} _.
Arguments max_iterations_per_round {T R F} _.
Arguments fitness_success_threshold {T R F} _.

(** The two virtual member functions, with the [State] template
    parameter.  [accept] receives the state by reference and may change
    it. *)
Record Policy (T R : Type) (F : Arithmetic) : Type := {
  State : Type;
  initState : Options T R F -> R -> State * R;
  accept : T -> T -> Options T R F -> State -> R -> (bool * State) * R;
}.

Arguments State {T R F} _.
Arguments initState {T R F} _ _ _.
Arguments accept {T R F} _ _ _ _ _ _.

Section Engine.

Context {T R : Type} {F : Arithmetic}.

(** [T::fitness()]. *)
Variable fitness : T -> F.

Local Abbreviation W := (World R F).

(** Lines 83-96: the members as the base class defines them, with
    [State = void*]. *)
Definition base_policy : Policy T R F :=
  {| State := unit;
     initState := fun _ r => (tt, r);
     accept := fun next cur _ state r => (gt (fitness next) (fitness cur), state, r) |}.

Inductive Step (St : Type) : Type :=
  | Return (cur : T)
  | Continue (cur : T) (best : option T) (state : St).

Arguments Return {St} _.
Arguments Continue {St} _ _ _.

Inductive RoundExit : Type :=
  | Found (iteration : Z) (cur : T)
  | RoundOver (best : option T).

Inductive Exit : Type :=
  | Solved (round iteration : Z) (cur : T)
  | Exhausted (best : option T).

(** [!best || best->fitness() < cur->fitness()]. *)
Definition improves (best : option T) (cur : T) : bool :=
  match best with
  | None => true
  | Some b => lt (fitness b) (fitness cur)
  end.

(** Lines 57-70: the body of the iteration loop. *)
Definition iteration_body (o : Options T R F) (pop : HillClimbingPopulator T R)
    (pol : Policy T R F) (cur : T) (best : option T) (state : State pol)
    : M W (Step (State pol)) :=
  let* next := call EvGenerateNeighbour (generateNeighbour pop cur) in
  let* (a, state) := call EvAccept (accept pol next cur o state) in
  let cur := if a : bool then next else cur in
  if ge (fitness cur) (fitness_success_threshold o) then ret (Return cur)
  else if improves best cur then
    emit (EvPrint (Best (fitness cur))) ;;
    ret (Continue cur (Some cur) state)
  else ret (Continue cur best state).

(** Lines 56-71: [remaining] more iterations of the round. *)
Fixpoint iterations (o : Options T R F) (pop : HillClimbingPopulator T R)
    (pol : Policy T R F) (remaining : nat) (iteration : Z)
    (cur : T) (best : option T) (state : State pol) : M W RoundExit :=
  match remaining with
  | O => ret (RoundOver best)
  | S remaining' =>
      let* r := iteration_body o pop pol cur best state in
      match r with
      | Return c => ret (Found iteration c)
      | Continue cur' best' state' =>
          iterations o pop pol remaining' (wrap64 (iteration + 1)) cur' best' state'
      end
  end.

(** Lines 50-71: the body of the round loop. *)
Definition round_start (o : Options T R F) (pop : HillClimbingPopulator T R)
    (pol : Policy T R F) : M W (State pol * T) :=
  let* state := call EvInitState (initState pol o) in
  let* cur := call EvGenerate (generate pop) in
  ret (state, cur).

Definition round_body (o : Options T R F) (pop : HillClimbingPopulator T R)
    (pol : Policy T R F) (best : option T) : M W RoundExit :=
  let* (state, cur) := round_start o pop pol in
  iterations o pop pol (Z.to_nat (max_iterations_per_round o)) 0 cur best state.

(** Lines 49-75: [remaining] more rounds. *)
Fixpoint rounds (o : Options T R F) (pop : HillClimbingPopulator T R)
    (pol : Policy T R F) (remaining : nat) (round : Z) (best : option T)
    : M W Exit :=
  match remaining with
  | O => ret (Exhausted best)
  | S remaining' =>
      let* r := round_body o pop pol best in
      match r with
      | Found iteration c => ret (Solved round iteration c)
      | RoundOver best' =>
          rounds o pop pol remaining' (wrap64 (round + 1)) best'
      end
  end.

Definition exit_pointer (e : Exit) : option T :=
  match e with
  | Solved _ _ cur => Some cur
  | Exhausted best => best
  end.

(** [HillClimbingAlgorithm::run]. *)
Definition run (pol : Policy T R F) (o : Options T R F) : M W (option T) :=
  match populator o with
  | None => throw "must set an HillClimbingPopulator"
  | Some pop =>
      let* e := rounds o pop pol (Z.to_nat (max_rounds o)) 0 None in
      ret (exit_pointer e)
  end.

(** *** What the properties below speak of *)

(** The values that [best] takes during a round: after each iteration that
    does not return. *)
Fixpoint iteration_bests (o : Options T R F) (pop : HillClimbingPopulator T R)
    (pol : Policy T R F) (remaining : nat) (cur : T) (best : option T)
    (state : State pol) (w : W) : list (option T) :=
  match remaining with
  | O => []
  | S remaining' =>
      match iteration_body o pop pol cur best state w with
      | Val (Continue cur' best' state') w' =>
          best' :: iteration_bests o pop pol remaining' cur' best' state' w'
      | _ => []
      end
  end.

(** The same over the rounds. *)
Fixpoint round_bests (o : Options T R F) (pop : HillClimbingPopulator T R)
    (pol : Policy T R F) (remaining : nat) (best : option T) (w : W)
    : list (option T) :=
  match remaining with
  | O => []
  | S remaining' =>
      match round_start o pop pol w with
      | Val (state, cur) w1 =>
          let n := Z.to_nat (max_iterations_per_round o) in
          iteration_bests o pop pol n cur best state w1 ++
          match iterations o pop pol n 0 cur best state w1 with
          | Val (RoundOver best') w2 => round_bests o pop pol remaining' best' w2
          | _ => []
          end
      | _ => []
      end
  end.

(** The values of [best] during [run], from the initial [nullptr] on. *)
Definition bests (pol : Policy T R F) (o : Options T R F)
    (pop : HillClimbingPopulator T R) (w : W) : list (option T) :=
  None :: round_bests o pop pol (Z.to_nat (max_rounds o)) None w.

(** The candidates that are current at the end of an iteration: those
    that the loop compares with the threshold and with [best]. *)
Fixpoint iteration_currents (o : Options T R F) (pop : HillClimbingPopulator T R)
    (pol : Policy T R F) (remaining : nat) (cur : T) (best : option T)
    (state : State pol) (w : W) : list T :=
  match remaining with
  | O => []
  | S remaining' =>
      match iteration_body o pop pol cur best state w with
      | Val (Continue cur' best' state') w' =>
          cur' :: iteration_currents o pop pol remaining' cur' best' state' w'
      | Val (Return c) _ => [c]
      | _ => []
      end
  end.

Fixpoint round_currents (o : Options T R F) (pop : HillClimbingPopulator T R)
    (pol : Policy T R F) (remaining : nat) (best : option T) (w : W) : list T :=
  match remaining with
  | O => []
  | S remaining' =>
      match round_start o pop pol w with
      | Val (state, cur) w1 =>
          let n := Z.to_nat (max_iterations_per_round o) in
          iteration_currents o pop pol n cur best state w1 ++
          match iterations o pop pol n 0 cur best state w1 with
          | Val (RoundOver best') w2 => round_currents o pop pol remaining' best' w2
          | _ => []
          end
      | _ => []
      end
  end.

Definition currents (pol : Policy T R F) (o : Options T R F)
    (pop : HillClimbingPopulator T R) (w : W) : list T :=
  round_currents o pop pol (Z.to_nat (max_rounds o)) None w.

(** Every candidate that the populator returns during the run: the one
    that [generate] returns at the start of each round and the neighbour
    that [generateNeighbour] returns in each iteration. *)
Fixpoint iteration_found (o : Options T R F) (pop : HillClimbingPopulator T R)
    (pol : Policy T R F) (remaining : nat) (cur : T) (best : option T)
    (state : State pol) (w : W) : list T :=
  match remaining with
  | O => []
  | S remaining' =>
      (generateNeighbour pop cur (source w)).1 ::
      match iteration_body o pop pol cur best state w with
      | Val (Continue cur' best' state') w' =>
          iteration_found o pop pol remaining' cur' best' state' w'
      | _ => []
      end
  end.

Fixpoint round_found (o : Options T R F) (pop : HillClimbingPopulator T R)
    (pol : Policy T R F) (remaining : nat) (best : option T) (w : W) : list T :=
  match remaining with
  | O => []
  | S remaining' =>
      match round_start o pop pol w with
      | Val (state, cur) w1 =>
          let n := Z.to_nat (max_iterations_per_round o) in
          cur :: iteration_found o pop pol n cur best state w1 ++
          match iterations o pop pol n 0 cur best state w1 with
          | Val (RoundOver best') w2 => round_found o pop pol remaining' best' w2
          | _ => []
          end
      | _ => []
      end
  end.

Definition found (pol : Policy T R F) (o : Options T R F)
    (pop : HillClimbingPopulator T R) (w : W) : list T :=
  round_found o pop pol (Z.to_nat (max_rounds o)) None w.

(** [b'] is at least as fit as [b]; a null [b] is below everything. *)
Definition no_worse (b b' : option T) : Prop :=
  match b, b' with
  | None, _ => True
  | Some _, None => False
  | Some x, Some y => lt (fitness y) (fitness x) = false
  end.

(** A running best that is null or does not meet the threshold. *)
Definition below_threshold (o : Options T R F) (best : option T) : Prop :=
  match best with
  | None => True
  | Some b => ge (fitness b) (fitness_success_threshold o) = false
  end.

End Engine.

Arguments Return {T St} _.
Arguments Continue {T St} _ _ _.

End HillClimbingAlgorithm.

(** ** GenSudokuBoardGAPopulator::crossover *)

Module GenSudokuBoardGAPopulator.

(** The [contents] of a [GenSudokuBoard<N>]: [NN * NN] cells, row after
    row. *)
Abbreviation board := (list Z).

(** [for (int i = first; i < first + count; ++i) body] without effects
    other than on [st]. *)
Fixpoint loop {St} (first count : nat) (body : nat -> St -> St) (st : St) : St :=
  match count with
  | O => st
  | S count' => loop (S first) count' body (body first st)
  end.

Section Crossover.

(** The generator. *)
Context {G : Type}.

Variable NN : nat.

(** [distribution(gen)] of [std::uniform_int_distribution distribution{0, 1}]. *)
Variable uniform_int_0_1 : G -> Z * G.

(** The contents of a default-constructed [GenSudokuBoard<N>], which
    [GenSudokuBoard.h] defines. *)
Variable fresh_board : board.

(** [contents[k]]; [k] is within the board in every access of [crossover]. *)
Definition cell (b : board) (k : nat) : Z := default 0 (b !! k).

(** Lines 107-108 (and 112-113 with the parents exchanged). *)
Definition copy_cells (i : nat) (first second : board) (j : nat)
    (children : board * board) : board * board :=
  let (c0, c1) := children in
  (<[(i * NN + j)%nat := cell first (i * NN + j)]> c0,
   <[(i * NN + j)%nat := cell second (i * NN + j)]> c1).

(** Lines 105-115: the body of the loop over the rows. *)
Definition row_body (p0 p1 : board) (i : nat) (st : board * board * G)
    : board * board * G :=
  let '(c0, c1, gen) := st in
  let (coin, gen) := uniform_int_0_1 gen in
  if coin =? 0 then (loop 0 NN (copy_cells i p0 p1) (c0, c1), gen)
  else (loop 0 NN (copy_cells i p1 p0) (c0, c1), gen).

Definition crossover (p0 p1 : board) (gen : G) : (board * board) * G :=
  loop 0 NN (row_body p0 p1) (fresh_board, fresh_board, gen).

(** Row [i] of a board. *)
Definition row (i : nat) (b : board) : list Z := take NN (drop (i * NN) b).

(** The first [n] values that the distribution draws from [gen]. *)
Fixpoint coins (n : nat) (gen : G) : list Z :=
  match n with
  | O => []
  | S n' => let (coin, gen') := uniform_int_0_1 gen in coin :: coins n' gen'
  end.

End Crossover.

(** *** The rest of the populator: [initialize], [fillRow], [generate],
    [mutate] and [survive] *)

(** [for (size_t i = first; i < first + count; ++i) body], where the body
    may have undefined behaviour ([None]). *)
Fixpoint loop_opt {St} (first count : nat) (body : nat -> St -> option St)
    (st : St) : option St :=
  match count with
  | O => Some st
  | S count' =>
      match body first st with
      | Some st' => loop_opt (S first) count' body st'
      | None => None
      end
  end.

(** What code with an [assert] comes to in a build that checks
    assertions: a value, the abort of a failed assertion, or undefined
    behaviour. *)
Inductive Checked (A : Type) : Type :=
  | Done (a : A)
  | Aborted
  | Unspecified.

Arguments Done {A} _.
Arguments Aborted {A}.
Arguments Unspecified {A}.

(** [for (size_t i = first; i < first + count; ++i) body], where the body
    may abort or have undefined behaviour. *)
Fixpoint loop_checked {St} (first count : nat) (body : nat -> St -> Checked St)
    (st : St) : Checked St :=
  match count with
  | O => Done st
  | S count' =>
      match body first st with
      | Done st' => loop_checked (S first) count' body st'
      | Aborted => Aborted
      | Unspecified => Unspecified
      end
  end.

(** [bits[i] = true] on a [std::bitset]; out of range it is undefined. *)
Definition bitset_set (bits : list bool) (i : nat) : option (list bool) :=
  if (i <? length bits)%nat then Some (<[i := true]> bits) else None.

(** [bits[i]] read; every index read by [initialize] is within the bitset. *)
Definition bitset_test (bits : list bool) (i : nat) : bool :=
  default false (bits !! i).

(** What the populator and the shared generator hold and change:
    [rowEmptyPositions] and [rowMissingEntries] are the members of the
    class, [gen] is [RNG::getGenerator()]. *)
Record State (G : Type) : Type := {
  gen : G;
  rowEmptyPositions : list (list nat);
  rowMissingEntries : list (list Z);
}.

Arguments gen {G} _.
Arguments rowEmptyPositions {G} _.
Arguments rowMissingEntries {G} _.

Section Populator.

Context {G : Type}.

Variable NN : nat.

(** [std::shuffle(std::begin(entries), std::end(entries), gen)]. *)
Variable std_shuffle : list Z -> G -> list Z * G.

(** [std::uniform_int_distribution<size_t>{0, NN - 1}(gen)]. *)
Variable uniform_row : G -> nat * G.

(** [partial_board] and [cell_candidates], the members of the base class
    [GenSudokuBoardPopulator<N>], which [GenSudokuBoardPopulator.h]
    defines. *)
Variable partial_board : board.
Variable cell_candidates : list (list Z).

(** Lines 169-175: one cell of the row in the two bitsets. *)
Definition scan_cell (row col : nat) (sets : list bool * list bool)
    : option (list bool * list bool) :=
  let (emptyPositions, presentEntries) := sets in
  let v := cell partial_board (row * NN + col) in
  if v =? 0 then
    match bitset_set emptyPositions col with
    | Some emptyPositions' => Some (emptyPositions', presentEntries)
    | None => None
    end
  else
    match bitset_set presentEntries (Z.to_nat v) with
    | Some presentEntries' => Some (emptyPositions, presentEntries')
    | None => None
    end.

(** Lines 180-185: one column of the conglomeration. *)
Definition gather_col (emptyPositions presentEntries : list bool) (col : nat)
    (found : list nat * list Z) : list nat * list Z :=
  let (rEmptyPositions, rMissingEntries) := found in
  (if bitset_test emptyPositions col
   then rEmptyPositions ++ [col] else rEmptyPositions,
   if bitset_test presentEntries (col + 1)
   then rMissingEntries else rMissingEntries ++ [Z.of_nat (col + 1)]).

(** Lines 164-185: the empty positions and the missing entries of one
    row, up to the [assert] of line 186. *)
Definition initialize_row (row : nat) : option (list nat * list Z) :=
  match loop_opt 0 NN (scan_cell row)
          (replicate NN false, replicate (NN + 1) false) with
  | Some (emptyPositions, presentEntries) =>
      Some (loop 0 NN (gather_col emptyPositions presentEntries) ([], []))
  | None => None
  end.

(** Lines 163-189: the body of the loop over the rows, in a build with
    [NDEBUG], where the [assert] of line 186 expands to nothing. *)
Definition initialize_body (row : nat)
    (tables : list (list nat) * list (list Z))
    : option (list (list nat) * list (list Z)) :=
  let (empties, missing) := tables in
  match initialize_row row with
  | Some (rEmptyPositions, rMissingEntries) =>
      Some (empties ++ [rEmptyPositions], missing ++ [rMissingEntries])
  | None => None
  end.

(** [initialize] in a build with [NDEBUG]: the two tables, from empty
    vectors. *)
Definition initialize : option (list (list nat) * list (list Z)) :=
  loop_opt 0 NN initialize_body ([], []).

(** Lines 163-189 in a build that checks assertions: the body of the loop
    over the rows with the [assert] of line 186, which aborts the program
    when the row has not as many empty positions as missing entries. *)
Definition initialize_body_asserting (row : nat)
    (tables : list (list nat) * list (list Z))
    : Checked (list (list nat) * list (list Z)) :=
  let (empties, missing) := tables in
  match initialize_row row with
  | Some (rEmptyPositions, rMissingEntries) =>
      if (length rEmptyPositions =? length rMissingEntries)%nat
      then Done (empties ++ [rEmptyPositions], missing ++ [rMissingEntries])
      else Aborted
  | None => Unspecified
  end.

(** [initialize] in a build that checks assertions. *)
Definition initialize_asserting : Checked (list (list nat) * list (list Z)) :=
  loop_checked 0 NN initialize_body_asserting ([], []).

(** Lines 138-139: the entries of the row, shuffled in place. *)
Definition shuffle_entries (row : nat) : M (State G) (list Z) :=
  fun s =>
    match rowMissingEntries s !! row with
    | Some entries =>
        let (entries', gen') := std_shuffle entries (gen s) in
        Val entries'
            {| gen := gen';
               rowEmptyPositions := rowEmptyPositions s;
               rowMissingEntries := <[row := entries']> (rowMissingEntries s) |}
    | None => Undefined
    end.

(** Lines 142-150: the loop over the entries from column [col] on, with
    the entries still to place; the result is the board and [flag], or
    [None] for an access out of range. *)
Fixpoint place (empties : list (list nat)) (row col : nat) (entries : list Z)
    (b : board) : option (board * bool) :=
  match entries with
  | [] => Some (b, true)
  | e :: rest =>
      match empties !! row with
      | Some positions =>
          match positions !! col with
          | Some p =>
              let pos := (row * NN + p)%nat in
              match cell_candidates !! pos with
              | Some candidates =>
                  if existsb (Z.eqb e) candidates then
                    if (pos <? length b)%nat
                    then place empties row (S col) rest (<[pos := e]> b)
                    else None
                  else Some (b, false)
              | None => None
              end
          | None => None
          end
      | None => None
      end
  end.

(** [fillRow]: at most [fuel] turns of the [for (;;)] loop; [None] when
    the loop is still going on after them. *)
Fixpoint fillRow (fuel : nat) (b : board) (row : nat)
    : M (State G) (option board) :=
  match fuel with
  | O => ret None
  | S fuel' =>
      let* entries := shuffle_entries row in
      let* empties := (fun s => Val (rowEmptyPositions s) s) in
      match place empties row 0 entries b with
      | Some (b', true) => ret (Some b')
      | Some (b', false) => fillRow fuel' b' row
      | None => undefined
      end
  end.

(** Lines 61-62: the rows [row], ..., [row + count - 1]. *)
Fixpoint fill_rows (fuel : nat) (row count : nat) (b : board)
    : M (State G) (option board) :=
  match count with
  | O => ret (Some b)
  | S count' =>
      let* filled := fillRow fuel b row in
      match filled with
      | Some b' => fill_rows fuel (S row) count' b'
      | None => ret None
      end
  end.

(** [generate], each [fillRow] with [fuel] turns. *)
Definition generate (fuel : nat) : M (State G) (option board) :=
  fill_rows fuel 0 NN partial_board.

(** [mutate]. *)
Definition mutate (fuel : nat) (original_board : board)
    : M (State G) (option board) :=
  let* row := (fun s =>
                 let (row, gen') := uniform_row (gen s) in
                 Val row {| gen := gen';
                            rowEmptyPositions := rowEmptyPositions s;
                            rowMissingEntries := rowMissingEntries s |}) in
  fillRow fuel original_board row.

(** [survive]. *)
Definition survive (p : board) : M (State G) board := ret p.

(** The cells of row [row] of the partial board are entries or 0: at most
    [NN]; and no entry occurs twice in the row. *)
Definition row_valid (row : nat) : Prop :=
  (forall col, (col < NN)%nat ->
     0 <= cell partial_board (row * NN + col) <= Z.of_nat NN) /\
  (forall c1 c2, (c1 < NN)%nat -> (c2 < NN)%nat ->
     cell partial_board (row * NN + c1) <> 0 ->
     cell partial_board (row * NN + c1) = cell partial_board (row * NN + c2) ->
     c1 = c2).

(** The cells of row [row] of the partial board. *)
Definition row_cells (row : nat) : list Z :=
  map (fun col => cell partial_board (row * NN + col)) (seq 0 NN).

(** In the words of the comments of [initialize]: the positions of the
    row that are empty, and the entries among 1, ..., [NN] that are missing
    from it, both in increasing order. *)
Definition spec_empty_positions (row : nat) : list nat :=
  List.filter (fun col => cell partial_board (row * NN + col) =? 0) (seq 0 NN).

Definition spec_missing_entries (row : nat) : list Z :=
  List.filter (fun v => negb (existsb (Z.eqb v) (row_cells row)))
    (map Z.of_nat (seq 1 NN)).

(** The tables of the populator are those of [initialize], up to the
    order of the missing entries of each row, which [fillRow] shuffles. *)
Definition initialized (s : State G) : Prop :=
  rowEmptyPositions s = map spec_empty_positions (seq 0 NN) /\
  length (rowMissingEntries s) = NN /\
  forall row entries, rowMissingEntries s !! row = Some entries ->
    Permutation entries (spec_missing_entries row).

(** [std::shuffle] permutes. *)
Definition shuffle_permutes : Prop :=
  forall entries g, Permutation (std_shuffle entries g).1 entries.

(** Row [row] of [b'] is row [row] of [b] filled: the entry at index [i] of
    [entries] is in the cell of the [i]-th empty position of the row and is
    a candidate of that cell, and the cells that the partial board gives
    are those of [b]. *)
Definition row_filled (row : nat) (entries : list Z) (b b' : board) : Prop :=
  (forall i e, entries !! i = Some e ->
     exists p cs, spec_empty_positions row !! i = Some p /\
                  b' !! (row * NN + p)%nat = Some e /\
                  cell_candidates !! (row * NN + p)%nat = Some cs /\
                  In e cs) /\
  (forall col, (col < NN)%nat -> cell partial_board (row * NN + col) <> 0 ->
     b' !! (row * NN + col)%nat = b !! (row * NN + col)%nat).

(** The two bitsets of [initialize] after the cells of the columns below
    [c] of the row. *)
Definition scanned (row c : nat) (sets : list bool * list bool) : Prop :=
  length sets.1 = NN /\ length sets.2 = (NN + 1)%nat /\
  (forall j, bitset_test sets.1 j = true <->
     (j < c)%nat /\ cell partial_board (row * NN + j) = 0) /\
  (forall v, bitset_test sets.2 v = true <->
     exists j, (j < c)%nat /\ cell partial_board (row * NN + j) <> 0 /\
               Z.to_nat (cell partial_board (row * NN + j)) = v).

End Populator.

End GenSudokuBoardGAPopulator.

(** ** A small instance

    Candidates are integers and are their own fitness; the shared state is
    a counter that every draw, generation and selection reads and
    advances. *)

Module Sample.

Definition fitness (c : Z) : ZFitness := c.

Definition uniform_real (r : Z) : Q * Z := (Qmake (r mod 4) 4, r + 1).

Definition std_shuffle (v : list (option Z)) (r : Z) : list (option Z) * Z :=
  (rev v, r + 1).

Definition populator : Populator Z Z :=
  {| generate := fun r => (r mod 5, r + 1);
     mutate := fun c r => (c + 1, r + 1);
     crossover := fun a b r => ((Z.max a b, Z.min a b), r + 1);
     survive := fun c r => (c, r) |}.

Definition selector : Selector Z Z :=
  {| select := fun v r => (Z.to_nat (r mod Z.of_nat (length v)), r + 1) |}.

Definition configured (p : option (Populator Z Z)) (size : nat)
    (generations threshold dead_rounds : Z)
    : @GeneticAlgorithm.Options Z Z ZFitness :=
  {| GeneticAlgorithm.populator := p;
     GeneticAlgorithm.population_size := size;
     GeneticAlgorithm.max_generations := generations;
     GeneticAlgorithm.crossover_probability := 1 # 2;
     GeneticAlgorithm.selector := Some selector;
     GeneticAlgorithm.mutation_probability := 1 # 2;
     GeneticAlgorithm.fitness_success_threshold := (threshold : ZFitness);
     GeneticAlgorithm.fitness_death_threshold := (0 : ZFitness);
     GeneticAlgorithm.fitness_death_factor := 0;
     GeneticAlgorithm.permissible_dead_rounds := dead_rounds;
     GeneticAlgorithm.output_rounds := 1 |}.

(** A threshold out of reach of the candidates of the first generations. *)
Definition options (generations : Z) : @GeneticAlgorithm.Options Z Z ZFitness :=
  configured (Some populator) 4 generations 100 2.

(** An easy threshold: every generated candidate reaches it. *)
Definition easy (generations : Z) : @GeneticAlgorithm.Options Z Z ZFitness :=
  configured (Some populator) 4 generations 0 2.

(** The default options, for a population of two. *)
Definition defaults : @GeneticAlgorithm.Options Z Z ZFitness :=
  let d := GeneticAlgorithm.default_options (Some populator) selector (100 : ZFitness) in
  {| GeneticAlgorithm.populator := GeneticAlgorithm.populator d;
     GeneticAlgorithm.population_size := 2;
     GeneticAlgorithm.max_generations := GeneticAlgorithm.max_generations d;
     GeneticAlgorithm.crossover_probability := GeneticAlgorithm.crossover_probability d;
     GeneticAlgorithm.selector := GeneticAlgorithm.selector d;
     GeneticAlgorithm.mutation_probability := GeneticAlgorithm.mutation_probability d;
     GeneticAlgorithm.fitness_success_threshold :=
       GeneticAlgorithm.fitness_success_threshold d;
     GeneticAlgorithm.fitness_death_threshold :=
       GeneticAlgorithm.fitness_death_threshold d;
     GeneticAlgorithm.fitness_death_factor := GeneticAlgorithm.fitness_death_factor d;
     GeneticAlgorithm.permissible_dead_rounds :=
       GeneticAlgorithm.permissible_dead_rounds d;
     GeneticAlgorithm.output_rounds := GeneticAlgorithm.output_rounds d |}.

Definition world_at (r : Z) : World Z ZFitness := {| source := r; events := [] |}.

Definition world : World Z ZFitness := world_at 0.

Definition climber : HillClimbingAlgorithm.HillClimbingPopulator Z Z :=
  {| HillClimbingAlgorithm.generate := fun r => (r mod 5, r + 1);
     HillClimbingAlgorithm.generateNeighbour := fun c r => (c + r mod 3 - 1, r + 1) |}.

Definition climb_with
    (p : option (HillClimbingAlgorithm.HillClimbingPopulator Z Z))
    (rounds iterations threshold : Z)
    : HillClimbingAlgorithm.Options Z Z ZFitness :=
  {| HillClimbingAlgorithm.populator := p;
     HillClimbingAlgorithm.max_rounds := rounds;
     HillClimbingAlgorithm.max_iterations_per_round := iterations;
     HillClimbingAlgorithm.fitness_success_threshold := (threshold : ZFitness) |}.

Definition climb (rounds iterations threshold : Z)
    : HillClimbingAlgorithm.Options Z Z ZFitness :=
  climb_with (Some climber) rounds iterations threshold.

(** A generator of coins: the binary digits of a number, lowest first. *)
Definition coin (g : Z) : Z * Z := (g mod 2, g / 2).

(** A 4 by 4 puzzle ([N = 2]), a shuffle that rotates the entries by the
    state of the generator, and candidates that exclude the entry 4 from
    the first cell of the second row. *)
Definition puzzle : list Z :=
  [1; 0; 0; 4;
   0; 0; 1; 0;
   0; 1; 0; 0;
   4; 0; 0; 1].

Definition rotate (entries : list Z) (g : nat) : list Z * nat :=
  (drop (g mod length entries) entries ++ take (g mod length entries) entries,
   S g).

Definition pick_row (g : nat) : nat * nat := ((g mod 4)%nat, S g).

Definition candidates : list (list Z) :=
  <[4%nat := [2; 3]]> (replicate 16 [1; 2; 3; 4]).

Definition tables : list (list nat) * list (list Z) :=
  ([[1; 2]; [0; 1; 3]; [0; 2; 3]; [1; 2]]%nat,
   [[2; 3]; [2; 3; 4]; [2; 3; 4]; [2; 3]]).

Definition populating (g : nat) : GenSudokuBoardGAPopulator.State nat :=
  {| GenSudokuBoardGAPopulator.gen := g;
     GenSudokuBoardGAPopulator.rowEmptyPositions := tables.1;
     GenSudokuBoardGAPopulator.rowMissingEntries := tables.2 |}.

(** Candidates that allow every entry in every cell. *)
Definition open_candidates : list (list Z) := replicate 16 [1; 2; 3; 4].


(** A puzzle without an empty cell, and the populator on it. *)
Definition solved : list Z :=
  [1; 2; 3; 4;
   3; 4; 1; 2;
   2; 1; 4; 3;
   4; 3; 2; 1].

Definition solving (g : nat) : GenSudokuBoardGAPopulator.State nat :=
  {| GenSudokuBoardGAPopulator.gen := g;
     GenSudokuBoardGAPopulator.rowEmptyPositions := replicate 4 [];
     GenSudokuBoardGAPopulator.rowMissingEntries := replicate 4 [] |}.

(** Options of a population of four with a given selector and a given
    period of output. *)
Definition configure (sel : option (Selector Z Z)) (output : Z)
    : @GeneticAlgorithm.Options Z Z ZFitness :=
  {| GeneticAlgorithm.populator := Some populator;
     GeneticAlgorithm.population_size := 4;
     GeneticAlgorithm.max_generations := 3;
     GeneticAlgorithm.crossover_probability := 1 # 2;
     GeneticAlgorithm.selector := sel;
     GeneticAlgorithm.mutation_probability := 1 # 2;
     GeneticAlgorithm.fitness_success_threshold := (100 : ZFitness);
     GeneticAlgorithm.fitness_death_threshold := (0 : ZFitness);
     GeneticAlgorithm.fitness_death_factor := 0;
     GeneticAlgorithm.permissible_dead_rounds := 2;
     GeneticAlgorithm.output_rounds := output |}.

(** The variables of the loop of [run] at the head of a generation. *)
Definition heading : @GeneticAlgorithm.Loop Z :=
  {| GeneticAlgorithm.generation := 0;
     GeneticAlgorithm.prevGeneration := [Some 3; Some 1; Some 4; Some 1];
     GeneticAlgorithm.best := 4;
     GeneticAlgorithm.deadRounds := 0 |}.

End Sample.

(** * Properties *)

(** ** The monad *)

Lemma bind_val {W A B} (c : M W A) (k : A -> M W B) (w : W) (b : B) (w' : W) :
  bind c k w = Val b w' ->
  exists a w1, c w = Val a w1 /\ k a w1 = Val b w'.
Proof.
  unfold bind. destruct (c w) as [a w1 | what w1 |] eqn:Hc; try discriminate.
  intros Hk. exists a, w1. split; [reflexivity | exact Hk].
Qed.

Lemma bind_eq {W A B} (c : M W A) (k : A -> M W B) (w : W) (a : A) (w1 : W) :
  c w = Val a w1 -> bind c k w = k a w1.
Proof. unfold bind. intros ->. reflexivity. Qed.

Lemma call_eq {R F A} (e : Event F) (f : R -> A * R) (w : World R F) :
  call e f w =
  Val (fst (f (source w)))
      {| source := snd (f (source w)); events := events w ++ [e] |}.
Proof. unfold call. destruct (f (source w)). reflexivity. Qed.

Lemma at_val {W T} (v : list (option T)) (i : nat) (w : W) (c : T) (w' : W) :
  at_ v i w = Val c w' -> v !! i = Some (Some c) /\ w' = w.
Proof.
  unfold at_. destruct (v !! i) as [[x |] |]; unfold ret, undefined; try discriminate.
  intros H. injection H as -> ->. split; reflexivity.
Qed.

Lemma at_eq {W T} (v : list (option T)) (i : nat) (w : W) (c : T) :
  v !! i = Some (Some c) -> at_ v i w = Val c w.
Proof. unfold at_. intros ->. reflexivity. Qed.

Lemma store_val {W T} (v : list (option T)) (i : nat) (p : option T) (w : W)
    (v' : list (option T)) (w' : W) :
  store v i p w = Val v' w' -> (i < length v)%nat /\ v' = <[i := p]> v /\ w' = w.
Proof.
  unfold store. destruct (Nat.ltb_spec i (length v)); unfold ret, undefined; try discriminate.
  intros H0. injection H0 as <- <-. auto.
Qed.

Lemma store_eq {W T} (v : list (option T)) (i : nat) (p : option T) (w : W) :
  (i < length v)%nat -> store v i p w = Val (<[i := p]> v) w.
Proof.
  unfold store. intros H. destruct (Nat.ltb_spec i (length v)); [reflexivity | lia].
Qed.

(** Inversion of a computation that returned: split the binds, then read
    the elementary steps. *)
Ltac inv_step H :=
  match type of H with
  | bind _ _ _ = Val _ _ =>
      let a := fresh "a" in
      let w := fresh "w" in
      let H1 := fresh "H" in
      let H2 := fresh "H" in
      apply bind_val in H; destruct H as (a & w & H1 & H2);
      inv_step H1; inv_step H2
  | call _ _ _ = Val _ _ => rewrite call_eq in H; injection H as <- <-
  | emit _ _ = Val _ _ =>
      unfold emit in H; first [injection H as <- <- | injection H as <-]
  | ret _ _ = Val _ _ =>
      unfold ret in H; first [discriminate H | injection H as <- <-]
  | at_ _ _ _ = Val _ _ => apply at_val in H; destruct H as [H ->]
  | store _ _ _ _ = Val _ _ =>
      let Hlt := fresh "Hlt" in
      apply store_val in H; destruct H as (Hlt & -> & ->)
  | undefined _ = Val _ _ => discriminate H
  | throw _ _ = Val _ _ => discriminate H
  | _ => idtac
  end.

(** The invariant rule of the counted loop, for a loop that returned. *)
Lemma for_range_returned {W St} (I : nat -> St -> W -> Prop)
    (body : nat -> St -> M W St) (count first : nat) (st : St) (w : W)
    (st' : St) (w' : W) :
  for_range first count body st w = Val st' w' ->
  I first st w ->
  (forall i s u s' u', (first <= i < first + count)%nat ->
     I i s u -> body i s u = Val s' u' -> I (S i) s' u') ->
  I (first + count)%nat st' w'.
Proof.
  revert first st w. induction count as [| count IH]; intros first st w Hrun Hinit Hbody.
  - simpl in Hrun. unfold ret in Hrun. injection Hrun as <- <-.
    replace (first + 0)%nat with first by lia. exact Hinit.
  - simpl in Hrun. apply bind_val in Hrun. destruct Hrun as (s1 & w1 & Hb & Hrest).
    replace (first + S count)%nat with (S first + count)%nat by lia.
    apply (IH (S first) s1 w1 Hrest).
    + apply (Hbody first st w s1 w1); [lia | exact Hinit | exact Hb].
    + intros i s u s' u' Hi. apply Hbody. lia.
Qed.

(** The same rule for a loop whose every iteration returns: the loop
    returns. *)
Lemma for_range_returns {W St} (I : nat -> St -> W -> Prop)
    (body : nat -> St -> M W St) (count first : nat) (st : St) (w : W) :
  I first st w ->
  (forall i s u, (first <= i < first + count)%nat -> I i s u ->
     exists s' u', body i s u = Val s' u' /\ I (S i) s' u') ->
  exists st' w', for_range first count body st w = Val st' w' /\
                 I (first + count)%nat st' w'.
Proof.
  revert first st w. induction count as [| count IH]; intros first st w Hinit Hbody.
  - exists st, w. replace (first + 0)%nat with first by lia. split; [reflexivity | exact Hinit].
  - destruct (Hbody first st w) as (s1 & w1 & Hb & HI); [lia | exact Hinit |].
    destruct (IH (S first) s1 w1 HI) as (st' & w' & Hrun & Hend).
    + intros i s u Hi. apply Hbody. lia.
    + exists st', w'. replace (first + S count)%nat with (S first + count)%nat by lia.
      split; [| exact Hend]. simpl. rewrite (bind_eq _ _ _ _ _ Hb). exact Hrun.
Qed.

(** ** The order of the fitness type *)

Lemma ZFitness_order : StrictWeakOrder ZFitness.
Proof.
  split; simpl.
  - intros a. apply Z.ltb_irrefl.
  - intros a b c Hab Hbc. apply Z.ltb_lt in Hab, Hbc. apply Z.ltb_lt. lia.
  - intros a b c Hab Hbc. apply Z.ltb_ge in Hab, Hbc. apply Z.ltb_ge. lia.
Qed.

Lemma lt_asym {F : Arithmetic} (HF : StrictWeakOrder F) (a b : F) :
  lt a b = true -> lt b a = false.
Proof.
  intros Hab. destruct (lt b a) eqn:Hba; [| reflexivity].
  rewrite <- (lt_irrefl F HF a). symmetry. exact (lt_trans F HF a b a Hab Hba).
Qed.

Lemma lt_ge_trans {F : Arithmetic} (HF : StrictWeakOrder F) (a b c : F) :
  lt a b = true -> lt c b = false -> lt a c = true.
Proof.
  intros Hab Hcb. destruct (lt a c) eqn:Hac; [reflexivity |].
  rewrite (ge_trans F HF a c b Hac Hcb) in Hab. discriminate.
Qed.

Lemma ge_lt_trans {F : Arithmetic} (HF : StrictWeakOrder F) (a b c : F) :
  lt b a = false -> lt b c = true -> lt a c = true.
Proof.
  intros Hba Hbc. destruct (lt a c) eqn:Hac; [reflexivity |].
  rewrite (ge_trans F HF b a c Hba Hac) in Hbc. discriminate.
Qed.

(** ** The genetic engine *)

Section GeneticProperties.

Context {T R : Type} {F : Arithmetic}.
Variable fitness : T -> F.
Variable uniform_real : R -> Q * R.
Variable std_shuffle : list (option T) -> R -> list (option T) * R.

Import GeneticAlgorithm.

Local Abbreviation W := (World R F).
Local Abbreviation population := (list (option T)).

(** *** Breeding *)

Lemma breed_body_pair (o : @Options T R F) (pop : Populator T R) (prev : population)
    (i : nat) (next : population) (w : W) (next1 : population) (w1 : W) :
  breed_body uniform_real o pop prev i next w = Val next1 w1 ->
  exists a b,
    spec_pair_slot uniform_real o pop prev i w = Val (a, b) w1 /\
    (2 * i + 1 < length next)%nat /\
    next1 = <[(2 * i + 1)%nat := Some b]> (<[(2 * i)%nat := Some a]> next).
Proof.
  unfold breed_body, spec_pair_slot, spec_offspring, spec_survivors.
  unfold bind, deref, at_, store, ret, undefined. rewrite !call_eq.
  intros H.
  repeat (case_match; simplify_eq; try discriminate).
  all: rewrite ?call_eq in *; simplify_eq.
  all: eexists _, _; split; [reflexivity |].
  all: split; [| reflexivity].
  all: match goal with
       | Hlt : (_ <? length (<[_ := _]> _))%nat = true |- _ =>
           apply Nat.ltb_lt in Hlt; rewrite length_insert in Hlt; exact Hlt
       end.
Qed.

Lemma breed_range (o : @Options T R F) (pop : Populator T R) (prev : population)
    (count first : nat) (next : population) (w : W) (next' : population) (w' : W) :
  for_range first count (breed_body uniform_real o pop prev) next w = Val next' w' ->
  exists ps,
    spec_pair_slots uniform_real o pop prev first count w = Val ps w' /\
    length ps = count /\
    length next' = length next /\
    (forall k a b, ps !! k = Some (a, b) ->
       next' !! (2 * (first + k))%nat = Some (Some a) /\
       next' !! (2 * (first + k) + 1)%nat = Some (Some b)) /\
    (forall j, (j < 2 * first)%nat -> next' !! j = next !! j).
Proof.
  revert first next w. induction count as [| count IH]; intros first next w Hrun.
  - simpl in Hrun. inv_step Hrun. exists [].
    split; [reflexivity | split; [reflexivity | split; [reflexivity | split]]].
    + intros k a b Hk. rewrite lookup_nil in Hk. discriminate.
    + reflexivity.
  - simpl in Hrun. apply bind_val in Hrun. destruct Hrun as (next1 & w1 & Hbody & Hrest).
    apply breed_body_pair in Hbody. destruct Hbody as (a & b & Hslot & Hlen & ->).
    apply IH in Hrest. destruct Hrest as (ps & Hps & Hlps & Hlnext & Hpairs & Hbefore).
    rewrite !length_insert in Hlnext.
    exists ((a, b) :: ps). split; [| split; [| split; [| split]]].
    + simpl. rewrite (bind_eq _ _ _ _ _ Hslot), (bind_eq _ _ _ _ _ Hps). reflexivity.
    + simpl. rewrite Hlps. reflexivity.
    + exact Hlnext.
    + intros [| k] x y Hk.
      * simpl in Hk. injection Hk as <- <-.
        replace (first + 0)%nat with first by lia.
        rewrite !Hbefore by lia. split.
        -- rewrite list_lookup_insert_ne by lia.
           apply list_lookup_insert_eq. lia.
        -- apply list_lookup_insert_eq. rewrite length_insert. lia.
      * simpl in Hk. replace (first + S k)%nat with (S first + k)%nat by lia.
        apply Hpairs. exact Hk.
    + intros j Hj. rewrite Hbefore by lia.
      rewrite !list_lookup_insert_ne by lia. reflexivity.
Qed.

(** C5. Breeding fills the output positions [2i] and [2i+1] with the pair
    of slot [i], for every slot [i] below [population_size / 2]; the pair is
    the one that the slots in the words of the specification produce, run
    one after the other on the shared generator: after a crossover draw
    below [crossover_probability], the selector gives two parent indices,
    [crossover] gives two children, and each child is mutated when its own
    draw is below [mutation_probability]; otherwise the pair is the
    [survive] copies of the input candidates at [2i] and [2i+1]. *)
Theorem breed_fills_pair_slots (o : @Options T R F) (pop : Populator T R)
    (prev : population) (w : W) (next : population) (w' : W) :
  breed uniform_real o pop prev w = Val next w' ->
  fills_pair_slots uniform_real o pop prev w next w'.
Proof.
  unfold breed, fills_pair_slots. intros Hrun. apply breed_range in Hrun.
  destruct Hrun as (ps & Hps & Hlps & Hlnext & Hpairs & _).
  exists ps. rewrite length_replicate in Hlnext. repeat split; auto.
  intros i Hi. destruct (lookup_lt_is_Some_2 ps i) as [[a b] Hab]; [lia |].
  exists a, b. split; [exact Hab |]. apply (Hpairs i a b Hab).
Qed.

(** *** The fittest candidate *)

Lemma first_max_step (HF : StrictWeakOrder F) (v : population) (i k : nat) (a b : T) :
  first_max fitness v i k -> (k <= i)%nat ->
  v !! k = Some (Some a) -> v !! i = Some (Some b) ->
  first_max fitness v (S i) (if lt (fitness a) (fitness b) then i else k).
Proof.
  intros Hmax Hk Ha Hb j cj ck Hj Hcj Hck.
  destruct (lt (fitness a) (fitness b)) eqn:Hab.
  - assert (ck = b) as -> by congruence.
    destruct (decide (j = i)) as [-> | Hne].
    + assert (cj = b) as -> by congruence.
      split; [apply (lt_irrefl F HF) | lia].
    + destruct (Hmax j cj a) as [Hle _]; [lia | exact Hcj | exact Ha |].
      assert (lt (fitness cj) (fitness b) = true) as Hlt
        by exact (ge_lt_trans HF _ _ _ Hle Hab).
      split; [exact (lt_asym HF _ _ Hlt) | intros _; exact Hlt].
  - assert (ck = a) as -> by congruence.
    destruct (decide (j = i)) as [-> | Hne].
    + assert (cj = b) as -> by congruence.
      split; [exact Hab | lia].
    + apply (Hmax j cj a); [lia | exact Hcj | exact Ha].
Qed.

Lemma max_element_first_max (HF : StrictWeakOrder F) (v : population) (w : W)
    (k : nat) (w' : W) :
  max_element fitness v w = Val k w' ->
  w' = w /\ (k < Nat.max 1 (length v))%nat /\ first_max fitness v (length v) k.
Proof.
  unfold max_element. intros Hrun.
  destruct v as [| p v'].
  { simpl in Hrun. inv_step Hrun.
    split; [reflexivity | split; [simpl; lia |]].
    intros j cj ck Hj. simpl in Hj. lia. }
  pose (I := fun (i largest : nat) (u : W) =>
               u = w /\ (largest < i)%nat /\ first_max fitness (p :: v') i largest).
  assert (I (1 + (length (p :: v') - 1))%nat k w') as (-> & Hk & Hmax).
  { apply (for_range_returned I _ _ _ _ _ _ _ Hrun).
    - split; [reflexivity | split; [lia |]].
      intros j cj ck Hj Hcj Hck. assert (j = 0%nat) as -> by lia.
      assert (ck = cj) as -> by congruence.
      split; [apply (lt_irrefl F HF) | lia].
    - intros i largest u k' u' Hi (-> & Hlt & Hmax) Hbody.
      unfold max_element_body in Hbody. inv_step Hbody.
      split; [reflexivity | split].
      + case_match; lia.
      + apply (first_max_step HF); auto. lia. }
  simpl in Hk, Hmax. replace (S (length v' - 0)) with (S (length v')) in * by lia.
  split; [reflexivity | split; [simpl; lia | exact Hmax]].
Qed.

Lemma first_max_lowest (v : population) (k : nat) (ck : T) :
  first_max fitness v (length v) k -> v !! k = Some (Some ck) ->
  lowest_fittest fitness v k.
Proof.
  intros Hmax Hk. exists ck. split; [exact Hk |].
  intros j cj Hj. apply (Hmax j cj ck); [| exact Hj | exact Hk].
  apply lookup_lt_Some in Hj. exact Hj.
Qed.

Lemma init_body_inv (HF : StrictWeakOrder F) (pop : Populator T R) (n i : nat)
    (st : population * nat) (w : W) (st' : population * nat) (w' : W) :
  init_inv fitness n i st ->
  init_body fitness pop i st w = Val st' w' ->
  init_inv fitness n (S i) st' /\ events w' = events w ++ [EvGenerate].
Proof.
  destruct st as [prev max_init]. intros (Hlen & Hfilled & Hmi & Hmax) Hbody.
  unfold init_body in Hbody. inv_step Hbody. simpl in *.
  match goal with
  | Hi : _ !! i = Some (Some ?x), Hm : _ !! max_init = Some (Some ?y) |- _ =>
      rename x into ci, y into cm, Hi into Hci, Hm into Hcm
  end.
  split; [| reflexivity].
  set (c := (generate pop (source w)).1) in *.
  set (prev' := <[i := Some c]> prev) in *.
  assert (ci = c) as ->.
  { unfold prev' in Hci. rewrite list_lookup_insert_eq in Hci by lia. congruence. }
  assert (Hold : forall j, (j < i)%nat -> prev' !! j = prev !! j).
  { intros j Hj. unfold prev'. apply list_lookup_insert_ne. lia. }
  unfold gt. split; [| split; [| split]]; simpl.
  - unfold prev'. rewrite length_insert. exact Hlen.
  - intros j Hj. destruct (decide (j = i)) as [-> | Hne].
    + exists c. exact Hci.
    + rewrite Hold by lia. apply Hfilled. lia.
  - destruct (lt (fitness cm) (fitness c)); lia.
  - apply (first_max_step HF); auto; [| lia].
    intros j cj ck Hj Hcj Hck. destruct i as [| i']; [lia |].
    rewrite Hold in Hcj, Hck by lia. exact (Hmax j cj ck Hj Hcj Hck).
Qed.

Lemma init_loop_inv (HF : StrictWeakOrder F) (pop : Populator T R) (n : nat)
    (w : W) (prev : population) (max_init : nat) (w' : W) :
  for_range 0 n (init_body fitness pop) (replicate n None, 0%nat) w
    = Val (prev, max_init) w' ->
  init_inv fitness n n (prev, max_init).
Proof.
  intros Hrun.
  apply (for_range_returned (fun i st _ => init_inv fitness n i st) _ _ _ _ _ _ _ Hrun).
  - split; [apply length_replicate | split; [intros j Hj; lia | split; [simpl; lia |]]].
    intros j cj ck Hj. lia.
  - intros i s u s' u' Hi Hinv Hbody.
    exact (proj1 (init_body_inv HF pop n i s u s' u' Hinv Hbody)).
Qed.

(** *** One generation *)

Lemma assess_val (pop : Populator T R) (next : population) (b : T) (w : W)
    (b' : T) (increased : bool) (w' : W) :
  assess fitness pop next b w = Val (b', increased) w' ->
  exists k fittest,
    max_element fitness next w = Val k w /\
    next !! k = Some (Some fittest) /\
    increased = lt (fitness b) (fitness fittest) /\
    if increased
    then b' = (survive pop fittest (source w)).1 /\
         w' = {| source := (survive pop fittest (source w)).2;
                 events := events w ++ [EvSurvive] |}
    else b' = b /\ w' = w.
Proof.
  unfold assess. intros H. apply bind_val in H. destruct H as (k & w1 & Hk & H).
  apply bind_val in H. destruct H as (fittest & w2 & Hf & H).
  assert (w1 = w) as ->.
  { revert Hk. unfold max_element.
    intros Hk. symmetry.
    apply (for_range_returned (fun _ _ u => w = u) _ _ _ _ _ _ _ Hk); [reflexivity |].
    intros i s u s' u' _ -> Hb. unfold max_element_body in Hb. inv_step Hb. reflexivity. }
  inv_step Hf. exists k, fittest. unfold gt in H.
  destruct (lt (fitness b) (fitness fittest)) eqn:Hlt; inv_step H; auto.
Qed.

Lemma assess_flag (HF : StrictWeakOrder F) (pop : Populator T R)
    (Hs : survive_copies fitness pop) (next : population) (b : T) (w : W)
    (b' : T) (increased : bool) (w' : W) :
  assess fitness pop next b w = Val (b', increased) w' ->
  increased = lt (fitness b) (fitness b').
Proof.
  intros H. apply assess_val in H.
  destruct H as (k & fittest & _ & _ & Hinc & H).
  destruct increased.
  - destruct H as [-> _]. rewrite Hs. exact Hinc.
  - destruct H as [-> _]. symmetry. apply (lt_irrefl F HF).
Qed.

(** The phases of a generation that continues. *)
Lemma generation_body_continue (o : @Options T R F) (pop : Populator T R) (st : Loop)
    (w : W) (st' : Loop) (w' : W) :
  generation_body fitness uniform_real std_shuffle o pop st w = Val (Continue st') w' ->
  exists next w1 increased w2 killed w3 w4 w5,
    breed uniform_real o pop (prevGeneration st) w = Val next w1 /\
    assess fitness pop next (best st) w1 = Val (best st', increased) w2 /\
    ge (fitness (best st')) (fitness_success_threshold o) = false /\
    kill fitness o pop (count_dead_round increased (deadRounds st))
         (kill_threshold fitness o (best st')) next w2 = Val killed w3 /\
    euthanized o (count_dead_round increased (deadRounds st)) w3
      = Val (deadRounds st') w4 /\
    report fitness o (generation st) (best st') (deadRounds st') w4 = Val tt w5 /\
    call EvShuffle (std_shuffle killed) w5 = Val (prevGeneration st') w' /\
    generation st' = wrap64 (generation st + 1).
Proof.
  unfold generation_body. intros H.
  apply bind_val in H. destruct H as (next & w1 & Hbreed & H).
  apply bind_val in H. destruct H as ([b' increased] & w2 & Hassess & H).
  destruct (ge (fitness b') (fitness_success_threshold o)) eqn:Hge.
  { inv_step H. }
  apply bind_val in H. destruct H as (killed & w3 & Hkill & H).
  apply bind_val in H. destruct H as (d & w4 & Hreset & H).
  apply bind_val in H. destruct H as ([] & w5 & Hreport & H).
  apply bind_val in H. destruct H as (shuffled & w6 & Hshuffle & H).
  unfold ret in H. injection H as <- <-. simpl.
  exists next, w1, increased, w2, killed, w3, w4, w5. auto 10.
Qed.

Lemma generation_body_return (o : @Options T R F) (pop : Populator T R) (st : Loop)
    (w : W) (b : T) (w' : W) :
  generation_body fitness uniform_real std_shuffle o pop st w = Val (Return b) w' ->
  exists next w1 increased w2,
    breed uniform_real o pop (prevGeneration st) w = Val next w1 /\
    assess fitness pop next (best st) w1 = Val (b, increased) w2 /\
    ge (fitness b) (fitness_success_threshold o) = true.
Proof.
  unfold generation_body. intros H.
  apply bind_val in H. destruct H as (next & w1 & Hbreed & H).
  apply bind_val in H. destruct H as ([b' increased] & w2 & Hassess & H).
  destruct (ge (fitness b') (fitness_success_threshold o)) eqn:Hge.
  - inv_step H. exists next, w1, increased, w2. auto.
  - apply bind_val in H. destruct H as (killed & w3 & Hkill & H).
    apply bind_val in H. destruct H as (d & w4 & Hreset & H).
    apply bind_val in H. destruct H as ([] & w5 & Hreport & H).
    apply bind_val in H. destruct H as (shuffled & w6 & Hshuffle & H).
    discriminate H.
Qed.

Lemma breed_length (o : @Options T R F) (pop : Populator T R) (prev : population)
    (w : W) (next : population) (w' : W) :
  breed uniform_real o pop prev w = Val next w' -> length next = population_size o.
Proof.
  unfold breed. intros Hrun. apply breed_range in Hrun.
  destruct Hrun as (ps & _ & _ & Hlen & _). rewrite length_replicate in Hlen. exact Hlen.
Qed.

(** *** The demise pass *)

Lemma spec_fresh_returns (pop : Populator T R) (n : nat) (w : W) :
  exists fresh w', spec_fresh pop n w = Val fresh w' /\ length fresh = n.
Proof.
  revert w. induction n as [| n IH]; intros w.
  - exists [], w. split; reflexivity.
  - simpl. rewrite (bind_eq _ _ _ _ _ (call_eq EvGenerate (generate pop) w)).
    destruct (IH {| source := (generate pop (source w)).2;
                    events := events w ++ [EvGenerate] |}) as (fresh & w' & Hf & Hlen).
    rewrite (bind_eq _ _ _ _ _ Hf). eexists _, _. split; [reflexivity |].
    simpl. rewrite Hlen. reflexivity.
Qed.

Lemma kill_range_forced (o : @Options T R F) (pop : Populator T R) (d : Z) (threshold : F)
    (count first : nat) (next : population) (w : W) (fresh : population) (w' : W) :
  permissible_dead_rounds o <= d ->
  (first + count <= length next)%nat ->
  spec_fresh pop count w = Val fresh w' ->
  for_range first count (kill_body fitness o pop d threshold) next w
    = Val (take first next ++ fresh ++ drop (first + count) next) w'.
Proof.
  intros Hd. revert first next w fresh w'.
  induction count as [| count IH]; intros first next w fresh w' Hlen Hfresh.
  - simpl in Hfresh. inv_step Hfresh. simpl.
    replace (first + 0)%nat with first by lia. rewrite take_drop. reflexivity.
  - simpl in Hfresh. apply bind_val in Hfresh. destruct Hfresh as (g & w1 & Hg & Hfresh).
    apply bind_val in Hfresh. destruct Hfresh as (rest & w2 & Hrest & Hfresh).
    inv_step Hfresh. simpl.
    assert (kill_body fitness o pop d threshold first next w
            = Val (<[first := Some g]> next) w1) as Hbody.
    { unfold kill_body. destruct (Z.geb_spec d (permissible_dead_rounds o)); [| lia].
      rewrite (bind_eq _ _ _ _ _ Hg). apply store_eq. lia. }
    rewrite (bind_eq _ _ _ _ _ Hbody).
    rewrite (IH (S first) (<[first := Some g]> next) w1 rest w2);
      [| rewrite length_insert; lia | exact Hrest].
    f_equal.
    rewrite (take_S_r _ _ (Some g)) by (apply list_lookup_insert_eq; lia).
    rewrite take_insert_ge by lia.
    rewrite drop_insert_lt by lia.
    rewrite <- app_assoc. simpl.
    replace (first + S count)%nat with (S first + count)%nat by lia. reflexivity.
Qed.

Lemma kill_forced (o : @Options T R F) (pop : Populator T R) (d : Z) (threshold : F)
    (next : population) (w : W) (fresh : population) (w' : W) :
  permissible_dead_rounds o <= d ->
  length next = population_size o ->
  spec_fresh pop (population_size o) w = Val fresh w' ->
  kill fitness o pop d threshold next w = Val fresh w'.
Proof.
  intros Hd Hlen Hfresh. unfold kill.
  rewrite (kill_range_forced o pop d threshold _ 0 next w fresh w' Hd); [| lia | exact Hfresh].
  simpl. rewrite drop_ge by lia. rewrite app_nil_r. reflexivity.
Qed.

(** X5. Below [permissible_dead_rounds], the demise pass replaces exactly the
    candidates whose fitness is at or below the threshold, each by a
    candidate that [generate] returned, and keeps the others. *)
Lemma kill_replaces_at_or_below (o : @Options T R F) (pop : Populator T R) (d : Z)
    (threshold : F) (next : population) (w : W) (killed : population) (w' : W) :
  d < permissible_dead_rounds o ->
  length next = population_size o ->
  kill fitness o pop d threshold next w = Val killed w' ->
  length killed = population_size o /\
  forall i c, next !! i = Some (Some c) ->
    if le (fitness c) threshold
    then exists r, killed !! i = Some (Some (generate pop r).1)
    else killed !! i = Some (Some c).
Proof.
  intros Hd Hlen Hrun. unfold kill in Hrun.
  pose (I := fun (i : nat) (v : population) (_ : W) =>
               length v = population_size o /\
               (forall j, (i <= j)%nat -> v !! j = next !! j) /\
               (forall j c, (j < i)%nat -> next !! j = Some (Some c) ->
                  if le (fitness c) threshold
                  then exists r, v !! j = Some (Some (generate pop r).1)
                  else v !! j = Some (Some c))).
  assert (I (0 + population_size o)%nat killed w') as (Hl & _ & Hall).
  { apply (for_range_returned I _ _ _ _ _ _ _ Hrun).
    - split; [exact Hlen | split; [reflexivity | intros j c Hj; lia]].
    - intros i v u v' u' Hi (Hlv & Hrest & Hdone) Hbody.
      unfold kill_body in Hbody.
      destruct (Z.geb_spec d (permissible_dead_rounds o)); [lia |].
      apply bind_val in Hbody. destruct Hbody as (c & u1 & Hc & Hbody).
      inv_step Hc. rewrite Hrest in Hc by lia.
      destruct (le (fitness c) threshold) eqn:Hle.
      + inv_step Hbody. split; [rewrite length_insert; exact Hlv | split].
        * intros j Hj. rewrite list_lookup_insert_ne by lia. apply Hrest. lia.
        * intros j cj Hj Hcj. destruct (decide (j = i)) as [-> | Hne].
          -- assert (cj = c) as -> by congruence. rewrite Hle.
             eexists. apply list_lookup_insert_eq. lia.
          -- rewrite list_lookup_insert_ne by lia. apply Hdone; [lia | exact Hcj].
      + inv_step Hbody. split; [exact Hlv | split].
        * intros j Hj. apply Hrest. lia.
        * intros j cj Hj Hcj. destruct (decide (j = i)) as [-> | Hne].
          -- assert (cj = c) as -> by congruence. rewrite Hle.
             rewrite Hrest by lia. exact Hc.
          -- apply Hdone; [lia | exact Hcj]. }
  split; [exact Hl |]. intros i c Hi. apply Hall; [| exact Hi].
  apply lookup_lt_Some in Hi. lia.
Qed.

(** With thresholds of 0 and a factor whose product is 0, the kill
    threshold is 0. *)
Lemma kill_threshold_zero (HF : StrictWeakOrder F) (o : @Options T R F) (b : T) :
  fitness_death_threshold o = zero ->
  scaled (fitness_death_factor o) (fitness b) = zero ->
  kill_threshold fitness o b = zero.
Proof.
  intros H0 H1. unfold kill_threshold, std_max. rewrite H0, H1.
  rewrite (lt_irrefl F HF). reflexivity.
Qed.

Lemma euthanized_val (o : @Options T R F) (d : Z) (w : W) (d' : Z) (w' : W) :
  euthanized o d w = Val d' w' ->
  d' = (if d >=? permissible_dead_rounds o then 0 else d).
Proof.
  unfold euthanized. destruct (d >=? permissible_dead_rounds o); intros H; inv_step H; reflexivity.
Qed.

(** *** The dead-rounds counter *)

Lemma initialize_val (o : @Options T R F) (pop : Populator T R) (w : W) (st : Loop) (w' : W) :
  initialize fitness o pop w = Val st w' ->
  generation st = 0 /\ deadRounds st = 0 /\
  exists max_init c w1,
    for_range 0 (population_size o) (init_body fitness pop)
      (replicate (population_size o) None, 0%nat)
      {| source := source w; events := events w ++ [EvClock] |}
      = Val (prevGeneration st, max_init) w1 /\
    prevGeneration st !! max_init = Some (Some c) /\
    best st = (survive pop c (source w1)).1.
Proof.
  unfold initialize. intros H.
  apply bind_val in H. destruct H as ([] & w0 & Hclock & H).
  apply bind_val in H. destruct H as ([prev max_init] & w1 & Hinit & H).
  apply bind_val in H. destruct H as (c & w2 & Hc & H).
  apply bind_val in H. destruct H as (b & w3 & Hb & H).
  inv_step Hclock. inv_step Hc. inv_step Hb. inv_step H. simpl.
  split; [reflexivity | split; [reflexivity |]].
  exists max_init, c, w1. auto.
Qed.

Lemma count_dead_round_range (o : @Options T R F) (increased : bool) (d : Z) :
  0 <= permissible_dead_rounds o < 2 ^ 64 ->
  0 <= d /\ (d = 0 \/ d < permissible_dead_rounds o) ->
  count_dead_round increased d = (if increased then 0 else d + 1).
Proof.
  intros Hp Hd. unfold count_dead_round, wrap64. destruct increased; [reflexivity |].
  apply Z.mod_small. lia.
Qed.

Lemma reached_dead_rounds (o : @Options T R F) (pop : Populator T R) (w0 : W)
    (st : Loop) (w : W) :
  0 <= permissible_dead_rounds o < 2 ^ 64 ->
  reached fitness uniform_real std_shuffle o pop w0 st w ->
  0 <= deadRounds st /\ (deadRounds st = 0 \/ deadRounds st < permissible_dead_rounds o).
Proof.
  intros Hp Hreached. induction Hreached as [st w Hinit | st w st' w' _ IH Hbody].
  - apply initialize_val in Hinit. destruct Hinit as (_ & -> & _). lia.
  - apply generation_body_continue in Hbody.
    destruct Hbody as (next & w1 & inc & w2 & killed & w3 & w4 & w5 &
                       _ & _ & _ & _ & Hreset & _).
    apply euthanized_val in Hreset. rewrite Hreset.
    rewrite (count_dead_round_range o inc _ Hp IH).
    destruct (Z.geb_spec (if inc then 0 else deadRounds st + 1)
                         (permissible_dead_rounds o)); [lia |].
    destruct inc; lia.
Qed.

(** C2. In a generation of a run that goes on after the success check,
    the counter is counted to 0 when the fitness of [best] strictly
    improved in this generation and to one more than before otherwise
    (without wrap-around); when the counted value is below
    [permissible_dead_rounds] it is the new value of [deadRounds];
    when it has reached [permissible_dead_rounds], the demise pass
    replaces the whole new generation by [population_size] freshly
    generated candidates, and [deadRounds] is 0 after it. *)
Theorem dead_rounds_counted_then_reset (o : @Options T R F) (pop : Populator T R)
    (w0 : W) (st : Loop) (w : W) (st' : Loop) (w' : W) :
  StrictWeakOrder F ->
  survive_copies fitness pop ->
  0 <= permissible_dead_rounds o < 2 ^ 64 ->
  reached fitness uniform_real std_shuffle o pop w0 st w ->
  generation_body fitness uniform_real std_shuffle o pop st w = Val (Continue st') w' ->
  dead_rounds_rule fitness uniform_real std_shuffle o pop st w st' w'.
Proof.
  intros HF Hs Hp Hreached Hbody. unfold dead_rounds_rule.
  set (counted := if lt (fitness (best st)) (fitness (best st')) then 0
                  else deadRounds st + 1).
  pose proof (reached_dead_rounds o pop w0 st w Hp Hreached) as Hd.
  apply generation_body_continue in Hbody.
  destruct Hbody as (next & w1 & inc & w2 & killed & w3 & w4 & w5 &
                     Hbreed & Hassess & _ & Hkill & Hreset & _ & Hshuffle & _).
  pose proof (assess_flag HF pop Hs _ _ _ _ _ _ Hassess) as Hinc.
  rewrite (count_dead_round_range o inc _ Hp Hd) in Hkill, Hreset.
  rewrite Hinc in Hkill, Hreset. fold counted in Hkill, Hreset.
  apply euthanized_val in Hreset.
  destruct (Z.geb_spec counted (permissible_dead_rounds o)) as [Hge | Hlt].
  - right. split; [lia | split; [exact Hreset |]].
    destruct (spec_fresh_returns pop (population_size o) w2) as (fresh & w3' & Hfresh & _).
    pose proof (kill_forced o pop counted (kill_threshold fitness o (best st')) next w2
                  fresh w3' Hge (breed_length _ _ _ _ _ _ Hbreed) Hfresh) as Hk.
    rewrite Hk in Hkill. injection Hkill as <- <-.
    exists next, w1, inc, w2, fresh, w3', w5. auto 10.
  - left. split; [exact Hlt | exact Hreset].
Qed.

(** *** The running best *)

Lemma assess_no_worse (HF : StrictWeakOrder F) (pop : Populator T R)
    (Hs : survive_copies fitness pop) (next : population) (b : T) (w : W)
    (b' : T) (increased : bool) (w' : W) :
  assess fitness pop next b w = Val (b', increased) w' ->
  lt (fitness b') (fitness b) = false.
Proof.
  intros H. pose proof (assess_flag HF pop Hs _ _ _ _ _ _ H) as Hinc.
  apply assess_val in H. destruct H as (k & fittest & _ & _ & _ & H).
  destruct increased.
  - apply (lt_asym HF). symmetry. exact Hinc.
  - destruct H as [-> _]. apply (lt_irrefl F HF).
Qed.

Lemma bests_bounded (HF : StrictWeakOrder F) (o : @Options T R F)
    (pop : Populator T R) (Hs : survive_copies fitness pop)
    (remaining : nat) (st : Loop) (w : W) :
  Forall (fun b => lt (fitness b) (fitness (best st)) = false)
         (bests fitness uniform_real std_shuffle o pop remaining st w).
Proof.
  revert st w. induction remaining as [| remaining IH]; intros st w; simpl.
  - repeat constructor. apply (lt_irrefl F HF).
  - constructor; [apply (lt_irrefl F HF) |].
    destruct (generation_body fitness uniform_real std_shuffle o pop st w)
      as [[b | st'] w' | |] eqn:Hbody; try constructor.
    + apply generation_body_return in Hbody.
      destruct Hbody as (next & w1 & inc & w2 & _ & Hassess & _).
      exact (assess_no_worse HF pop Hs _ _ _ _ _ _ Hassess).
    + constructor.
    + apply generation_body_continue in Hbody.
      destruct Hbody as (next & w1 & inc & w2 & killed & w3 & w4 & w5 &
                         _ & Hassess & _).
      pose proof (assess_no_worse HF pop Hs _ _ _ _ _ _ Hassess) as Hstep.
      eapply Forall_impl; [apply IH |]. simpl. intros b Hb.
      exact (ge_trans F HF _ _ _ Hb Hstep).
Qed.

Lemma bests_sorted (HF : StrictWeakOrder F) (o : @Options T R F)
    (pop : Populator T R) (Hs : survive_copies fitness pop)
    (remaining : nat) (st : Loop) (w : W) :
  StronglySorted (fun b b' => lt (fitness b') (fitness b) = false)
    (bests fitness uniform_real std_shuffle o pop remaining st w).
Proof.
  revert st w. induction remaining as [| remaining IH]; intros st w.
  - simpl. repeat constructor.
  - pose proof (bests_bounded HF o pop Hs (S remaining) st w) as Hb.
    simpl in *. apply Forall_cons in Hb. destruct Hb as [_ Hb].
    constructor; [| exact Hb].
    destruct (generation_body fitness uniform_real std_shuffle o pop st w)
      as [[b | st'] w' | |]; try (repeat constructor); apply IH.
Qed.

(** *** The generation budget *)

Lemma generations_counted (o : @Options T R F) (pop : Populator T R)
    (remaining : nat) (st : Loop) (w : W) (e : Exit) (w' : W) :
  0 <= generation st ->
  generation st + Z.of_nat remaining < 2 ^ 64 ->
  generations fitness uniform_real std_shuffle o pop remaining st w = Val e w' ->
  match e with
  | Exhausted g _ => g = generation st + Z.of_nat remaining
  | Solved g _ => generation st <= g < generation st + Z.of_nat remaining
  end.
Proof.
  revert st w. induction remaining as [| remaining IH]; intros st w Hg Hbound Hrun.
  - simpl in Hrun. inv_step Hrun. lia.
  - simpl in Hrun. apply bind_val in Hrun. destruct Hrun as (r & w1 & Hbody & Hrun).
    destruct r as [b | st'].
    + inv_step Hrun. lia.
    + apply generation_body_continue in Hbody.
      destruct Hbody as (next & u1 & inc & u2 & killed & u3 & u4 & u5 &
                         _ & _ & _ & _ & _ & _ & _ & Hgen).
      assert (generation st' = generation st + 1) as Hnext.
      { rewrite Hgen. unfold wrap64. apply Z.mod_small. lia. }
      apply IH in Hrun; [| lia | lia].
      destruct e; lia.
Qed.

Lemma loop_bound_range (o : @Options T R F) : 0 <= loop_bound o < 2 ^ 64.
Proof. unfold loop_bound, wrap64. apply Z.mod_pos_bound. lia. Qed.

(** *** Defined behaviour *)

Lemma bind_ret {A B} (a : A) (k : A -> M W B) (w : W) : bind (ret a) k w = k a w.
Proof. reflexivity. Qed.

Lemma bind_call {A B} (e : Event F) (f : R -> A * R) (k : A -> M W B) (w : W) :
  bind (call e f) k w
  = k (f (source w)).1 {| source := (f (source w)).2; events := events w ++ [e] |}.
Proof. apply bind_eq, call_eq. Qed.

Lemma populated_lookup (n : nat) (v : population) (j : nat) :
  populated n v -> (j < n)%nat -> exists c, v !! j = Some (Some c).
Proof. intros [_ H]. apply H. Qed.

Lemma populated_Forall (n : nat) (v : population) :
  populated n v <-> length v = n /\ Forall (fun p => is_Some p) v.
Proof.
  unfold populated. split; intros [Hlen H]; (split; [exact Hlen |]).
  - apply Forall_lookup. intros j p Hj.
    destruct (H j) as [c Hc]; [rewrite <- Hlen; exact (lookup_lt_Some _ _ _ Hj) |].
    rewrite Hc in Hj. injection Hj as <-. eexists. reflexivity.
  - intros j Hj. destruct (lookup_lt_is_Some_2 v j) as [p Hp]; [lia |].
    destruct (proj1 (Forall_lookup _ _) H j p Hp) as [c ->]. exists c. exact Hp.
Qed.

Lemma populated_permutation (n : nat) (v v' : population) :
  Permutation v' v -> populated n v -> populated n v'.
Proof.
  intros Hperm Hv. apply populated_Forall in Hv. destruct Hv as [Hlen Hall].
  apply populated_Forall. split.
  - rewrite (Permutation_length Hperm). exact Hlen.
  - rewrite Hperm. exact Hall.
Qed.

Lemma maybe_mutate_returns (pop : Populator T R) (b : bool) (c : T) (w : W) :
  exists c' w', (if b then call EvMutate (mutate pop c) else ret c) w = Val c' w'.
Proof.
  destruct b; [rewrite call_eq | unfold ret]; eexists _, _; reflexivity.
Qed.

Lemma breed_body_returns (o : @Options T R F) (pop : Populator T R)
    (sel : Selector T R) (prev : population) (i : nat) (next : population) (w : W) :
  breedable o pop sel ->
  populated (population_size o) prev ->
  (2 * i + 1 < population_size o)%nat ->
  length next = population_size o ->
  exists next' w',
    breed_body uniform_real o pop prev i next w = Val next' w' /\
    length next' = population_size o.
Proof.
  intros Hw Hprev Hi Hlen. unfold breed_body. rewrite bind_call.
  assert (Hne : prev <> []).
  { destruct Hprev as [Hl _]. pose proof (breedable_positive _ _ _ Hw).
    intros ->. simpl in Hl. lia. }
  assert (Hidx : forall r, exists c, prev !! (select sel prev r).1 = Some (Some c)).
  { intros r. apply (populated_lookup _ _ _ Hprev).
    pose proof (breedable_select _ _ _ Hw prev r Hne) as Hlt.
    destruct Hprev as [<- _]. exact Hlt. }
  assert (H2i : (2 * i < length next)%nat) by lia.
  assert (H2i1 : forall x, (2 * i + 1 < length (<[(2 * i)%nat := x]> next))%nat).
  { intros x. rewrite length_insert. lia. }
  destruct (Qltb _ (crossover_probability o)).
  - rewrite (breedable_selector _ _ _ Hw). unfold deref. rewrite bind_ret, bind_call.
    match goal with
    | |- context [at_ prev (select sel prev ?r).1] => destruct (Hidx r) as [p0 Hp0]
    end.
    rewrite (bind_eq _ _ _ _ _ (at_eq _ _ _ _ Hp0)), bind_call.
    match goal with
    | |- context [at_ prev (select sel prev ?r).1] => destruct (Hidx r) as [p1 Hp1]
    end.
    rewrite (bind_eq _ _ _ _ _ (at_eq _ _ _ _ Hp1)), bind_call.
    destruct (crossover pop p0 p1 _).1 as [c0 c1].
    rewrite bind_call.
    match goal with
    | |- context [bind (if ?b then call EvMutate (mutate pop c0) else ret c0) _ ?u] =>
        destruct (maybe_mutate_returns pop b c0 u) as (n0 & w0 & Hn0)
    end.
    rewrite (bind_eq _ _ _ _ _ Hn0).
    rewrite (bind_eq _ _ _ _ _ (store_eq next _ _ _ H2i)), bind_call.
    match goal with
    | |- context [bind (if ?b then call EvMutate (mutate pop c1) else ret c1) _ ?u] =>
        destruct (maybe_mutate_returns pop b c1 u) as (n1 & w1 & Hn1)
    end.
    rewrite (bind_eq _ _ _ _ _ Hn1).
    rewrite store_eq by apply H2i1.
    eexists _, _. split; [reflexivity |]. rewrite !length_insert. exact Hlen.
  - destruct (populated_lookup _ _ (2 * i) Hprev) as [a Ha]; [lia |].
    destruct (populated_lookup _ _ (2 * i + 1) Hprev) as [b Hb]; [lia |].
    rewrite (bind_eq _ _ _ _ _ (at_eq _ _ _ _ Ha)), bind_call.
    rewrite (bind_eq _ _ _ _ _ (store_eq next _ _ _ H2i)).
    rewrite (bind_eq _ _ _ _ _ (at_eq _ _ _ _ Hb)), bind_call.
    rewrite store_eq by apply H2i1.
    eexists _, _. split; [reflexivity |]. rewrite !length_insert. exact Hlen.
Qed.

Lemma breed_returns (o : @Options T R F) (pop : Populator T R)
    (sel : Selector T R) (prev : population) (w : W) :
  breedable o pop sel ->
  populated (population_size o) prev ->
  exists next w',
    breed uniform_real o pop prev w = Val next w' /\
    populated (population_size o) next.
Proof.
  intros Hw Hprev. unfold breed.
  pose proof (breedable_even _ _ _ Hw) as Heven.
  assert (Hhalf : (2 * (population_size o / 2) = population_size o)%nat).
  { pose proof (Nat.div_mod_eq (population_size o) 2). lia. }
  destruct (for_range_returns
              (fun (_ : nat) (next : population) (_ : W) =>
                 length next = population_size o)
              (breed_body uniform_real o pop prev) (population_size o / 2) 0
              (replicate (population_size o) None) w) as (next & w' & Hrun & Hlen).
  - apply length_replicate.
  - intros i next u Hi Hl.
    apply (breed_body_returns o pop sel); auto. lia.
  - exists next, w'. split; [exact Hrun |]. split; [exact Hlen |].
    apply breed_range in Hrun. destruct Hrun as (ps & _ & Hlps & _ & Hpairs & _).
    intros j Hj.
    destruct (lookup_lt_is_Some_2 ps (j / 2)) as [[a b] Hab].
    { rewrite Hlps. apply Nat.Div0.div_lt_upper_bound. lia. }
    destruct (Hpairs _ _ _ Hab) as [Ha Hb]. rewrite Nat.add_0_l in Ha, Hb.
    pose proof (Nat.div_mod_eq j 2) as Hj2.
    pose proof (Nat.mod_upper_bound j 2 ltac:(lia)) as Hm.
    destruct (decide (j mod 2 = 0)%nat) as [H0 | H1].
    + exists a. rewrite <- Ha. f_equal. lia.
    + exists b. rewrite <- Hb. f_equal. lia.
Qed.

Lemma max_element_returns (n : nat) (v : population) (w : W) :
  (0 < n)%nat -> populated n v ->
  exists k, max_element fitness v w = Val k w /\ (k < n)%nat.
Proof.
  intros Hn Hv. unfold max_element.
  destruct (for_range_returns
              (fun (i largest : nat) (u : W) => u = w /\ (largest < i)%nat)
              (max_element_body fitness v) (length v - 1) 1 0%nat w)
    as (k & w' & Hrun & -> & Hk).
  - split; [reflexivity | lia].
  - intros i largest u Hi [-> Hl]. destruct Hv as [Hlen Hv].
    destruct (Hv largest) as [a Ha]; [lia |].
    destruct (Hv i) as [b Hb]; [lia |].
    unfold max_element_body.
    rewrite (bind_eq _ _ _ _ _ (at_eq _ _ _ _ Ha)).
    rewrite (bind_eq _ _ _ _ _ (at_eq _ _ _ _ Hb)).
    eexists _, _. split; [reflexivity |]. split; [reflexivity |].
    case_match; lia.
  - exists k. split; [exact Hrun |]. destruct Hv as [Hlen _]. lia.
Qed.

Lemma assess_returns (pop : Populator T R) (n : nat) (next : population)
    (b : T) (w : W) :
  (0 < n)%nat -> populated n next ->
  exists b' increased w', assess fitness pop next b w = Val (b', increased) w'.
Proof.
  intros Hn Hnext. unfold assess.
  destruct (max_element_returns n next w Hn Hnext) as (k & Hk & Hlt).
  destruct (populated_lookup _ _ k Hnext Hlt) as [fittest Hf].
  rewrite (bind_eq _ _ _ _ _ Hk), (bind_eq _ _ _ _ _ (at_eq _ _ _ _ Hf)).
  destruct (gt (fitness fittest) (fitness b)).
  - rewrite bind_call. eexists _, _, _. reflexivity.
  - eexists _, _, _. reflexivity.
Qed.

Lemma populated_insert (n : nat) (v : population) (i : nat) (c : T) :
  populated n v -> populated n (<[i := Some c]> v).
Proof.
  intros [Hlen Hv]. split; [rewrite length_insert; exact Hlen |].
  intros j Hj. destruct (decide (j = i)) as [-> | Hne].
  - exists c. apply list_lookup_insert_eq. lia.
  - rewrite list_lookup_insert_ne by lia. apply Hv, Hj.
Qed.

Lemma kill_body_returns (o : @Options T R F) (pop : Populator T R) (d : Z)
    (threshold : F) (i : nat) (next : population) (w : W) :
  populated (population_size o) next -> (i < population_size o)%nat ->
  exists next' w',
    kill_body fitness o pop d threshold i next w = Val next' w' /\
    populated (population_size o) next'.
Proof.
  intros Hnext Hi. unfold kill_body.
  assert (Hlt : (i < length next)%nat) by (destruct Hnext as [-> _]; exact Hi).
  destruct (populated_lookup _ _ i Hnext Hi) as [c Hc].
  destruct (d >=? permissible_dead_rounds o).
  - rewrite bind_call, store_eq by exact Hlt.
    eexists _, _. split; [reflexivity |]. apply populated_insert, Hnext.
  - rewrite (bind_eq _ _ _ _ _ (at_eq _ _ _ _ Hc)).
    destruct (le (fitness c) threshold).
    + rewrite bind_call, store_eq by exact Hlt.
      eexists _, _. split; [reflexivity |]. apply populated_insert, Hnext.
    + eexists _, _. split; [reflexivity | exact Hnext].
Qed.

Lemma kill_returns (o : @Options T R F) (pop : Populator T R) (d : Z)
    (threshold : F) (next : population) (w : W) :
  populated (population_size o) next ->
  exists killed w',
    kill fitness o pop d threshold next w = Val killed w' /\
    populated (population_size o) killed.
Proof.
  intros Hnext. unfold kill.
  apply (for_range_returns
           (fun (_ : nat) (v : population) (_ : W) => populated (population_size o) v)).
  - exact Hnext.
  - intros i v u Hi Hv. apply kill_body_returns; [exact Hv | lia].
Qed.

Lemma generation_body_returns (o : @Options T R F) (pop : Populator T R)
    (sel : Selector T R) (st : Loop) (w : W) :
  workable std_shuffle o pop sel ->
  populated (population_size o) (prevGeneration st) ->
  exists r w',
    generation_body fitness uniform_real std_shuffle o pop st w = Val r w' /\
    match r with
    | Return _ => True
    | Continue st' => populated (population_size o) (prevGeneration st')
    end.
Proof.
  intros Hw Hprev. unfold generation_body.
  pose proof (breedable_positive _ _ _ (workable_breedable _ _ _ _ Hw)) as Hn.
  destruct (breed_returns o pop sel _ w (workable_breedable _ _ _ _ Hw) Hprev) as (next & w1 & Hbreed & Hnext).
  rewrite (bind_eq _ _ _ _ _ Hbreed).
  destruct (assess_returns pop _ next (best st) w1 Hn Hnext) as (b & inc & w2 & Hassess).
  rewrite (bind_eq _ _ _ _ _ Hassess).
  destruct (ge (fitness b) (fitness_success_threshold o)).
  { eexists _, _. split; [reflexivity | exact I]. }
  destruct (kill_returns o pop (count_dead_round inc (deadRounds st))
              (kill_threshold fitness o b) next w2 Hnext) as (killed & w3 & Hkill & Hkilled).
  rewrite (bind_eq _ _ _ _ _ Hkill).
  assert (exists d w4, euthanized o (count_dead_round inc (deadRounds st)) w3 = Val d w4)
    as (d & w4 & Hreset).
  { unfold euthanized. case_match; eexists _, _; reflexivity. }
  rewrite (bind_eq _ _ _ _ _ Hreset).
  assert (exists w5, report fitness o (generation st) b d w4 = Val tt w5) as (w5 & Hreport).
  { unfold report. pose proof (workable_output _ _ _ _ Hw) as Hout.
    destruct (Z.eqb_spec (output_rounds o) 0); [lia |].
    case_match; eexists; reflexivity. }
  rewrite (bind_eq _ _ _ _ _ Hreport), bind_call.
  eexists _, _. split; [reflexivity |]. simpl.
  apply (populated_permutation _ killed); [| exact Hkilled].
  apply (workable_shuffle _ _ _ _ Hw).
Qed.

Lemma generations_returns (o : @Options T R F) (pop : Populator T R)
    (sel : Selector T R) (remaining : nat) (st : Loop) (w : W) :
  workable std_shuffle o pop sel ->
  populated (population_size o) (prevGeneration st) ->
  exists e w',
    generations fitness uniform_real std_shuffle o pop remaining st w = Val e w'.
Proof.
  intros Hw. revert st w. induction remaining as [| remaining IH]; intros st w Hprev.
  - eexists _, _. reflexivity.
  - simpl. destruct (generation_body_returns o pop sel st w Hw Hprev)
      as ([b | st'] & w1 & Hbody & Hr); rewrite (bind_eq _ _ _ _ _ Hbody).
    + eexists _, _. reflexivity.
    + apply IH, Hr.
Qed.

Lemma init_body_returns (pop : Populator T R) (n i : nat)
    (st : population * nat) (w : W) :
  (i < n)%nat -> init_filled pop n i st ->
  exists st' w', init_body fitness pop i st w = Val st' w' /\ init_filled pop n (S i) st'.
Proof.
  destruct st as [prev max_init]. intros Hi (Hlen & Hfilled & Hmi). simpl in *.
  unfold init_body. rewrite bind_call.
  rewrite (bind_eq _ _ _ _ _ (store_eq prev i _ _ ltac:(lia))).
  set (c := (generate pop (source w)).1).
  assert (Hci : <[i := Some c]> prev !! i = Some (Some c))
    by (apply list_lookup_insert_eq; lia).
  assert (Hall : forall j, (j < S i)%nat ->
            exists r, <[i := Some c]> prev !! j = Some (Some (generate pop r).1)).
  { intros j Hj. destruct (decide (j = i)) as [-> | Hne].
    - exists (source w). exact Hci.
    - rewrite list_lookup_insert_ne by lia. apply Hfilled. lia. }
  destruct (Hall max_init) as [r Hcm]; [lia |].
  rewrite (bind_eq _ _ _ _ _ (at_eq _ _ _ _ Hci)).
  rewrite (bind_eq _ _ _ _ _ (at_eq _ _ _ _ Hcm)).
  eexists _, _. split; [reflexivity |].
  split; [| split]; simpl.
  - rewrite length_insert. exact Hlen.
  - exact Hall.
  - case_match; lia.
Qed.

Lemma initialize_returns (o : @Options T R F) (pop : Populator T R) (w : W) :
  (0 < population_size o)%nat ->
  exists st w' r,
    initialize fitness o pop w = Val st w' /\
    populated (population_size o) (prevGeneration st) /\
    generation st = 0 /\
    exists r', best st = (survive pop (generate pop r).1 r').1.
Proof.
  intros Hn. unfold initialize. unfold emit at 1.
  erewrite bind_eq by reflexivity.
  destruct (for_range_returns
              (fun (i : nat) (st : population * nat) (_ : W) =>
                 init_filled pop (population_size o) i st)
              (init_body fitness pop) (population_size o) 0
              (replicate (population_size o) None, 0%nat)
              {| source := source w; events := events w ++ [EvClock] |})
    as ([prev max_init] & w1 & Hrun & Hlen & Hfilled & Hmi).
  - split; [apply length_replicate | split; [intros j Hj; lia | simpl; lia]].
  - intros i s u Hi Hinv. apply init_body_returns; [lia | exact Hinv].
  - simpl in *. rewrite (bind_eq _ _ _ _ _ Hrun).
    destruct (Hfilled max_init) as [r Hc]; [lia |].
    rewrite (bind_eq _ _ _ _ _ (at_eq _ _ _ _ Hc)), bind_call.
    eexists _, _, r. split; [reflexivity |]. simpl.
    split; [| split; [reflexivity | eexists; reflexivity]].
    split; [exact Hlen |]. intros j Hj.
    destruct (Hfilled j Hj) as [r' Hr']. eexists. exact Hr'.
Qed.

(** *** The whole run *)

Lemma bests_last (o : @Options T R F) (pop : Populator T R) (remaining : nat)
    (st : Loop) (w : W) (e : Exit) (w' : W) :
  generations fitness uniform_real std_shuffle o pop remaining st w = Val e w' ->
  last (bests fitness uniform_real std_shuffle o pop remaining st w)
  = Some (exit_best e).
Proof.
  revert st w. induction remaining as [| remaining IH]; intros st w Hrun.
  - simpl in Hrun. inv_step Hrun. reflexivity.
  - simpl in Hrun. apply bind_val in Hrun. destruct Hrun as (r & w1 & Hbody & Hrun).
    simpl. rewrite Hbody. destruct r as [b | st'].
    + inv_step Hrun. reflexivity.
    + apply IH in Hrun. rewrite <- Hrun.
      destruct remaining; reflexivity.
Qed.

Lemma ga_run_returns (o : @Options T R F) (pop : Populator T R) (sel : Selector T R)
    (w : W) :
  workable std_shuffle o pop sel ->
  exists st0 w0 e w',
    initialize fitness o pop w = Val st0 w0 /\
    generations fitness uniform_real std_shuffle o pop (Z.to_nat (loop_bound o)) st0 w0
      = Val e w' /\
    run fitness uniform_real std_shuffle o w = Val (Some (exit_best e)) w'.
Proof.
  intros Hw. pose proof (workable_breedable _ _ _ _ Hw) as Hb.
  destruct (initialize_returns o pop w (breedable_positive _ _ _ Hb))
    as (st0 & w0 & r & Hinit & Hpop & _).
  destruct (generations_returns o pop sel (Z.to_nat (loop_bound o)) st0 w0 Hw Hpop)
    as (e & w' & Hrun).
  exists st0, w0, e, w'. split; [exact Hinit | split; [exact Hrun |]].
  unfold run. rewrite (breedable_populator _ _ _ Hb).
  rewrite (breedable_even _ _ _ Hb). simpl.
  rewrite (bind_eq _ _ _ _ _ Hinit), (bind_eq _ _ _ _ _ Hrun). reflexivity.
Qed.

(** *** The fittest of a generation *)

Lemma assess_fittest (HF : StrictWeakOrder F) (pop : Populator T R)
    (next : population) (b : T) (w : W) (b' : T) (increased : bool) (w' : W) :
  assess fitness pop next b w = Val (b', increased) w' ->
  exists k fittest,
    lowest_fittest fitness next k /\
    next !! k = Some (Some fittest) /\
    b' = if gt (fitness fittest) (fitness b)
         then (survive pop fittest (source w)).1 else b.
Proof.
  intros Hassess. apply assess_val in Hassess.
  destruct Hassess as (k & fittest & Hk & Hf & Hinc & Hb).
  apply (max_element_first_max HF) in Hk. destruct Hk as (_ & _ & Hmax).
  exists k, fittest. split; [exact (first_max_lowest next k fittest Hmax Hf) |].
  split; [exact Hf |]. unfold gt. rewrite <- Hinc.
  destruct increased; exact (proj1 Hb).
Qed.

(** C6. In the assessment of every generation of the loop of [run], the
    candidate that the engine binds to [fittest] is at the lowest index of
    a candidate of maximal fitness of the generation just bred, and [best]
    after the generation is the [survive] copy of that candidate when it
    is strictly fitter than [best], and [best] otherwise; the initial
    [best] is the [survive] copy of the candidate at [max_init], the
    lowest index of a candidate of maximal fitness of the initial
    population.  With a workable configuration the initial population and
    every generation reached from it return, so that these candidates
    exist. *)
Theorem fittest_is_lowest_index_of_maximum :
  StrictWeakOrder F ->
  (forall (pop : Populator T R) (next : population) (b : T) (w : W)
          (b' : T) (increased : bool) (w' : W),
     assess fitness pop next b w = Val (b', increased) w' ->
     exists k fittest,
       lowest_fittest fitness next k /\
       next !! k = Some (Some fittest) /\
       b' = if gt (fitness fittest) (fitness b)
            then (survive pop fittest (source w)).1 else b) /\
  (forall (o : @Options T R F) (pop : Populator T R) (st : Loop) (w : W)
          (r : Step) (w' : W),
     generation_body fitness uniform_real std_shuffle o pop st w = Val r w' ->
     exists next w1 k fittest,
       breed uniform_real o pop (prevGeneration st) w = Val next w1 /\
       lowest_fittest fitness next k /\
       next !! k = Some (Some fittest) /\
       step_best r = if gt (fitness fittest) (fitness (best st))
                     then (survive pop fittest (source w1)).1 else best st) /\
  (forall (o : @Options T R F) (pop : Populator T R) (w : W) (st : Loop) (w' : W),
     initialize fitness o pop w = Val st w' ->
     exists max_init c w1,
       for_range 0 (population_size o) (init_body fitness pop)
         (replicate (population_size o) None, 0%nat)
         {| source := source w; events := events w ++ [EvClock] |}
       = Val (prevGeneration st, max_init) w1 /\
       lowest_fittest fitness (prevGeneration st) max_init /\
       prevGeneration st !! max_init = Some (Some c) /\
       best st = (survive pop c (source w1)).1) /\
  (forall (o : @Options T R F) (pop : Populator T R) (sel : Selector T R) (w : W),
     workable std_shuffle o pop sel ->
     exists st w',
       initialize fitness o pop w = Val st w' /\
       forall st1 w1,
         reached fitness uniform_real std_shuffle o pop w st1 w1 ->
         exists r w2,
           generation_body fitness uniform_real std_shuffle o pop st1 w1 = Val r w2).
Proof.
  intros HF. split; [exact (assess_fittest HF) | split; [| split]].
  - intros o pop st w r w' Hbody. destruct r as [b | st'].
    + apply generation_body_return in Hbody.
      destruct Hbody as (next & w1 & inc & w2 & Hbreed & Hassess & _).
      destruct (assess_fittest HF pop next (best st) w1 b inc w2 Hassess)
        as (k & fittest & Hlow & Hk & Hb).
      exists next, w1, k, fittest. auto.
    + apply generation_body_continue in Hbody.
      destruct Hbody as (next & w1 & inc & w2 & killed & w3 & w4 & w5 &
                         Hbreed & Hassess & _).
      destruct (assess_fittest HF pop next (best st) w1 (best st') inc w2 Hassess)
        as (k & fittest & Hlow & Hk & Hb).
      exists next, w1, k, fittest. auto.
  - intros o pop w st w' Hinit. apply initialize_val in Hinit.
    destruct Hinit as (_ & _ & max_init & c & w1 & Hloop & Hc & Hbest).
    exists max_init, c, w1. split; [exact Hloop |].
    split; [| split; [exact Hc | exact Hbest]].
    apply (init_loop_inv HF) in Hloop. destruct Hloop as (Hlen & _ & _ & Hmax).
    simpl in *. apply (first_max_lowest _ _ c); [rewrite Hlen; exact Hmax | exact Hc].
  - intros o pop sel w Hw.
    destruct (initialize_returns o pop w
                (breedable_positive _ _ _ (workable_breedable _ _ _ _ Hw)))
      as (st & w' & r & Hinit & Hpop & _).
    exists st, w'. split; [exact Hinit |]. intros st1 w1 Hreached.
    assert (Hpop1 : populated (population_size o) (prevGeneration st1)).
    { induction Hreached as [st1 w1 Hinit1 | st1 w1 st2 w2 _ IH Hbody].
      - rewrite Hinit in Hinit1. injection Hinit1 as <- <-. exact Hpop.
      - destruct (generation_body_returns o pop sel st1 w1 Hw IH)
          as (res & u & Hbody1 & Hres).
        rewrite Hbody in Hbody1. injection Hbody1 as <- <-. exact Hres. }
    destruct (generation_body_returns o pop sel st1 w1 Hw Hpop1) as (res & u & Hb & _).
    exists res, u. exact Hb.
Qed.

(** *** The generations that a run goes through *)

Lemma generations_run_app (l l' : list (Event F)) :
  generations_run (l ++ l') = (generations_run l + generations_run l')%nat.
Proof. unfold generations_run. rewrite List.filter_app, length_app. reflexivity. Qed.

Lemma quiet_ret {A} (a : A) : quiet (ret a : M W A).
Proof. intros w a' w' H. unfold ret in H. injection H as <- <-. reflexivity. Qed.

Lemma quiet_undefined {A} : quiet (undefined : M W A).
Proof. intros w a w' H. discriminate H. Qed.

Lemma quiet_bind {A B} (c : M W A) (k : A -> M W B) :
  quiet c -> (forall a, quiet (k a)) -> quiet (bind c k).
Proof.
  intros Hc Hk w b w' H. apply bind_val in H. destruct H as (a & w1 & H1 & H2).
  rewrite (Hk a w1 b w' H2). exact (Hc w a w1 H1).
Qed.

Lemma quiet_call {A} (e : Event F) (f : R -> A * R) :
  ends_generation e = false -> quiet (call e f).
Proof.
  intros He w a w' H. rewrite call_eq in H. injection H as <- <-. simpl.
  rewrite generations_run_app. unfold generations_run at 2. simpl. rewrite He.
  simpl. lia.
Qed.

Lemma quiet_emit (e : Event F) :
  ends_generation e = false -> quiet (emit e : M W unit).
Proof.
  intros He w a w' H. unfold emit in H. injection H as _ <-. simpl.
  rewrite generations_run_app. unfold generations_run at 2. simpl. rewrite He.
  simpl. lia.
Qed.

Lemma quiet_at (v : population) (i : nat) : quiet (at_ v i : M W T).
Proof. intros w a w' H. apply at_val in H. destruct H as [_ ->]. reflexivity. Qed.

Lemma quiet_store (v : population) (i : nat) (c : option T) :
  quiet (store v i c : M W population).
Proof.
  intros w a w' H. apply store_val in H. destruct H as (_ & _ & ->). reflexivity.
Qed.

Lemma quiet_deref {A} (p : option A) : quiet (deref p : M W A).
Proof. destruct p; [apply quiet_ret | apply quiet_undefined]. Qed.

Lemma quiet_for_range {St} (body : nat -> St -> M W St) (count first : nat) (st : St) :
  (forall i s, quiet (body i s)) -> quiet (for_range first count body st).
Proof.
  intros Hbody. revert first st. induction count as [| count IH]; intros first st.
  - apply quiet_ret.
  - simpl. apply quiet_bind; [apply Hbody | intros s; apply IH].
Qed.

Ltac quiet_step :=
  lazymatch goal with
  | |- quiet (bind _ _) => apply quiet_bind; [| intros ?]
  | |- quiet (ret _) => apply quiet_ret
  | |- quiet (call _ _) => apply quiet_call; reflexivity
  | |- quiet (emit _) => apply quiet_emit; reflexivity
  | |- quiet (at_ _ _) => apply quiet_at
  | |- quiet (store _ _ _) => apply quiet_store
  | |- quiet (deref _) => apply quiet_deref
  | |- quiet undefined => apply quiet_undefined
  | |- quiet (if ?b then _ else _) => destruct b
  | |- quiet (match ?x with _ => _ end) => destruct x
  end.

Lemma quiet_breed (o : @Options T R F) (pop : Populator T R) (prev : population) :
  quiet (breed uniform_real o pop prev).
Proof.
  unfold breed. apply quiet_for_range. intros i next. unfold breed_body.
  repeat quiet_step.
Qed.

Lemma quiet_assess (pop : Populator T R) (next : population) (b : T) :
  quiet (assess fitness pop next b).
Proof.
  unfold assess, max_element. apply quiet_bind.
  - apply quiet_for_range. intros i k. unfold max_element_body. repeat quiet_step.
  - intros k. repeat quiet_step.
Qed.

Lemma quiet_kill (o : @Options T R F) (pop : Populator T R) (d : Z) (threshold : F)
    (next : population) :
  quiet (kill fitness o pop d threshold next).
Proof.
  unfold kill. apply quiet_for_range. intros i v. unfold kill_body.
  repeat quiet_step.
Qed.

Lemma quiet_euthanized (o : @Options T R F) (d : Z) : quiet (euthanized o d).
Proof. unfold euthanized. repeat quiet_step. Qed.

Lemma quiet_report (o : @Options T R F) (g : Z) (b : T) (d : Z) :
  quiet (report fitness o g b d).
Proof. unfold report. repeat quiet_step. Qed.

Lemma quiet_initialize (o : @Options T R F) (pop : Populator T R) :
  quiet (initialize fitness o pop).
Proof.
  unfold initialize. apply quiet_bind; [apply quiet_emit; reflexivity | intros _].
  apply quiet_bind.
  - apply quiet_for_range. intros i [v k]. unfold init_body. repeat quiet_step.
  - intros [v k]. repeat quiet_step.
Qed.

(** A generation that goes on ends in the shuffle, and nothing before
    it in the generation ends one. *)
Lemma generation_continue_counted (o : @Options T R F) (pop : Populator T R)
    (st : Loop) (w : W) (st' : Loop) (w' : W) :
  generation_body fitness uniform_real std_shuffle o pop st w = Val (Continue st') w' ->
  generations_run (events w') = S (generations_run (events w)).
Proof.
  intros Hbody. apply generation_body_continue in Hbody.
  destruct Hbody as (next & w1 & inc & w2 & killed & w3 & w4 & w5 &
                     Hbreed & Hassess & _ & Hkill & Heu & Hrep & Hsh & _).
  rewrite call_eq in Hsh. injection Hsh as _ <-. simpl.
  rewrite generations_run_app.
  rewrite (quiet_report _ _ _ _ _ _ _ Hrep), (quiet_euthanized _ _ _ _ _ Heu),
    (quiet_kill _ _ _ _ _ _ _ _ Hkill), (quiet_assess _ _ _ _ _ _ Hassess),
    (quiet_breed _ _ _ _ _ _ Hbreed).
  unfold generations_run at 2. simpl. lia.
Qed.

(** A generation that solves ends in the message of line 145. *)
Lemma generation_return_counted (o : @Options T R F) (pop : Populator T R)
    (st : Loop) (w : W) (b : T) (w' : W) :
  generation_body fitness uniform_real std_shuffle o pop st w = Val (Return b) w' ->
  generations_run (events w') = S (generations_run (events w)) /\
  last (events w') = Some (EvPrint (SolvedAtGeneration (generation st))) /\
  ge (fitness b) (fitness_success_threshold o) = true.
Proof.
  unfold generation_body. intros H.
  apply bind_val in H. destruct H as (next & w1 & Hbreed & H).
  apply bind_val in H. destruct H as ([b' increased] & w2 & Hassess & H).
  destruct (ge (fitness b') (fitness_success_threshold o)) eqn:Hge.
  - apply bind_val in H. destruct H as ([] & w3 & Hemit & H).
    unfold ret in H. injection H as <- <-.
    unfold emit in Hemit. injection Hemit as <-. simpl.
    rewrite generations_run_app, last_snoc.
    rewrite (quiet_assess _ _ _ _ _ _ Hassess), (quiet_breed _ _ _ _ _ _ Hbreed).
    split; [unfold generations_run at 2; simpl; lia | split; [reflexivity | exact Hge]].
  - apply bind_val in H. destruct H as (killed & w3 & Hkill & H).
    apply bind_val in H. destruct H as (d & w4 & Hreset & H).
    apply bind_val in H. destruct H as ([] & w5 & Hreport & H).
    apply bind_val in H. destruct H as (shuffled & w6 & Hshuffle & H).
    discriminate H.
Qed.

Lemma generations_bred (o : @Options T R F) (pop : Populator T R)
    (remaining : nat) (st : Loop) (w : W) (e : Exit) (w' : W) :
  0 <= generation st ->
  generation st + Z.of_nat remaining < 2 ^ 64 ->
  generations fitness uniform_real std_shuffle o pop remaining st w = Val e w' ->
  match e with
  | Exhausted _ _ =>
      generations_run (events w') = (generations_run (events w) + remaining)%nat
  | Solved _ b =>
      exists j, (j < remaining)%nat /\
        generations_run (events w') = (generations_run (events w) + j + 1)%nat /\
        last (events w')
        = Some (EvPrint (SolvedAtGeneration (generation st + Z.of_nat j))) /\
        ge (fitness b) (fitness_success_threshold o) = true
  end.
Proof.
  revert st w. induction remaining as [| remaining IH]; intros st w Hg Hbound Hrun.
  - simpl in Hrun. inv_step Hrun. lia.
  - simpl in Hrun. apply bind_val in Hrun. destruct Hrun as (r & w1 & Hbody & Hrun).
    destruct r as [b | st'].
    + inv_step Hrun. apply generation_return_counted in Hbody.
      destruct Hbody as (Hcount & Hlast & Hge).
      exists 0%nat. rewrite Z.add_0_r. split; [lia | split; [lia | split; assumption]].
    + pose proof (generation_continue_counted _ _ _ _ _ _ Hbody) as Hcount.
      apply generation_body_continue in Hbody.
      destruct Hbody as (next & u1 & inc & u2 & killed & u3 & u4 & u5 &
                         _ & _ & _ & _ & _ & _ & _ & Hgen).
      assert (generation st' = generation st + 1) as Hnext.
      { rewrite Hgen. unfold wrap64. apply Z.mod_small. lia. }
      apply IH in Hrun; [| lia | lia].
      destruct e as [g b | g b].
      * destruct Hrun as (j & Hj & Hc & Hlast & Hge).
        exists (S j). split; [lia | split; [lia | split; [| exact Hge]]].
        rewrite Hlast, Hnext. do 3 f_equal. lia.
      * lia.
Qed.

(** C9. The event log counts the breeding generations: the initial
    population adds none, and every generation of the loop of [run] adds
    exactly one.  The number of breeding generations that [run] goes
    through is [max_generations - 1] computed modulo [2^64] when the budget
    is exhausted, and [g + 1] with [g] below that bound when generation [g]
    solves.  With [max_generations = 0] this bound is [2^64 - 1]: [run]
    does not stop after the initial population but goes through at least
    one breeding generation, and through [2^64 - 1] of them when the
    candidate that it returns is below the threshold. *)
Theorem generation_budget_wraps (o : @Options T R F) (pop : Populator T R) :
  (forall (w : W) (st0 : Loop) (w0 : W),
     initialize fitness o pop w = Val st0 w0 ->
     generations_run (events w0) = generations_run (events w)) /\
  (forall (st : Loop) (w : W) (r : Step) (w' : W),
     generation_body fitness uniform_real std_shuffle o pop st w = Val r w' ->
     generations_run (events w') = S (generations_run (events w))) /\
  (forall (sel : Selector T R) (w : W),
     workable std_shuffle o pop sel ->
     exists b w',
       run fitness uniform_real std_shuffle o w = Val (Some b) w' /\
       let bred := (generations_run (events w') - generations_run (events w))%nat in
       (Z.of_nat bred = (max_generations o - 1) mod 2 ^ 64 \/
        exists g, 0 <= g < (max_generations o - 1) mod 2 ^ 64 /\
                  Z.of_nat bred = g + 1 /\
                  last (events w') = Some (EvPrint (SolvedAtGeneration g)) /\
                  ge (fitness b) (fitness_success_threshold o) = true) /\
       (ge (fitness b) (fitness_success_threshold o) = false ->
        Z.of_nat bred = (max_generations o - 1) mod 2 ^ 64) /\
       (max_generations o = 0 ->
        (1 <= bred)%nat /\
        (ge (fitness b) (fitness_success_threshold o) = false ->
         Z.of_nat bred = 2 ^ 64 - 1))).
Proof.
  split; [exact (quiet_initialize o pop) | split].
  { intros st w r w' Hbody. destruct r as [b | st'].
    - exact (proj1 (generation_return_counted _ _ _ _ _ _ Hbody)).
    - exact (generation_continue_counted _ _ _ _ _ _ Hbody). }
  intros sel w Hw.
  destruct (ga_run_returns o pop sel w Hw) as (st0 & w0 & e & w' & Hinit & Hrun & Hres).
  exists (exit_best e), w'. split; [exact Hres |].
  pose proof (quiet_initialize o pop w st0 w0 Hinit) as Hq.
  destruct (initialize_val o pop w st0 w0 Hinit) as (Hg0 & _).
  pose proof (loop_bound_range o) as Hb.
  apply generations_bred in Hrun; [| lia | rewrite Hg0, Z2Nat.id by lia; lia].
  unfold loop_bound, wrap64 in *.
  set (bound := (max_generations o - 1) mod 2 ^ 64) in *.
  assert (Hcases :
            let bred := (generations_run (events w') - generations_run (events w))%nat in
            (Z.of_nat bred = bound \/
             exists g, 0 <= g < bound /\ Z.of_nat bred = g + 1 /\
                       last (events w') = Some (EvPrint (SolvedAtGeneration g)) /\
                       ge (fitness (exit_best e)) (fitness_success_threshold o) = true)).
  { intros bred. unfold bred. destruct e as [g b | g b].
    - right. destruct Hrun as (j & Hj & Hc & Hlast & Hge).
      exists (Z.of_nat j). rewrite Hg0 in Hlast. simpl in Hlast.
      split; [lia | split; [lia | split; [exact Hlast | exact Hge]]].
    - left. lia. }
  simpl in Hcases. split; [exact Hcases | split].
  - intros Hlow. destruct Hcases as [Hex | (g & _ & _ & _ & Hge)];
      [exact Hex | congruence].
  - intros Hzero.
    assert (Hbound : bound = 2 ^ 64 - 1) by (unfold bound; rewrite Hzero; reflexivity).
    split.
    + destruct Hcases as [Hex | (g & Hg & Hbred & _)]; lia.
    + intros Hlow. destruct Hcases as [Hex | (g & _ & _ & _ & Hge)];
        [lia | congruence].
Qed.

(** *** What [best] dominates *)

Lemma assess_dominates (HF : StrictWeakOrder F) (pop : Populator T R)
    (Hs : survive_copies fitness pop) (next : population) (b : T) (w : W)
    (b' : T) (increased : bool) (w' : W) :
  assess fitness pop next b w = Val (b', increased) w' ->
  lt (fitness b') (fitness b) = false /\
  forall c, c ∈ candidates next -> lt (fitness b') (fitness c) = false.
Proof.
  intros Hassess.
  split; [exact (assess_no_worse HF pop Hs _ _ _ _ _ _ Hassess) |].
  pose proof (assess_flag HF pop Hs _ _ _ _ _ _ Hassess) as Hflag.
  apply assess_val in Hassess.
  destruct Hassess as (k & fittest & Hk & Hf & Hinc & Hb).
  apply (max_element_first_max HF) in Hk. destruct Hk as (_ & _ & Hmax).
  intros c Hc. unfold candidates in Hc. apply list_elem_of_omap in Hc.
  destruct Hc as (x & Hx & Hid). simpl in Hid. subst x.
  apply list_elem_of_lookup in Hx. destruct Hx as [j Hj].
  assert (Hfj : lt (fitness fittest) (fitness c) = false).
  { apply (Hmax j c fittest); [exact (lookup_lt_Some _ _ _ Hj) | exact Hj | exact Hf]. }
  destruct increased.
  - destruct Hb as [-> _]. rewrite Hs. exact Hfj.
  - destruct Hb as [-> _]. symmetry in Hinc.
    exact (ge_trans F HF _ _ _ Hinc Hfj).
Qed.

Lemma generations_dominate (HF : StrictWeakOrder F) (o : @Options T R F)
    (pop : Populator T R) (Hs : survive_copies fitness pop) (remaining : nat)
    (st : Loop) (w : W) (e : Exit) (w' : W) :
  generations fitness uniform_real std_shuffle o pop remaining st w = Val e w' ->
  lt (fitness (exit_best e)) (fitness (best st)) = false /\
  forall c, c ∈ assessed fitness uniform_real std_shuffle o pop remaining st w ->
    lt (fitness (exit_best e)) (fitness c) = false.
Proof.
  revert st w. induction remaining as [| remaining IH]; intros st w Hrun.
  - simpl in Hrun. inv_step Hrun. simpl.
    split; [apply (lt_irrefl F HF) | intros c Hc; inversion Hc].
  - simpl in Hrun. apply bind_val in Hrun. destruct Hrun as (r & w1 & Hbody & Hrun).
    simpl. destruct r as [b | st'].
    + inv_step Hrun. simpl. rewrite Hbody.
      apply generation_body_return in Hbody.
      destruct Hbody as (next & u1 & inc & u2 & Hbreed & Hassess & _).
      rewrite Hbreed. rewrite app_nil_r.
      exact (assess_dominates HF pop Hs _ _ _ _ _ _ Hassess).
    + rewrite Hbody. pose proof Hbody as Hphases.
      apply generation_body_continue in Hphases.
      destruct Hphases as (next & u1 & inc & u2 & killed & u3 & u4 & u5 &
                           Hbreed & Hassess & _).
      rewrite Hbreed.
      destruct (assess_dominates HF pop Hs _ _ _ _ _ _ Hassess) as [Hold Hnext].
      destruct (IH st' w1 Hrun) as [Hbest Hrest].
      split; [exact (ge_trans F HF _ _ _ Hbest Hold) |].
      intros c Hc. apply elem_of_app in Hc. destruct Hc as [Hc | Hc].
      * exact (ge_trans F HF _ _ _ Hbest (Hnext c Hc)).
      * exact (Hrest c Hc).
Qed.

Lemma run_dominates (HF : StrictWeakOrder F) (o : @Options T R F)
    (pop : Populator T R) (Hs : survive_copies fitness pop) (w : W)
    (st0 : Loop) (w0 : W) (e : Exit) (w' : W) :
  initialize fitness o pop w = Val st0 w0 ->
  generations fitness uniform_real std_shuffle o pop (Z.to_nat (loop_bound o)) st0 w0
    = Val e w' ->
  forall c, c ∈ run_assessed fitness uniform_real std_shuffle o pop w ->
    lt (fitness (exit_best e)) (fitness c) = false.
Proof.
  intros Hinit Hrun c Hc. unfold run_assessed in Hc. rewrite Hinit in Hc.
  destruct (generations_dominate HF o pop Hs _ _ _ _ _ Hrun) as [Hbest Hrest].
  apply elem_of_app in Hc. destruct Hc as [Hc | Hc]; [| exact (Hrest c Hc)].
  apply initialize_val in Hinit.
  destruct Hinit as (_ & _ & max_init & ck & w1 & Hloop & Hck & Hb).
  apply (init_loop_inv HF) in Hloop. destruct Hloop as (Hlen & _ & _ & Hmax).
  simpl in *.
  unfold candidates in Hc. apply list_elem_of_omap in Hc.
  destruct Hc as (x & Hx & Hid). simpl in Hid. subst x.
  apply list_elem_of_lookup in Hx. destruct Hx as [j Hj].
  assert (Hkj : lt (fitness ck) (fitness c) = false).
  { rewrite <- Hlen in Hmax.
    apply (Hmax j c ck); [exact (lookup_lt_Some _ _ _ Hj) | exact Hj | exact Hck]. }
  assert (Hb0 : lt (fitness (best st0)) (fitness c) = false)
    by (rewrite Hb, Hs; exact Hkj).
  exact (ge_trans F HF _ _ _ Hbest Hb0).
Qed.

Lemma ga_run_solves_at_once (o : @Options T R F) (pop : Populator T R)
    (sel : Selector T R) (w : W) :
  StrictWeakOrder F ->
  breedable o pop sel ->
  survive_copies fitness pop ->
  0 <= max_generations o < 2 ^ 64 ->
  max_generations o <> 1 ->
  (forall r, ge (fitness (generate pop r).1) (fitness_success_threshold o) = true) ->
  exists st0 w0 b w',
    initialize fitness o pop w = Val st0 w0 /\
    generations fitness uniform_real std_shuffle o pop (Z.to_nat (loop_bound o)) st0 w0
      = Val (Solved 0 b) w' /\
    run fitness uniform_real std_shuffle o w = Val (Some b) w' /\
    ge (fitness b) (fitness_success_threshold o) = true.
Proof.
  intros HF Hb Hs Hrange Hmg Hgen.
  pose proof (breedable_positive _ _ _ Hb) as Hn.
  destruct (initialize_returns o pop w Hn)
    as (st0 & w0 & r & Hinit & Hpop & Hg0 & r' & Hbest).
  assert (Hfit : lt (fitness (best st0)) (fitness_success_threshold o) = false).
  { rewrite Hbest, Hs. specialize (Hgen r). unfold ge in Hgen.
    destruct (lt _ _); [discriminate | reflexivity]. }
  assert (exists k, Z.to_nat (loop_bound o) = S k) as [k Hk].
  { exists (Z.to_nat (loop_bound o) - 1)%nat.
    assert (0 < loop_bound o); [| lia].
    unfold loop_bound, wrap64.
    destruct (Z.eq_dec (max_generations o) 0) as [-> | Hne]; [reflexivity |].
    rewrite Z.mod_small; lia. }
  destruct (breed_returns o pop sel _ w0 Hb Hpop) as (next & w1 & Hbreed & Hnext).
  destruct (assess_returns pop _ next (best st0) w1 Hn Hnext)
    as (b & inc & w2 & Hassess).
  pose proof (assess_no_worse HF pop Hs _ _ _ _ _ _ Hassess) as Hstep.
  assert (Hge : ge (fitness b) (fitness_success_threshold o) = true).
  { unfold ge. rewrite (ge_trans F HF _ _ _ Hstep Hfit). reflexivity. }
  assert (exists w', generation_body fitness uniform_real std_shuffle o pop st0 w0
                     = Val (Return b) w') as [w' Hbody].
  { unfold generation_body.
    rewrite (bind_eq _ _ _ _ _ Hbreed), (bind_eq _ _ _ _ _ Hassess), Hge.
    eexists. reflexivity. }
  assert (Hrun : generations fitness uniform_real std_shuffle o pop
                   (Z.to_nat (loop_bound o)) st0 w0 = Val (Solved 0 b) w').
  { rewrite Hk. simpl. rewrite (bind_eq _ _ _ _ _ Hbody). rewrite Hg0. reflexivity. }
  exists st0, w0, b, w'. split; [exact Hinit | split; [exact Hrun | split; [| exact Hge]]].
  unfold run. rewrite (breedable_populator _ _ _ Hb).
  rewrite (breedable_even _ _ _ Hb). simpl.
  rewrite (bind_eq _ _ _ _ _ Hinit), (bind_eq _ _ _ _ _ Hrun). reflexivity.
Qed.

End GeneticProperties.

(** ** The hill-climbing engine *)

Section HillClimbingProperties.

Context {T R : Type} {F : Arithmetic}.
Variable fitness : T -> F.

Import HillClimbingAlgorithm.

Local Abbreviation W := (World R F).

Lemma no_worse_refl (HF : StrictWeakOrder F) (b : option T) : no_worse fitness b b.
Proof. destruct b; simpl; [apply (lt_irrefl F HF) | exact I]. Qed.

Lemma no_worse_trans (HF : StrictWeakOrder F) (a b c : option T) :
  no_worse fitness a b -> no_worse fitness b c -> no_worse fitness a c.
Proof.
  destruct a as [x |], b as [y |], c as [z |]; simpl; try tauto.
  intros Hxy Hyz. exact (ge_trans F HF _ _ _ Hyz Hxy).
Qed.

(** *** One iteration *)

Lemma iteration_body_returns (o : Options T R F) (pop : HillClimbingPopulator T R)
    (pol : Policy T R F) (cur : T) (best : option T) (state : State pol) (w : W) :
  exists r w', iteration_body fitness o pop pol cur best state w = Val r w'.
Proof.
  unfold iteration_body. rewrite (bind_eq _ _ _ _ _ (call_eq _ _ _)).
  rewrite (bind_eq _ _ _ _ _ (call_eq _ _ _)).
  destruct (accept pol _ cur o state _).1 as [a state'].
  destruct (ge _ _); [eexists _, _; reflexivity |].
  destruct (improves _ _ _); eexists _, _; reflexivity.
Qed.

Lemma iteration_body_continue (HF : StrictWeakOrder F) (o : Options T R F)
    (pop : HillClimbingPopulator T R) (pol : Policy T R F) (cur : T)
    (best : option T) (state : State pol) (w : W)
    (cur' : T) (best' : option T) (state' : State pol) (w' : W) :
  iteration_body fitness o pop pol cur best state w
    = Val (Continue cur' best' state') w' ->
  no_worse fitness best best' /\
  (best' = Some cur' /\ improves fitness best cur' = true \/
   best' = best /\ improves fitness best cur' = false) /\
  is_Some best'.
Proof.
  unfold iteration_body. intros H.
  rewrite (bind_eq _ _ _ _ _ (call_eq _ _ _)) in H.
  rewrite (bind_eq _ _ _ _ _ (call_eq _ _ _)) in H.
  destruct (accept pol _ cur o state _).1 as [a state''].
  destruct (ge _ _); [inv_step H |].
  destruct (improves fitness best _) eqn:Himp.
  - inv_step H.
    split; [| split; [left; split; [reflexivity | exact Himp] | eexists; reflexivity]].
    destruct best as [b |]; simpl in *; [| exact I]. exact (lt_asym HF _ _ Himp).
  - inv_step H.
    split; [apply (no_worse_refl HF) |].
    split; [right; split; [reflexivity | exact Himp] |].
    destruct best; [eexists; reflexivity | discriminate].
Qed.

(** *** The running best *)

Lemma sorted_last (HF : StrictWeakOrder F) (l : list (option T)) (x y : option T) :
  StronglySorted (no_worse fitness) l -> x ∈ l -> last l = Some y ->
  no_worse fitness x y.
Proof.
  intros Hs Hx Hl. apply last_Some in Hl. destruct Hl as [l' ->].
  apply elem_of_app in Hx. destruct Hx as [Hx | Hx].
  - apply (StronglySorted_app_1_elem_of _ _ _ _ _ Hs Hx). apply list_elem_of_singleton.
    reflexivity.
  - apply list_elem_of_singleton in Hx. subst x. apply (no_worse_refl HF).
Qed.

Lemma sorted_cons_chain (HF : StrictWeakOrder F) (a b : option T)
    (l : list (option T)) :
  no_worse fitness a b -> StronglySorted (no_worse fitness) (b :: l) ->
  StronglySorted (no_worse fitness) (a :: b :: l).
Proof.
  intros Hab Hs. constructor; [exact Hs |]. constructor; [exact Hab |].
  apply StronglySorted_inv in Hs. destruct Hs as [_ Hall].
  eapply Forall_impl; [exact Hall |]. intros c Hbc. exact (no_worse_trans HF _ _ _ Hab Hbc).
Qed.

Lemma iteration_bests_sorted (HF : StrictWeakOrder F) (o : Options T R F)
    (pop : HillClimbingPopulator T R) (pol : Policy T R F) (remaining : nat)
    (cur : T) (best : option T) (state : State pol) (w : W) :
  StronglySorted (no_worse fitness)
    (best :: iteration_bests fitness o pop pol remaining cur best state w).
Proof.
  revert cur best state w. induction remaining as [| remaining IH];
    intros cur best state w; simpl.
  - repeat constructor.
  - destruct (iteration_body fitness o pop pol cur best state w)
      as [[c | cur' best' state'] w' | |] eqn:Hbody;
      [repeat constructor | | repeat constructor | repeat constructor].
    apply (iteration_body_continue HF) in Hbody. destruct Hbody as (Hstep & _).
    apply (sorted_cons_chain HF); [exact Hstep | apply IH].
Qed.

Lemma iterations_last (o : Options T R F) (pop : HillClimbingPopulator T R)
    (pol : Policy T R F) (remaining : nat) (iteration : Z) (cur : T)
    (best : option T) (state : State pol) (w : W) (final : option T) (w' : W) :
  iterations fitness o pop pol remaining iteration cur best state w
    = Val (RoundOver final) w' ->
  last (best :: iteration_bests fitness o pop pol remaining cur best state w)
  = Some final.
Proof.
  revert iteration cur best state w. induction remaining as [| remaining IH];
    intros iteration cur best state w Hrun.
  - simpl in Hrun. inv_step Hrun. reflexivity.
  - simpl in Hrun. apply bind_val in Hrun. destruct Hrun as (r & w1 & Hbody & Hrun).
    simpl iteration_bests. rewrite Hbody. destruct r as [c | cur' best' state'].
    + inv_step Hrun.
    + apply IH in Hrun. rewrite <- Hrun. reflexivity.
Qed.

Lemma iterations_returns (o : Options T R F) (pop : HillClimbingPopulator T R)
    (pol : Policy T R F) (remaining : nat) (iteration : Z) (cur : T)
    (best : option T) (state : State pol) (w : W) :
  exists e w', iterations fitness o pop pol remaining iteration cur best state w
               = Val e w'.
Proof.
  revert iteration cur best state w. induction remaining as [| remaining IH];
    intros iteration cur best state w.
  - eexists _, _. reflexivity.
  - simpl. destruct (iteration_body_returns o pop pol cur best state w)
      as ([c | cur' best' state'] & w1 & Hbody); rewrite (bind_eq _ _ _ _ _ Hbody).
    + eexists _, _. reflexivity.
    + apply IH.
Qed.

Lemma round_start_eq (o : Options T R F) (pop : HillClimbingPopulator T R)
    (pol : Policy T R F) (w : W) :
  exists state cur w1, round_start o pop pol w = Val (state, cur) w1 /\
                       exists r, cur = (generate pop r).1.
Proof.
  unfold round_start. rewrite (bind_eq _ _ _ _ _ (call_eq _ _ _)).
  rewrite (bind_eq _ _ _ _ _ (call_eq _ _ _)).
  eexists _, _, _. split; [reflexivity | eexists; reflexivity].
Qed.

Lemma round_bests_sorted (HF : StrictWeakOrder F) (o : Options T R F)
    (pop : HillClimbingPopulator T R) (pol : Policy T R F) (remaining : nat)
    (best : option T) (w : W) :
  StronglySorted (no_worse fitness)
    (best :: round_bests fitness o pop pol remaining best w).
Proof.
  revert best w. induction remaining as [| remaining IH]; intros best w; simpl.
  - repeat constructor.
  - destruct (round_start_eq o pop pol w) as (state & cur & w1 & -> & _).
    set (n := Z.to_nat (max_iterations_per_round o)).
    pose proof (iteration_bests_sorted HF o pop pol n cur best state w1) as Hround.
    destruct (iterations fitness o pop pol n 0 cur best state w1)
      as [[it c | final] w2 | |] eqn:Hits;
      try (rewrite app_nil_r; exact Hround).
    apply iterations_last in Hits. specialize (IH final w2).
    change (StronglySorted (no_worse fitness)
              ((best :: iteration_bests fitness o pop pol n cur best state w1) ++
               round_bests fitness o pop pol remaining final w2)).
    apply StronglySorted_app_2; [| exact Hround | exact (proj1 (StronglySorted_inv IH))].
    intros x1 x2 Hx1 Hx2.
    apply (no_worse_trans HF _ final); [exact (sorted_last HF _ _ _ Hround Hx1 Hits) |].
    apply StronglySorted_inv in IH. destruct IH as [_ Hall].
    exact (proj1 (Forall_forall _ _) Hall x2 Hx2).
Qed.

Lemma rounds_returns (o : Options T R F) (pop : HillClimbingPopulator T R)
    (pol : Policy T R F) (remaining : nat) (round : Z) (best : option T) (w : W) :
  exists e w', rounds fitness o pop pol remaining round best w = Val e w'.
Proof.
  revert round best w. induction remaining as [| remaining IH]; intros round best w.
  - eexists _, _. reflexivity.
  - simpl.
    destruct (round_start_eq o pop pol w) as (state & cur & w1 & Hstart & _).
    destruct (iterations_returns o pop pol (Z.to_nat (max_iterations_per_round o))
                0 cur best state w1) as (r & w2 & Hits).
    assert (Hbody : round_body fitness o pop pol best w = Val r w2).
    { unfold round_body. rewrite (bind_eq _ _ _ _ _ Hstart). exact Hits. }
    rewrite (bind_eq _ _ _ _ _ Hbody). destruct r as [it c | final].
    + eexists _, _. reflexivity.
    + apply IH.
Qed.

Lemma rounds_last (o : Options T R F) (pop : HillClimbingPopulator T R)
    (pol : Policy T R F) (remaining : nat) (round : Z) (best : option T) (w : W)
    (final : option T) (w' : W) :
  rounds fitness o pop pol remaining round best w = Val (Exhausted final) w' ->
  last (best :: round_bests fitness o pop pol remaining best w) = Some final.
Proof.
  revert round best w. induction remaining as [| remaining IH]; intros round best w Hrun.
  - simpl in Hrun. inv_step Hrun. reflexivity.
  - simpl in Hrun. unfold round_body in Hrun.
    apply bind_val in Hrun. destruct Hrun as (r & w2 & Hbody & Hrun).
    apply bind_val in Hbody. destruct Hbody as ([state cur] & w1 & Hstart & Hits).
    simpl round_bests. rewrite Hstart, Hits.
    destruct r as [it c | mid]; [inv_step Hrun |].
    apply IH in Hrun. rewrite app_comm_cons, last_app.
    change (last (mid :: round_bests fitness o pop pol remaining mid w2) = Some final)
      in Hrun.
    destruct (round_bests fitness o pop pol remaining mid w2) as [| x l] eqn:Hrb.
    + simpl in Hrun. injection Hrun as ->. simpl last at 1.
      exact (iterations_last _ _ _ _ _ _ _ _ _ _ _ Hits).
    + rewrite last_cons_cons in Hrun. rewrite Hrun. reflexivity.
Qed.

(** *** The whole run *)

Lemma hc_run_returns (pol : Policy T R F) (o : Options T R F)
    (pop : HillClimbingPopulator T R) (w : W) :
  populator o = Some pop ->
  exists e w',
    rounds fitness o pop pol (Z.to_nat (max_rounds o)) 0 None w = Val e w' /\
    run fitness pol o w = Val (exit_pointer e) w'.
Proof.
  intros Hpop.
  destruct (rounds_returns o pop pol (Z.to_nat (max_rounds o)) 0 None w)
    as (e & w' & Hrun).
  exists e, w'. split; [exact Hrun |].
  unfold run. rewrite Hpop, (bind_eq _ _ _ _ _ Hrun). reflexivity.
Qed.

Lemma rounds_record_a_best (HF : StrictWeakOrder F) (o : Options T R F)
    (pop : HillClimbingPopulator T R) (pol : Policy T R F) (remaining : nat)
    (round : Z) (best : option T) (w : W) (final : option T) (w' : W) :
  (0 < remaining)%nat -> 1 <= max_iterations_per_round o ->
  rounds fitness o pop pol remaining round best w = Val (Exhausted final) w' ->
  is_Some final.
Proof.
  intros Hrem Hits Hrun.
  pose proof (rounds_last _ _ _ _ _ _ _ _ _ Hrun) as Hlast.
  pose proof (round_bests_sorted HF o pop pol remaining best w) as Hsorted.
  assert (exists b, Some b ∈ round_bests fitness o pop pol remaining best w) as [b Hb].
  { destruct remaining as [| remaining]; [lia |].
    simpl in Hrun. unfold round_body in Hrun.
    apply bind_val in Hrun. destruct Hrun as (r & w2 & Hbody & Hrun).
    apply bind_val in Hbody. destruct Hbody as ([state cur] & w1 & Hstart & Hround).
    simpl. rewrite Hstart.
    destruct (Z.to_nat (max_iterations_per_round o)) as [| n] eqn:Hn; [lia |].
    simpl in Hround. apply bind_val in Hround.
    destruct Hround as (res & u & Hiter & Hround).
    simpl. rewrite Hiter. destruct res as [c | cur' best' state'].
    - inv_step Hround. inv_step Hrun.
    - apply (iteration_body_continue HF) in Hiter.
      destruct Hiter as (_ & _ & b & ->). exists b. apply elem_of_app. left.
      apply list_elem_of_here. }
  assert (no_worse fitness (Some b) final) as Hfinal.
  { apply (sorted_last HF _ _ _ Hsorted); [| exact Hlast].
    apply list_elem_of_further. exact Hb. }
  destruct final; [eexists; reflexivity | destruct Hfinal].
Qed.

Lemma hc_run_solves_at_once (o : Options T R F) (pop : HillClimbingPopulator T R)
    (w : W) :
  StrictWeakOrder F ->
  populator o = Some pop ->
  1 <= max_rounds o ->
  1 <= max_iterations_per_round o ->
  (forall r, ge (fitness (generate pop r).1) (fitness_success_threshold o) = true) ->
  exists cur w',
    rounds fitness o pop (base_policy fitness) (Z.to_nat (max_rounds o)) 0 None w
      = Val (Solved 0 0 cur) w' /\
    run fitness (base_policy fitness) o w = Val (Some cur) w' /\
    ge (fitness cur) (fitness_success_threshold o) = true.
Proof.
  intros HF Hpop Hrounds Hits Hgen.
  destruct (Z.to_nat (max_rounds o)) as [| k] eqn:Hk; [lia |].
  destruct (Z.to_nat (max_iterations_per_round o)) as [| m] eqn:Hm; [lia |].
  set (cur := (generate pop (source w)).1).
  set (w1 := {| source := (generate pop (source w)).2;
                events := (events w ++ [EvInitState]) ++ [EvGenerate] |} : W).
  set (next := (generateNeighbour pop cur (source w1)).1).
  set (chosen := if gt (fitness next) (fitness cur) then next else cur).
  assert (Hchosen : ge (fitness chosen) (fitness_success_threshold o) = true).
  { unfold chosen, gt. destruct (lt (fitness cur) (fitness next)) eqn:Hlt; [| apply Hgen].
    pose proof (Hgen (source w)) as Hcur. fold cur in Hcur. unfold ge in *.
    destruct (lt (fitness next) (fitness_success_threshold o)) eqn:Hnext; [| reflexivity].
    destruct (lt (fitness cur) (fitness_success_threshold o)) eqn:Hc; [discriminate |].
    rewrite (lt_asym HF _ _ (lt_ge_trans HF _ _ _ Hnext Hc)) in Hlt. discriminate. }
  assert (Hstart : round_start o pop (base_policy fitness) w = Val (tt, cur) w1).
  { unfold round_start. rewrite !(bind_eq _ _ _ _ _ (call_eq _ _ _)). reflexivity. }
  assert (Hiter : exists w2,
             iteration_body fitness o pop (base_policy fitness) cur None tt w1
             = Val (Return chosen) w2).
  { unfold iteration_body. rewrite !(bind_eq _ _ _ _ _ (call_eq _ _ _)).
    cbn [accept base_policy fst snd]. fold next. fold chosen.
    rewrite Hchosen. eexists. reflexivity. }
  destruct Hiter as [w2 Hiter].
  assert (Hrun : exists w',
             rounds fitness o pop (base_policy fitness) (S k) 0 None w
             = Val (Solved 0 0 chosen) w').
  { exists w2.
    assert (Hround : round_body fitness o pop (base_policy fitness) None w
                     = Val (Found 0 chosen) w2).
    { unfold round_body. rewrite (bind_eq _ _ _ _ _ Hstart), Hm. simpl.
      rewrite (bind_eq _ _ _ _ _ Hiter). reflexivity. }
    simpl. rewrite (bind_eq _ _ _ _ _ Hround). reflexivity. }
  destruct Hrun as [w' Hrun]. exists chosen, w'.
  split; [exact Hrun | split; [| exact Hchosen]].
  unfold run. rewrite Hpop, Hk, (bind_eq _ _ _ _ _ Hrun). reflexivity.
Qed.

(** *** What [best] dominates *)

Lemma continue_best_dominates (HF : StrictWeakOrder F) (o : Options T R F)
    (pop : HillClimbingPopulator T R) (pol : Policy T R F) (cur : T)
    (best : option T) (state : State pol) (w : W)
    (cur' : T) (best' : option T) (state' : State pol) (w' : W) :
  iteration_body fitness o pop pol cur best state w
    = Val (Continue cur' best' state') w' ->
  no_worse fitness best best' /\ no_worse fitness (Some cur') best'.
Proof.
  intros H. apply (iteration_body_continue HF) in H.
  destruct H as (Hnw & Hcases & _). split; [exact Hnw |].
  destruct Hcases as [[-> _] | [-> Himp]].
  - simpl. apply (lt_irrefl F HF).
  - destruct best as [b |]; simpl in *; [exact Himp | discriminate Himp].
Qed.

Lemma iterations_currents_dominated (HF : StrictWeakOrder F) (o : Options T R F)
    (pop : HillClimbingPopulator T R) (pol : Policy T R F) (remaining : nat) :
  forall (iteration : Z) (cur : T) (best : option T) (state : State pol) (w : W)
         (final : option T) (w' : W),
    iterations fitness o pop pol remaining iteration cur best state w
      = Val (RoundOver final) w' ->
    no_worse fitness best final /\
    forall c, c ∈ iteration_currents fitness o pop pol remaining cur best state w ->
      no_worse fitness (Some c) final.
Proof.
  induction remaining as [| remaining IH];
    intros iteration cur best state w final w' Hrun.
  - simpl in Hrun. inv_step Hrun.
    split; [apply (no_worse_refl HF) | intros c Hc; inversion Hc].
  - cbn [iterations] in Hrun. apply bind_val in Hrun.
    destruct Hrun as (r & w1 & Hbody & Hrun).
    cbn [iteration_currents]. rewrite Hbody.
    destruct r as [c0 | cur' best' state']; [inv_step Hrun |].
    destruct (continue_best_dominates HF _ _ _ _ _ _ _ _ _ _ _ Hbody) as [Hold Hcur].
    destruct (IH _ _ _ _ _ _ _ Hrun) as [Hmono Hrest].
    split; [exact (no_worse_trans HF _ _ _ Hold Hmono) |].
    intros c Hc. apply elem_of_cons in Hc. destruct Hc as [-> | Hc].
    + exact (no_worse_trans HF _ _ _ Hcur Hmono).
    + exact (Hrest c Hc).
Qed.

Lemma rounds_currents_dominated (HF : StrictWeakOrder F) (o : Options T R F)
    (pop : HillClimbingPopulator T R) (pol : Policy T R F) (remaining : nat) :
  forall (round : Z) (best : option T) (w : W) (final : option T) (w' : W),
    rounds fitness o pop pol remaining round best w = Val (Exhausted final) w' ->
    no_worse fitness best final /\
    forall c, c ∈ round_currents fitness o pop pol remaining best w ->
      no_worse fitness (Some c) final.
Proof.
  induction remaining as [| remaining IH]; intros round best w final w' Hrun.
  - simpl in Hrun. inv_step Hrun.
    split; [apply (no_worse_refl HF) | intros c Hc; inversion Hc].
  - cbn [rounds] in Hrun. unfold round_body in Hrun.
    apply bind_val in Hrun. destruct Hrun as (r & w2 & Hbody & Hrun).
    apply bind_val in Hbody. destruct Hbody as ([state cur] & w1 & Hstart & Hits).
    cbn [round_currents]. rewrite Hstart. cbn beta iota zeta. rewrite Hits.
    destruct r as [it c0 | mid]; [inv_step Hrun |].
    destruct (iterations_currents_dominated HF o pop pol _ _ _ _ _ _ _ _ Hits)
      as [Hold Hround].
    destruct (IH _ _ _ _ _ Hrun) as [Hmono Hrest].
    split; [exact (no_worse_trans HF _ _ _ Hold Hmono) |].
    intros c Hc. apply elem_of_app in Hc. destruct Hc as [Hc | Hc].
    + exact (no_worse_trans HF _ _ _ (Hround c Hc) Hmono).
    + exact (Hrest c Hc).
Qed.

(** With the acceptance of the base class, the candidate after an
    iteration is the neighbour when it is strictly fitter, and the
    candidate before otherwise. *)
Lemma iteration_body_base (o : Options T R F) (pop : HillClimbingPopulator T R)
    (cur : T) (best : option T) (w : W) (cur' : T) (best' : option T)
    (state' : unit) (w' : W) :
  iteration_body fitness o pop (base_policy fitness) cur best tt w
    = Val (Continue cur' best' state') w' ->
  cur' = if lt (fitness cur) (fitness (generateNeighbour pop cur (source w)).1)
         then (generateNeighbour pop cur (source w)).1 else cur.
Proof.
  unfold iteration_body. intros H.
  rewrite (bind_eq _ _ _ _ _ (call_eq _ _ _)) in H.
  rewrite (bind_eq _ _ _ _ _ (call_eq _ _ _)) in H. simpl in H. unfold gt in H.
  destruct (ge _ _); [inv_step H |].
  destruct (improves fitness best _); inv_step H; reflexivity.
Qed.

Lemma iterations_found_dominated (HF : StrictWeakOrder F) (o : Options T R F)
    (pop : HillClimbingPopulator T R) (remaining : nat) :
  forall (iteration : Z) (cur : T) (best : option T) (w : W)
         (final : option T) (w' : W),
    iterations fitness o pop (base_policy fitness) remaining iteration cur best tt w
      = Val (RoundOver final) w' ->
    no_worse fitness best final /\
    ((0 < remaining)%nat -> no_worse fitness (Some cur) final) /\
    forall c,
      c ∈ iteration_found fitness o pop (base_policy fitness) remaining cur best tt w ->
      no_worse fitness (Some c) final.
Proof.
  induction remaining as [| remaining IH];
    intros iteration cur best w final w' Hrun.
  - simpl in Hrun. inv_step Hrun.
    split; [apply (no_worse_refl HF) |].
    split; [lia | intros c Hc; inversion Hc].
  - cbn [iterations] in Hrun. apply bind_val in Hrun.
    destruct Hrun as (r & w1 & Hbody & Hrun).
    cbn [iteration_found]. rewrite Hbody.
    destruct r as [c0 | cur' best' state']; [inv_step Hrun |].
    destruct state'.
    destruct (continue_best_dominates HF _ _ _ _ _ _ _ _ _ _ _ Hbody) as [Hold Hcur].
    pose proof (iteration_body_base _ _ _ _ _ _ _ _ _ Hbody) as Hstep.
    destruct (IH _ _ _ _ _ _ Hrun) as (Hmono & _ & Hrest).
    assert (Hcur' : no_worse fitness (Some cur') final)
      by exact (no_worse_trans HF _ _ _ Hcur Hmono).
    set (next := (generateNeighbour pop cur (source w)).1) in *.
    assert (Hboth : lt (fitness cur') (fitness cur) = false /\
                    lt (fitness cur') (fitness next) = false).
    { rewrite Hstep. destruct (lt (fitness cur) (fitness next)) eqn:Hlt.
      - split; [exact (lt_asym HF _ _ Hlt) | apply (lt_irrefl F HF)].
      - split; [apply (lt_irrefl F HF) | exact Hlt]. }
    destruct Hboth as [Hc Hn].
    split; [exact (no_worse_trans HF _ _ _ Hold Hmono) |].
    split.
    + intros _. exact (no_worse_trans HF (Some cur) (Some cur') final Hc Hcur').
    + intros c Hin. apply elem_of_cons in Hin. destruct Hin as [-> | Hin].
      * exact (no_worse_trans HF (Some next) (Some cur') final Hn Hcur').
      * exact (Hrest c Hin).
Qed.

Lemma rounds_found_dominated (HF : StrictWeakOrder F) (o : Options T R F)
    (pop : HillClimbingPopulator T R) (remaining : nat) :
  1 <= max_iterations_per_round o ->
  forall (round : Z) (best : option T) (w : W) (final : option T) (w' : W),
    rounds fitness o pop (base_policy fitness) remaining round best w
      = Val (Exhausted final) w' ->
    no_worse fitness best final /\
    forall c, c ∈ round_found fitness o pop (base_policy fitness) remaining best w ->
      no_worse fitness (Some c) final.
Proof.
  intros Hits. induction remaining as [| remaining IH];
    intros round best w final w' Hrun.
  - simpl in Hrun. inv_step Hrun.
    split; [apply (no_worse_refl HF) | intros c Hc; inversion Hc].
  - cbn [rounds] in Hrun. unfold round_body in Hrun.
    apply bind_val in Hrun. destruct Hrun as (r & w2 & Hbody & Hrun).
    apply bind_val in Hbody. destruct Hbody as ([state cur] & w1 & Hstart & Hround).
    cbn [round_found]. rewrite Hstart. cbn beta iota zeta. rewrite Hround.
    destruct r as [it c0 | mid]; [inv_step Hrun |].
    destruct state.
    destruct (iterations_found_dominated HF o pop _ _ _ _ _ _ _ Hround)
      as (Hold & Hcur & Hfound).
    destruct (IH _ _ _ _ _ Hrun) as [Hmono Hrest].
    split; [exact (no_worse_trans HF _ _ _ Hold Hmono) |].
    intros c Hc. apply elem_of_cons in Hc. destruct Hc as [-> | Hc].
    + exact (no_worse_trans HF _ _ _ (Hcur ltac:(lia)) Hmono).
    + apply elem_of_app in Hc. destruct Hc as [Hc | Hc].
      * exact (no_worse_trans HF _ _ _ (Hfound c Hc) Hmono).
      * exact (Hrest c Hc).
Qed.

(** Without a round, or with rounds of no iteration, [best] stays the null
    pointer that it starts as. *)
Lemma rounds_without_iteration (o : Options T R F) (pop : HillClimbingPopulator T R)
    (pol : Policy T R F) (remaining : nat) :
  (remaining = 0%nat \/ Z.to_nat (max_iterations_per_round o) = 0%nat) ->
  forall (round : Z) (w : W) (final : option T) (w' : W),
    rounds fitness o pop pol remaining round None w = Val (Exhausted final) w' ->
    final = None.
Proof.
  intros Hnone. induction remaining as [| remaining IH]; intros round w final w' Hrun.
  - simpl in Hrun. inv_step Hrun. reflexivity.
  - destruct Hnone as [Hzero | Hits]; [discriminate Hzero |].
    cbn [rounds] in Hrun. unfold round_body in Hrun. rewrite Hits in Hrun.
    apply bind_val in Hrun. destruct Hrun as (r & w2 & Hbody & Hrun).
    apply bind_val in Hbody. destruct Hbody as ([state cur] & w1 & Hstart & Hround).
    simpl in Hround. inv_step Hround.
    exact (IH (or_intror Hits) _ _ _ _ Hrun).
Qed.

End HillClimbingProperties.

(** ** The crossover of the Sudoku populator *)

Section CrossoverProperties.

Context {G : Type}.
Variable NN : nat.
Variable uniform_int_0_1 : G -> Z * G.
Variable fresh_board : GenSudokuBoardGAPopulator.board.

Import GenSudokuBoardGAPopulator.

Lemma cell_lookup (b : board) (k : nat) :
  (k < length b)%nat -> Some (cell b k) = b !! k.
Proof.
  intros Hk. unfold cell. destruct (b !! k) eqn:E; [reflexivity |].
  apply lookup_ge_None in E. lia.
Qed.

(** The inner loop copies cells [first], ..., [first + count - 1] of row
    [i] and leaves the other cells alone. *)
Lemma copy_cells_loop (i : nat) (a b : board) (count first : nat) (c0 c1 : board) :
  (i * NN + first + count <= length a)%nat ->
  (i * NN + first + count <= length b)%nat ->
  (i * NN + first + count <= length c0)%nat ->
  (i * NN + first + count <= length c1)%nat ->
  let d := loop first count (copy_cells NN i a b) (c0, c1) in
  length d.1 = length c0 /\ length d.2 = length c1 /\
  (forall k, d.1 !! k =
     if decide (i * NN + first <= k < i * NN + first + count)%nat
     then a !! k else c0 !! k) /\
  (forall k, d.2 !! k =
     if decide (i * NN + first <= k < i * NN + first + count)%nat
     then b !! k else c1 !! k).
Proof.
  revert first c0 c1. induction count as [| count IH]; intros first c0 c1 Ha Hb H0 H1.
  - simpl. repeat split; intros k; case_decide; try reflexivity; lia.
  - simpl loop.
    specialize (IH (S first)
                  (<[(i * NN + first)%nat := cell a (i * NN + first)]> c0)
                  (<[(i * NN + first)%nat := cell b (i * NN + first)]> c1)).
    rewrite !length_insert in IH.
    destruct IH as (Hl0 & Hl1 & Hk0 & Hk1); try lia.
    simpl. split; [exact Hl0 | split; [exact Hl1 | split]]; intros k.
    + rewrite Hk0. repeat case_decide; try reflexivity; try lia.
      destruct (decide (k = i * NN + first)%nat) as [-> | Hne].
      * rewrite list_lookup_insert_eq by lia. apply cell_lookup. lia.
      * lia.
      * rewrite list_lookup_insert_ne by lia. reflexivity.
    + rewrite Hk1. repeat case_decide; try reflexivity; try lia.
      destruct (decide (k = i * NN + first)%nat) as [-> | Hne].
      * rewrite list_lookup_insert_eq by lia. apply cell_lookup. lia.
      * lia.
      * rewrite list_lookup_insert_ne by lia. reflexivity.
Qed.

(** The loop over the rows [first], ..., [first + count - 1]: each of
    them is copied from the parents as its coin says, the other rows are
    left alone. *)
Lemma rows_loop (p0 p1 : board) (count first : nat) (c0 c1 : board) (gen : G) :
  ((first + count) * NN <= length p0)%nat ->
  ((first + count) * NN <= length p1)%nat ->
  ((first + count) * NN <= length c0)%nat ->
  ((first + count) * NN <= length c1)%nat ->
  let d := loop first count (row_body NN uniform_int_0_1 p0 p1) (c0, c1, gen) in
  length d.1.1 = length c0 /\ length d.1.2 = length c1 /\
  (forall r col coin,
     (first <= r < first + count)%nat -> (col < NN)%nat ->
     coins uniform_int_0_1 count gen !! (r - first)%nat = Some coin ->
     d.1.1 !! (r * NN + col)%nat = (if coin =? 0 then p0 else p1) !! (r * NN + col)%nat /\
     d.1.2 !! (r * NN + col)%nat = (if coin =? 0 then p1 else p0) !! (r * NN + col)%nat) /\
  (forall k, (k < first * NN \/ (first + count) * NN <= k)%nat ->
     d.1.1 !! k = c0 !! k /\ d.1.2 !! k = c1 !! k) /\
  length (coins uniform_int_0_1 count gen) = count.
Proof.
  revert first c0 c1 gen. induction count as [| count IH];
    intros first c0 c1 gen Hp0 Hp1 Hc0 Hc1.
  - simpl. split; [reflexivity | split; [reflexivity | split; [| split]]].
    + intros r col coin Hr. lia.
    + intros k _. split; reflexivity.
    + reflexivity.
  - assert (E1 : (S first * NN = first * NN + NN)%nat) by lia.
    assert (E2 : ((first + S count) * NN = first * NN + NN + count * NN)%nat) by lia.
    assert (E3 : ((S first + count) * NN = first * NN + NN + count * NN)%nat) by lia.
    simpl loop. simpl coins.
    destruct (uniform_int_0_1 gen) as [coin0 gen1].
    set (x := if coin0 =? 0 then p0 else p1).
    set (y := if coin0 =? 0 then p1 else p0).
    assert (Hbody : (if coin0 =? 0
                     then (loop 0 NN (copy_cells NN first p0 p1) (c0, c1), gen1)
                     else (loop 0 NN (copy_cells NN first p1 p0) (c0, c1), gen1))
                    = (loop 0 NN (copy_cells NN first x y) (c0, c1), gen1)).
    { unfold x, y. destruct (coin0 =? 0); reflexivity. }
    rewrite Hbody. clear Hbody.
    assert (Hx : length x = length p0 \/ length x = length p1)
      by (unfold x; destruct (coin0 =? 0); auto).
    assert (Hy : length y = length p0 \/ length y = length p1)
      by (unfold y; destruct (coin0 =? 0); auto).
    destruct (copy_cells_loop first x y NN 0 c0 c1) as (Hl0 & Hl1 & Hk0 & Hk1);
      try lia.
    destruct (loop 0 NN (copy_cells NN first x y) (c0, c1)) as [e0 e1].
    simpl in Hl0, Hl1, Hk0, Hk1.
    destruct (IH (S first) e0 e1 gen1) as (Hd0 & Hd1 & Hrows & Hout & Hcoins);
      try lia.
    split; [lia | split; [lia | split; [| split]]].
    + intros r col coin Hr Hcol Hcoin.
      destruct (decide (r = first)) as [-> | Hne].
      * replace (first - first)%nat with 0%nat in Hcoin by lia.
        simpl in Hcoin. injection Hcoin as <-.
        destruct (Hout (first * NN + col)%nat) as [-> ->]; [lia |].
        rewrite Hk0, Hk1. repeat case_decide; try lia. split; reflexivity.
      * replace (r - first)%nat with (S (r - S first)) in Hcoin by lia.
        simpl in Hcoin. apply Hrows; [lia | exact Hcol | exact Hcoin].
    + intros k Hk. destruct (Hout k) as [-> ->]; [lia |].
      rewrite Hk0, Hk1. repeat case_decide; try lia. split; reflexivity.
    + simpl. rewrite Hcoins. reflexivity.
Qed.

Lemma row_eq (i : nat) (a b : board) :
  (forall col, (col < NN)%nat -> a !! (i * NN + col)%nat = b !! (i * NN + col)%nat) ->
  row NN i a = row NN i b.
Proof.
  intros H. unfold row. apply list_eq. intros col.
  rewrite !lookup_take, !lookup_drop. case_decide; [apply H; assumption | reflexivity].
Qed.

(** C10. For parents and a fresh board of [NN * NN] cells, both children
    have [NN * NN] cells and, for every row index [i] below [NN], the
    [i]-th value that the 0/1 distribution draws decides the row: on 0 the
    first child has row [i] of [p0] and the second child row [i] of [p1],
    otherwise the first child has row [i] of [p1] and the second child row
    [i] of [p0]. *)
Theorem crossover_copies_complementary_rows (p0 p1 : board) (gen : G) :
  length p0 = (NN * NN)%nat ->
  length p1 = (NN * NN)%nat ->
  length fresh_board = (NN * NN)%nat ->
  let children := (crossover NN uniform_int_0_1 fresh_board p0 p1 gen).1 in
  length children.1 = (NN * NN)%nat /\
  length children.2 = (NN * NN)%nat /\
  forall i, (i < NN)%nat ->
    exists coin,
      coins uniform_int_0_1 NN gen !! i = Some coin /\
      row NN i children.1 = row NN i (if coin =? 0 then p0 else p1) /\
      row NN i children.2 = row NN i (if coin =? 0 then p1 else p0).
Proof.
  intros Hp0 Hp1 Hfresh. unfold crossover.
  destruct (rows_loop p0 p1 NN 0 fresh_board fresh_board gen)
    as (Hl0 & Hl1 & Hrows & _ & Hcoins); try (simpl; lia).
  simpl. split; [lia | split; [lia |]].
  intros i Hi.
  destruct (lookup_lt_is_Some_2 (coins uniform_int_0_1 NN gen) i) as [coin Hcoin];
    [lia |].
  exists coin. split; [exact Hcoin |].
  split; apply row_eq; intros col Hcol;
    apply (Hrows i col coin); try lia;
    replace (i - 0)%nat with i by lia; exact Hcoin.
Qed.

End CrossoverProperties.


(** ** Both engines *)

Section EngineProperties.

Context {T R : Type} {F : Arithmetic}.
Variable fitness : T -> F.
Variable uniform_real : R -> Q * R.
Variable std_shuffle : list (option T) -> R -> list (option T) * R.

Local Abbreviation W := (World R F).
Local Abbreviation ga_run := (GeneticAlgorithm.run fitness uniform_real std_shuffle).
Local Abbreviation ga_generations :=
  (GeneticAlgorithm.generations fitness uniform_real std_shuffle).
Local Abbreviation ga_generation_body :=
  (GeneticAlgorithm.generation_body fitness uniform_real std_shuffle).
Local Abbreviation ga_bests :=
  (GeneticAlgorithm.bests fitness uniform_real std_shuffle).
Local Abbreviation hc_run := (HillClimbingAlgorithm.run fitness).
Local Abbreviation hc_rounds := (HillClimbingAlgorithm.rounds fitness).

Lemma generation_replaces_best_by_fitter (HF : StrictWeakOrder F)
    (o : @GeneticAlgorithm.Options T R F) (pop : Populator T R)
    (st : GeneticAlgorithm.Loop) (w : W) (st' : GeneticAlgorithm.Loop) (w' : W) :
  GeneticAlgorithm.survive_copies fitness pop ->
  ga_generation_body o pop st w = Val (GeneticAlgorithm.Continue st') w' ->
  GeneticAlgorithm.best st' = GeneticAlgorithm.best st \/
  lt (fitness (GeneticAlgorithm.best st)) (fitness (GeneticAlgorithm.best st')) = true.
Proof.
  intros Hs Hbody. apply generation_body_continue in Hbody.
  destruct Hbody as (next & w1 & inc & w2 & killed & w3 & w4 & w5 & _ & Hassess & _).
  pose proof (assess_flag fitness HF pop Hs _ _ _ _ _ _ Hassess) as Hinc.
  apply assess_val in Hassess. destruct Hassess as (k & fittest & _ & _ & _ & H).
  destruct inc; [right; symmetry; exact Hinc | left; exact (proj1 H)].
Qed.

(** C1. The values that [best] takes during a run of the genetic engine
    (given a [survive] that returns a copy) and during a run of the
    hill-climbing engine are in non-decreasing order of fitness, the
    initial null [best] of the hill-climbing engine being below every
    candidate; a generation leaves [best] as it is or replaces it by a
    strictly fitter candidate, and an iteration leaves [best] as it is or
    replaces it by the current candidate, which then is strictly fitter
    than a [best] that was set. *)
Theorem best_fitness_never_decreases :
  StrictWeakOrder F ->
  (forall (o : @GeneticAlgorithm.Options T R F) (pop : Populator T R) (w : W),
     GeneticAlgorithm.survive_copies fitness pop ->
     StronglySorted (fun b b' => lt (fitness b') (fitness b) = false)
       (GeneticAlgorithm.run_bests fitness uniform_real std_shuffle o pop w)) /\
  (forall (o : @GeneticAlgorithm.Options T R F) (pop : Populator T R)
          (st : GeneticAlgorithm.Loop) (w : W) (st' : GeneticAlgorithm.Loop) (w' : W),
     GeneticAlgorithm.survive_copies fitness pop ->
     ga_generation_body o pop st w = Val (GeneticAlgorithm.Continue st') w' ->
     GeneticAlgorithm.best st' = GeneticAlgorithm.best st \/
     lt (fitness (GeneticAlgorithm.best st)) (fitness (GeneticAlgorithm.best st')) = true) /\
  (forall (pol : HillClimbingAlgorithm.Policy T R F)
          (o : HillClimbingAlgorithm.Options T R F)
          (pop : HillClimbingAlgorithm.HillClimbingPopulator T R) (w : W),
     StronglySorted (HillClimbingAlgorithm.no_worse fitness)
       (HillClimbingAlgorithm.bests fitness pol o pop w)) /\
  (forall (pol : HillClimbingAlgorithm.Policy T R F)
          (o : HillClimbingAlgorithm.Options T R F)
          (pop : HillClimbingAlgorithm.HillClimbingPopulator T R)
          (cur : T) (best : option T) (state : HillClimbingAlgorithm.State pol) (w : W)
          (cur' : T) (best' : option T) (state' : HillClimbingAlgorithm.State pol)
          (w' : W),
     HillClimbingAlgorithm.iteration_body fitness o pop pol cur best state w
       = Val (HillClimbingAlgorithm.Continue cur' best' state') w' ->
     best' = Some cur' /\ HillClimbingAlgorithm.improves fitness best cur' = true \/
     best' = best /\ HillClimbingAlgorithm.improves fitness best cur' = false).
Proof.
  intros HF. split; [| split; [| split]].
  - intros o pop w Hs. unfold GeneticAlgorithm.run_bests.
    destruct (GeneticAlgorithm.initialize fitness o pop w) as [st w' | |];
      [| constructor | constructor].
    apply (bests_sorted fitness uniform_real std_shuffle HF o pop Hs).
  - intros o pop st w st' w' Hs Hbody.
    exact (generation_replaces_best_by_fitter HF o pop st w st' w' Hs Hbody).
  - intros pol o pop w. unfold HillClimbingAlgorithm.bests.
    apply (round_bests_sorted fitness HF).
  - intros pol o pop cur best state w cur' best' state' w' Hbody.
    apply (iteration_body_continue fitness HF) in Hbody. tauto.
Qed.

(** C4. When the populator is absent, and in the genetic engine also when
    [population_size] is odd, [run] throws and the world is the one it was
    called in: the shared state is untouched and no call of a collaborator,
    reading of the clock or output has been logged. *)
Theorem configuration_error_before_any_work :
  (forall (o : @GeneticAlgorithm.Options T R F) (w : W),
     GeneticAlgorithm.populator o = None \/
     (GeneticAlgorithm.population_size o mod 2 = 1)%nat ->
     exists what, ga_run o w = Throw what w) /\
  (forall (pol : HillClimbingAlgorithm.Policy T R F)
          (o : HillClimbingAlgorithm.Options T R F) (w : W),
     HillClimbingAlgorithm.populator o = None ->
     exists what, hc_run pol o w = Throw what w).
Proof.
  split.
  - intros o w H. unfold GeneticAlgorithm.run.
    destruct (GeneticAlgorithm.populator o) as [pop |].
    + destruct H as [H | H]; [discriminate |]. rewrite H. simpl.
      eexists. reflexivity.
    + eexists. reflexivity.
  - intros pol o w H. unfold HillClimbingAlgorithm.run. rewrite H.
    eexists. reflexivity.
Qed.

(** C7, amended. When every candidate that [generate] returns has a
    fitness at or above [fitness_success_threshold]: the genetic engine,
    with a breedable configuration, a [survive] that returns a copy and
    a [max_generations] other than 1, returns from generation 0 of its loop
    (after breeding once) a candidate that meets the threshold; the
    hill-climbing engine, with the acceptance of the base class and at
    least one round of at least one iteration, returns from iteration 0 of
    round 0 a candidate that meets the threshold. *)
Theorem attainable_threshold_solves_at_first_check :
  StrictWeakOrder F ->
  (forall (o : @GeneticAlgorithm.Options T R F) (pop : Populator T R)
          (sel : Selector T R) (w : W),
     GeneticAlgorithm.breedable o pop sel ->
     GeneticAlgorithm.survive_copies fitness pop ->
     0 <= GeneticAlgorithm.max_generations o < 2 ^ 64 ->
     GeneticAlgorithm.max_generations o <> 1 ->
     (forall r, ge (fitness (generate pop r).1)
                   (GeneticAlgorithm.fitness_success_threshold o) = true) ->
     exists st0 w0 b w',
       GeneticAlgorithm.initialize fitness o pop w = Val st0 w0 /\
       ga_generations o pop (Z.to_nat (GeneticAlgorithm.loop_bound o)) st0 w0
         = Val (GeneticAlgorithm.Solved 0 b) w' /\
       ga_run o w = Val (Some b) w' /\
       ge (fitness b) (GeneticAlgorithm.fitness_success_threshold o) = true) /\
  (forall (o : HillClimbingAlgorithm.Options T R F)
          (pop : HillClimbingAlgorithm.HillClimbingPopulator T R) (w : W),
     HillClimbingAlgorithm.populator o = Some pop ->
     1 <= HillClimbingAlgorithm.max_rounds o ->
     1 <= HillClimbingAlgorithm.max_iterations_per_round o ->
     (forall r, ge (fitness (HillClimbingAlgorithm.generate pop r).1)
                   (HillClimbingAlgorithm.fitness_success_threshold o) = true) ->
     exists cur w',
       hc_rounds o pop (HillClimbingAlgorithm.base_policy fitness)
         (Z.to_nat (HillClimbingAlgorithm.max_rounds o)) 0 None w
         = Val (HillClimbingAlgorithm.Solved 0 0 cur) w' /\
       hc_run (HillClimbingAlgorithm.base_policy fitness) o w = Val (Some cur) w' /\
       ge (fitness cur) (HillClimbingAlgorithm.fitness_success_threshold o) = true).
Proof.
  intros HF. split.
  - intros o pop sel w Hb Hs Hrange Hmg Hgen.
    exact (ga_run_solves_at_once fitness uniform_real std_shuffle o pop sel w
             HF Hb Hs Hrange Hmg Hgen).
  - intros o pop w Hpop Hrounds Hits Hgen.
    exact (hc_run_solves_at_once fitness o pop w HF Hpop Hrounds Hits Hgen).
Qed.

(** C8, amended. The genetic engine, with a workable configuration and a
    [survive] that returns a copy, returns a non-null candidate and neither
    throws nor has undefined behaviour, also when the budget is exhausted;
    the candidate is at least as fit as every candidate that the loop has
    compared: those of the initial population and of every generation as
    bred (the candidates that the demise pass generates afterwards are not
    among them).  The hill-climbing engine, with a populator, returns and
    does not throw; when the budget is exhausted it returns the null
    pointer if there is no round or the rounds have no iteration, and
    otherwise a candidate that is at least as fit as every candidate that
    was current at the end of an iteration; with the acceptance of the base
    class and rounds of at least one iteration, that candidate is at least
    as fit as every candidate that [generate] or [generateNeighbour]
    returned during the run. *)
Theorem exhausted_budget_returns_best_assessed :
  StrictWeakOrder F ->
  (forall (o : @GeneticAlgorithm.Options T R F) (pop : Populator T R)
          (sel : Selector T R) (w : W),
     GeneticAlgorithm.workable std_shuffle o pop sel ->
     GeneticAlgorithm.survive_copies fitness pop ->
     exists st0 w0 e w',
       GeneticAlgorithm.initialize fitness o pop w = Val st0 w0 /\
       ga_generations o pop (Z.to_nat (GeneticAlgorithm.loop_bound o)) st0 w0
         = Val e w' /\
       ga_run o w = Val (Some (GeneticAlgorithm.exit_best e)) w' /\
       forall c,
         c ∈ GeneticAlgorithm.run_assessed fitness uniform_real std_shuffle o pop w ->
         lt (fitness (GeneticAlgorithm.exit_best e)) (fitness c) = false) /\
  (forall (pol : HillClimbingAlgorithm.Policy T R F)
          (o : HillClimbingAlgorithm.Options T R F)
          (pop : HillClimbingAlgorithm.HillClimbingPopulator T R) (w : W),
     HillClimbingAlgorithm.populator o = Some pop ->
     exists e w',
       hc_rounds o pop pol (Z.to_nat (HillClimbingAlgorithm.max_rounds o)) 0 None w
         = Val e w' /\
       hc_run pol o w = Val (HillClimbingAlgorithm.exit_pointer e) w' /\
       forall final, e = HillClimbingAlgorithm.Exhausted final ->
         (HillClimbingAlgorithm.max_rounds o <= 0 \/
          HillClimbingAlgorithm.max_iterations_per_round o <= 0 ->
          final = None) /\
         (1 <= HillClimbingAlgorithm.max_rounds o ->
          1 <= HillClimbingAlgorithm.max_iterations_per_round o ->
          is_Some final) /\
         (forall c,
            c ∈ HillClimbingAlgorithm.currents fitness pol o pop w ->
            HillClimbingAlgorithm.no_worse fitness (Some c) final)) /\
  (forall (o : HillClimbingAlgorithm.Options T R F)
          (pop : HillClimbingAlgorithm.HillClimbingPopulator T R) (w : W)
          (final : option T) (w' : W),
     HillClimbingAlgorithm.populator o = Some pop ->
     1 <= HillClimbingAlgorithm.max_iterations_per_round o ->
     hc_rounds o pop (HillClimbingAlgorithm.base_policy fitness)
       (Z.to_nat (HillClimbingAlgorithm.max_rounds o)) 0 None w
     = Val (HillClimbingAlgorithm.Exhausted final) w' ->
     hc_run (HillClimbingAlgorithm.base_policy fitness) o w = Val final w' /\
     forall c,
       c ∈ HillClimbingAlgorithm.found fitness
             (HillClimbingAlgorithm.base_policy fitness) o pop w ->
       HillClimbingAlgorithm.no_worse fitness (Some c) final).
Proof.
  intros HF. split; [| split].
  - intros o pop sel w Hw Hs.
    destruct (ga_run_returns fitness uniform_real std_shuffle o pop sel w Hw)
      as (st0 & w0 & e & w' & Hinit & Hrun & Hres).
    exists st0, w0, e, w'.
    split; [exact Hinit | split; [exact Hrun | split; [exact Hres |]]].
    exact (run_dominates fitness uniform_real std_shuffle HF o pop Hs w st0 w0 e w'
             Hinit Hrun).
  - intros pol o pop w Hpop.
    destruct (hc_run_returns fitness pol o pop w Hpop) as (e & w' & Hrun & Hres).
    exists e, w'. split; [exact Hrun | split; [exact Hres |]].
    intros final ->. split; [| split].
    + intros Hnone.
      apply (rounds_without_iteration fitness o pop pol
               (Z.to_nat (HillClimbingAlgorithm.max_rounds o))
               ltac:(lia) 0 w final w' Hrun).
    + intros Hrounds Hits.
      apply (rounds_record_a_best fitness HF o pop pol
               (Z.to_nat (HillClimbingAlgorithm.max_rounds o)) 0 None w final w');
        [lia | exact Hits | exact Hrun].
    + exact (proj2 (rounds_currents_dominated fitness HF o pop pol _ _ _ _ _ _ Hrun)).
  - intros o pop w final w' Hpop Hits Hrun. split.
    + unfold HillClimbingAlgorithm.run. rewrite Hpop, (bind_eq _ _ _ _ _ Hrun).
      reflexivity.
    + exact (proj2 (rounds_found_dominated fitness HF o pop _ Hits _ _ _ _ _ Hrun)).
Qed.

End EngineProperties.

(** ** The small instance *)

Lemma sample_survive_copies :
  GeneticAlgorithm.survive_copies Sample.fitness Sample.populator.
Proof. intros c r. reflexivity. Qed.

Lemma sample_breedable (p : Populator Z Z) (size : nat)
    (generations threshold dead_rounds : Z) :
  (size mod 2 = 0)%nat -> (0 < size)%nat ->
  GeneticAlgorithm.breedable
    (Sample.configured (Some p) size generations threshold dead_rounds)
    p Sample.selector.
Proof.
  intros Heven Hpos. split; simpl; auto.
  intros v r Hv. assert (0 < length v)%nat by (destruct v; [congruence | simpl; lia]).
  pose proof (Z.mod_pos_bound r (Z.of_nat (length v)) ltac:(lia)). lia.
Qed.

Lemma sample_workable (p : Populator Z Z) (size : nat)
    (generations threshold dead_rounds : Z) :
  (size mod 2 = 0)%nat -> (0 < size)%nat ->
  GeneticAlgorithm.workable Sample.std_shuffle
    (Sample.configured (Some p) size generations threshold dead_rounds)
    p Sample.selector.
Proof.
  intros Heven Hpos. split.
  - apply sample_breedable; assumption.
  - intros v r. symmetry. apply Permutation_rev.
  - simpl. lia.
Qed.

Lemma sample_generate_nonnegative (r : Z) :
  ge (Sample.fitness (generate Sample.populator r).1) (0 : ZFitness) = true.
Proof.
  unfold ge, Sample.fitness. simpl. apply negb_true_iff, Z.ltb_ge.
  pose proof (Z.mod_pos_bound r 5 ltac:(lia)). lia.
Qed.

Lemma sample_climber_nonnegative (r : Z) :
  ge (Sample.fitness (HillClimbingAlgorithm.generate Sample.climber r).1)
     (0 : ZFitness) = true.
Proof.
  unfold ge, Sample.fitness. simpl. apply negb_true_iff, Z.ltb_ge.
  pose proof (Z.mod_pos_bound r 5 ltac:(lia)). lia.
Qed.

(** C3, at the failing input. With the default thresholds
    ([fitness_death_threshold = 0], [fitness_death_factor = 0]) and far
    from [permissible_dead_rounds], the kill threshold is 0 and the demise
    pass replaces the candidate of fitness 0 by a generated one (here of
    fitness 4), while the candidate of fitness 3 stays. *)
Theorem default_thresholds_kill_fitness_zero :
  GeneticAlgorithm.kill_threshold Sample.fitness Sample.defaults 3 = 0 /\
  GeneticAlgorithm.kill Sample.fitness Sample.defaults Sample.populator 1
    (GeneticAlgorithm.kill_threshold Sample.fitness Sample.defaults 3)
    [Some 0; Some 3] (Sample.world_at 4)
  = Val [Some 4; Some 3] {| source := 5; events := [EvGenerate] |}.
Proof. split; vm_compute; reflexivity. Qed.

(** *** Instances of the theorems *)

Lemma best_fitness_never_decreases_witness :
  StronglySorted (fun b b' => lt (Sample.fitness b') (Sample.fitness b) = false)
    (GeneticAlgorithm.run_bests Sample.fitness Sample.uniform_real Sample.std_shuffle
       (Sample.options 3) Sample.populator Sample.world) /\
  StronglySorted (HillClimbingAlgorithm.no_worse Sample.fitness)
    (HillClimbingAlgorithm.bests Sample.fitness
       (HillClimbingAlgorithm.base_policy Sample.fitness)
       (Sample.climb 2 3 100) Sample.climber Sample.world).
Proof.
  destruct (best_fitness_never_decreases Sample.fitness Sample.uniform_real
              Sample.std_shuffle ZFitness_order) as (Hga & _ & Hhc & _).
  split.
  - apply Hga. exact sample_survive_copies.
  - apply Hhc.
Defined.

Lemma dead_rounds_counted_then_reset_witness :
  exists st w st' w',
    GeneticAlgorithm.initialize Sample.fitness
      (Sample.configured (Some Sample.populator) 4 3 100 1) Sample.populator
      Sample.world = Val st w /\
    GeneticAlgorithm.generation_body Sample.fitness Sample.uniform_real
      Sample.std_shuffle (Sample.configured (Some Sample.populator) 4 3 100 1)
      Sample.populator st w = Val (GeneticAlgorithm.Continue st') w' /\
    GeneticAlgorithm.dead_rounds_rule Sample.fitness Sample.uniform_real
      Sample.std_shuffle (Sample.configured (Some Sample.populator) 4 3 100 1)
      Sample.populator st w st' w'.
Proof.
  eexists _, _, _, _. split; [vm_compute; reflexivity |].
  split; [vm_compute; reflexivity |].
  apply (dead_rounds_counted_then_reset Sample.fitness Sample.uniform_real
           Sample.std_shuffle _ _ Sample.world).
  - exact ZFitness_order.
  - exact sample_survive_copies.
  - simpl. lia.
  - apply GeneticAlgorithm.reached_first. vm_compute. reflexivity.
  - vm_compute. reflexivity.
Defined.

Lemma configuration_error_before_any_work_witness :
  (exists what,
     GeneticAlgorithm.run Sample.fitness Sample.uniform_real Sample.std_shuffle
       (Sample.configured None 4 3 100 2) Sample.world = Throw what Sample.world) /\
  (exists what,
     GeneticAlgorithm.run Sample.fitness Sample.uniform_real Sample.std_shuffle
       (Sample.configured (Some Sample.populator) 3 3 100 2) Sample.world
     = Throw what Sample.world) /\
  (exists what,
     HillClimbingAlgorithm.run Sample.fitness
       (HillClimbingAlgorithm.base_policy Sample.fitness)
       (Sample.climb_with None 2 3 100) Sample.world = Throw what Sample.world).
Proof.
  destruct (configuration_error_before_any_work Sample.fitness Sample.uniform_real
              Sample.std_shuffle) as [Hga Hhc].
  split; [| split].
  - apply Hga. left. reflexivity.
  - apply Hga. right. reflexivity.
  - apply Hhc. reflexivity.
Defined.

Lemma breed_fills_pair_slots_witness :
  exists next w',
    GeneticAlgorithm.breed Sample.uniform_real (Sample.options 3) Sample.populator
      [Some 3; Some 1; Some 4; Some 1] Sample.world = Val next w' /\
    GeneticAlgorithm.fills_pair_slots Sample.uniform_real (Sample.options 3)
      Sample.populator [Some 3; Some 1; Some 4; Some 1] Sample.world next w'.
Proof.
  eexists _, _. split; [vm_compute; reflexivity |].
  apply breed_fills_pair_slots. vm_compute. reflexivity.
Defined.

Lemma fittest_is_lowest_index_of_maximum_witness :
  (exists r w' next w1 k fittest,
     GeneticAlgorithm.generation_body Sample.fitness Sample.uniform_real
       Sample.std_shuffle (Sample.options 3) Sample.populator Sample.heading
       Sample.world = Val r w' /\
     GeneticAlgorithm.breed Sample.uniform_real (Sample.options 3) Sample.populator
       (GeneticAlgorithm.prevGeneration Sample.heading) Sample.world = Val next w1 /\
     GeneticAlgorithm.lowest_fittest Sample.fitness next k /\
     next !! k = Some (Some fittest) /\
     GeneticAlgorithm.step_best r
     = if gt (Sample.fitness fittest)
             (Sample.fitness (GeneticAlgorithm.best Sample.heading))
       then (survive Sample.populator fittest (source w1)).1
       else GeneticAlgorithm.best Sample.heading) /\
  (exists st w' max_init c w1,
     GeneticAlgorithm.initialize Sample.fitness (Sample.options 3) Sample.populator
       (Sample.world_at 3) = Val st w' /\
     for_range 0 4 (GeneticAlgorithm.init_body Sample.fitness Sample.populator)
       (replicate 4 None, 0%nat)
       {| source := 3; events := [EvClock] |}
     = Val (GeneticAlgorithm.prevGeneration st, max_init) w1 /\
     GeneticAlgorithm.lowest_fittest Sample.fitness
       (GeneticAlgorithm.prevGeneration st) max_init /\
     GeneticAlgorithm.prevGeneration st !! max_init = Some (Some c) /\
     GeneticAlgorithm.best st = (survive Sample.populator c (source w1)).1).
Proof.
  destruct (fittest_is_lowest_index_of_maximum Sample.fitness Sample.uniform_real
              Sample.std_shuffle ZFitness_order) as (_ & Hgen & Hinit & _).
  split.
  - eexists _, _.
    match goal with
    | |- exists next w1 k fittest, ?A /\ _ =>
        assert (Hbody : A) by (vm_compute; reflexivity)
    end.
    destruct (Hgen _ _ _ _ _ _ Hbody) as (next & w1 & k & fittest & H).
    exists next, w1, k, fittest. split; [exact Hbody | exact H].
  - eexists _, _.
    match goal with
    | |- exists max_init c w1, ?A /\ _ =>
        assert (Hrun : A) by (vm_compute; reflexivity)
    end.
    destruct (Hinit _ _ _ _ _ Hrun) as (max_init & c & w1 & H).
    exists max_init, c, w1. split; [exact Hrun | exact H].
Defined.

Lemma attainable_threshold_solves_at_first_check_witness :
  (exists st0 w0 b w',
     GeneticAlgorithm.initialize Sample.fitness (Sample.easy 3) Sample.populator
       Sample.world = Val st0 w0 /\
     GeneticAlgorithm.generations Sample.fitness Sample.uniform_real
       Sample.std_shuffle (Sample.easy 3) Sample.populator
       (Z.to_nat (GeneticAlgorithm.loop_bound (Sample.easy 3))) st0 w0
     = Val (GeneticAlgorithm.Solved 0 b) w' /\
     GeneticAlgorithm.run Sample.fitness Sample.uniform_real Sample.std_shuffle
       (Sample.easy 3) Sample.world = Val (Some b) w' /\
     ge (Sample.fitness b)
        (GeneticAlgorithm.fitness_success_threshold (Sample.easy 3)) = true) /\
  (exists cur w',
     HillClimbingAlgorithm.rounds Sample.fitness (Sample.climb 2 3 0) Sample.climber
       (HillClimbingAlgorithm.base_policy Sample.fitness)
       (Z.to_nat (HillClimbingAlgorithm.max_rounds (Sample.climb 2 3 0))) 0 None
       Sample.world = Val (HillClimbingAlgorithm.Solved 0 0 cur) w' /\
     HillClimbingAlgorithm.run Sample.fitness
       (HillClimbingAlgorithm.base_policy Sample.fitness) (Sample.climb 2 3 0)
       Sample.world = Val (Some cur) w' /\
     ge (Sample.fitness cur)
        (HillClimbingAlgorithm.fitness_success_threshold (Sample.climb 2 3 0)) = true).
Proof.
  destruct (attainable_threshold_solves_at_first_check Sample.fitness
              Sample.uniform_real Sample.std_shuffle ZFitness_order) as [Hga Hhc].
  split.
  - apply (Hga (Sample.easy 3) Sample.populator Sample.selector Sample.world).
    + apply sample_breedable; [reflexivity | lia].
    + exact sample_survive_copies.
    + simpl. lia.
    + simpl. lia.
    + exact sample_generate_nonnegative.
  - apply (Hhc (Sample.climb 2 3 0) Sample.climber Sample.world).
    + reflexivity.
    + simpl. lia.
    + simpl. lia.
    + exact sample_climber_nonnegative.
Defined.

Lemma exhausted_budget_returns_best_assessed_witness :
  (exists st0 w0 e w',
     GeneticAlgorithm.initialize Sample.fitness (Sample.options 3) Sample.populator
       Sample.world = Val st0 w0 /\
     GeneticAlgorithm.generations Sample.fitness Sample.uniform_real
       Sample.std_shuffle (Sample.options 3) Sample.populator
       (Z.to_nat (GeneticAlgorithm.loop_bound (Sample.options 3))) st0 w0
     = Val e w' /\
     GeneticAlgorithm.run Sample.fitness Sample.uniform_real Sample.std_shuffle
       (Sample.options 3) Sample.world
     = Val (Some (GeneticAlgorithm.exit_best e)) w' /\
     forall c,
       c ∈ GeneticAlgorithm.run_assessed Sample.fitness Sample.uniform_real
             Sample.std_shuffle (Sample.options 3) Sample.populator Sample.world ->
       lt (Sample.fitness (GeneticAlgorithm.exit_best e)) (Sample.fitness c) = false) /\
  (exists final w',
     HillClimbingAlgorithm.rounds Sample.fitness (Sample.climb 2 3 100)
       Sample.climber (HillClimbingAlgorithm.base_policy Sample.fitness)
       (Z.to_nat (HillClimbingAlgorithm.max_rounds (Sample.climb 2 3 100))) 0 None
       Sample.world = Val (HillClimbingAlgorithm.Exhausted final) w' /\
     HillClimbingAlgorithm.run Sample.fitness
       (HillClimbingAlgorithm.base_policy Sample.fitness) (Sample.climb 2 3 100)
       Sample.world = Val final w' /\
     forall c,
       c ∈ HillClimbingAlgorithm.found Sample.fitness
             (HillClimbingAlgorithm.base_policy Sample.fitness)
             (Sample.climb 2 3 100) Sample.climber Sample.world ->
       HillClimbingAlgorithm.no_worse Sample.fitness (Some c) final).
Proof.
  destruct (exhausted_budget_returns_best_assessed Sample.fitness
              Sample.uniform_real Sample.std_shuffle ZFitness_order)
    as (Hga & _ & Hbase).
  split.
  - apply (Hga (Sample.options 3) Sample.populator Sample.selector Sample.world).
    + apply sample_workable; [reflexivity | lia].
    + exact sample_survive_copies.
  - eexists _, _.
    match goal with
    | |- ?A /\ _ => assert (Hrun : A) by (vm_compute; reflexivity)
    end.
    split; [exact Hrun |].
    apply (Hbase (Sample.climb 2 3 100) Sample.climber Sample.world _ _ eq_refl
             ltac:(simpl; lia) Hrun).
Defined.

Lemma generation_budget_wraps_witness :
  (exists b w',
     GeneticAlgorithm.run Sample.fitness Sample.uniform_real Sample.std_shuffle
       (Sample.options 3) Sample.world = Val (Some b) w' /\
     Z.of_nat (generations_run (events w') - generations_run (events Sample.world))
     = (3 - 1) mod 2 ^ 64) /\
  (exists b w',
     GeneticAlgorithm.run Sample.fitness Sample.uniform_real Sample.std_shuffle
       (Sample.easy 0) Sample.world = Val (Some b) w' /\
     (1 <= generations_run (events w') - generations_run (events Sample.world))%nat).
Proof.
  split.
  - destruct (proj2 (proj2 (generation_budget_wraps Sample.fitness
                               Sample.uniform_real Sample.std_shuffle
                               (Sample.options 3) Sample.populator))
                Sample.selector Sample.world
                (sample_workable _ 4 3 100 2 eq_refl ltac:(lia)))
      as (b & w' & Hrun & _ & Hlow & _).
    exists b, w'. split; [exact Hrun |]. apply Hlow.
    assert (Hb : exists w0,
               GeneticAlgorithm.run Sample.fitness Sample.uniform_real
                 Sample.std_shuffle (Sample.options 3) Sample.world
               = Val (Some 4) w0) by (eexists; vm_compute; reflexivity).
    destruct Hb as [w0 Hb]. rewrite Hb in Hrun. injection Hrun as <- _.
    reflexivity.
  - destruct (proj2 (proj2 (generation_budget_wraps Sample.fitness
                               Sample.uniform_real Sample.std_shuffle
                               (Sample.easy 0) Sample.populator))
                Sample.selector Sample.world
                (sample_workable _ 4 0 0 2 eq_refl ltac:(lia)))
      as (b & w' & Hrun & _ & _ & Hzero).
    exists b, w'. split; [exact Hrun | exact (proj1 (Hzero eq_refl))].
Defined.

Lemma crossover_copies_complementary_rows_witness :
  let children :=
    (GenSudokuBoardGAPopulator.crossover 2 Sample.coin [0; 0; 0; 0]
       [1; 2; 3; 4] [5; 6; 7; 8] 2).1 in
  length children.1 = (2 * 2)%nat /\
  length children.2 = (2 * 2)%nat /\
  forall i, (i < 2)%nat ->
    exists coin,
      GenSudokuBoardGAPopulator.coins Sample.coin 2 2 !! i = Some coin /\
      GenSudokuBoardGAPopulator.row 2 i children.1
      = GenSudokuBoardGAPopulator.row 2 i
          (if coin =? 0 then [1; 2; 3; 4] else [5; 6; 7; 8]) /\
      GenSudokuBoardGAPopulator.row 2 i children.2
      = GenSudokuBoardGAPopulator.row 2 i
          (if coin =? 0 then [5; 6; 7; 8] else [1; 2; 3; 4]).
Proof.
  apply (crossover_copies_complementary_rows 2 Sample.coin [0; 0; 0; 0]
           [1; 2; 3; 4] [5; 6; 7; 8] 2); reflexivity.
Defined.

(** *** Where the claims as stated fail *)

(** C7 as stated fails for the hill-climbing engine with no round: every
    generated candidate meets the threshold 0, the configuration passes
    the check of [run], and [run] returns the null pointer. *)
Lemma no_round_returns_null_despite_attainable_threshold :
  (forall r, ge (Sample.fitness (HillClimbingAlgorithm.generate Sample.climber r).1)
                (HillClimbingAlgorithm.fitness_success_threshold (Sample.climb 0 3 0))
             = true) /\
  HillClimbingAlgorithm.run Sample.fitness
    (HillClimbingAlgorithm.base_policy Sample.fitness) (Sample.climb 0 3 0)
    Sample.world = Val None Sample.world.
Proof.
  split; [exact sample_climber_nonnegative | vm_compute; reflexivity].
Qed.

(** C8 as stated fails in both engines.  The hill-climbing engine with
    rounds of no iteration generates two candidates, records none,
    exhausts the budget and returns the null pointer.  The genetic engine
    with a population of two, a budget of one generation and
    [permissible_dead_rounds = 1] returns the candidate of fitness 1 of the
    initial population, although the demise pass of its one generation
    has generated candidates of fitness 3 and 4, which are the population
    when the loop is left. *)
Lemma exhaustion_returns_null_or_a_lesser_candidate :
  HillClimbingAlgorithm.run Sample.fitness
    (HillClimbingAlgorithm.base_policy Sample.fitness) (Sample.climb 2 0 100)
    Sample.world
  = Val None {| source := 2;
                events := [EvInitState; EvGenerate; EvInitState; EvGenerate] |} /\
  exists st0 w0 st1 w1,
    GeneticAlgorithm.initialize Sample.fitness
      (Sample.configured (Some Sample.populator) 2 2 100 1) Sample.populator
      Sample.world = Val st0 w0 /\
    GeneticAlgorithm.generation_body Sample.fitness Sample.uniform_real
      Sample.std_shuffle (Sample.configured (Some Sample.populator) 2 2 100 1)
      Sample.populator st0 w0 = Val (GeneticAlgorithm.Continue st1) w1 /\
    GeneticAlgorithm.prevGeneration st1 = [Some 4; Some 3] /\
    GeneticAlgorithm.run Sample.fitness Sample.uniform_real Sample.std_shuffle
      (Sample.configured (Some Sample.populator) 2 2 100 1) Sample.world
    = Val (Some 1) w1.
Proof.
  split; [vm_compute; reflexivity |].
  eexists _, _, _, _. split; [vm_compute; reflexivity |].
  split; [vm_compute; reflexivity |]. split; vm_compute; reflexivity.
Qed.

(** * Further properties of the engines *)

Section GeneticFurther.

Context {T R : Type} {F : Arithmetic}.
Variable fitness : T -> F.
Variable uniform_real : R -> Q * R.
Variable std_shuffle : list (option T) -> R -> list (option T) * R.

Import GeneticAlgorithm.

Local Abbreviation W := (World R F).
Local Abbreviation population := (list (option T)).

(** *** The initial population *)

Lemma spec_fresh_events (pop : Populator T R) (n : nat) (w : W)
    (fresh : population) (w' : W) :
  spec_fresh pop n w = Val fresh w' ->
  length fresh = n /\ events w' = events w ++ replicate n EvGenerate.
Proof.
  revert w fresh w'. induction n as [| n IH]; intros w fresh w' Hrun.
  - simpl in Hrun. inv_step Hrun. simpl. rewrite app_nil_r. auto.
  - simpl in Hrun. apply bind_val in Hrun. destruct Hrun as (g & w1 & Hg & Hrun).
    apply bind_val in Hrun. destruct Hrun as (rest & w2 & Hrest & Hrun).
    inv_step Hrun. inv_step Hg. apply IH in Hrest. destruct Hrest as [Hlen Hev].
    simpl in *. rewrite Hlen, Hev, <- app_assoc. auto.
Qed.

Lemma init_range_fresh (pop : Populator T R) (count first : nat) (v : population)
    (mi : nat) (w : W) (v' : population) (mi' : nat) (w' : W) :
  (first + count <= length v)%nat ->
  for_range first count (init_body fitness pop) (v, mi) w = Val (v', mi') w' ->
  exists fresh,
    spec_fresh pop count w = Val fresh w' /\
    v' = take first v ++ fresh ++ drop (first + count) v.
Proof.
  revert first v mi w. induction count as [| count IH]; intros first v mi w Hlen Hrun.
  - simpl in Hrun. unfold ret in Hrun. injection Hrun as <- <- <-.
    exists []. split; [reflexivity |].
    replace (first + 0)%nat with first by lia. simpl. rewrite take_drop. reflexivity.
  - simpl in Hrun. apply bind_val in Hrun.
    destruct Hrun as ([v1 mi1] & w1 & Hbody & Hrun).
    unfold init_body in Hbody.
    apply bind_val in Hbody. destruct Hbody as (c & u & Hc & Hbody).
    inv_step Hbody. subst u.
    apply IH in Hrun; [| rewrite length_insert; lia].
    destruct Hrun as (fresh & Hfresh & ->).
    exists (Some c :: fresh). split.
    + simpl. rewrite (bind_eq _ _ _ _ _ Hc), (bind_eq _ _ _ _ _ Hfresh). reflexivity.
    + rewrite (take_S_r _ _ (Some c)) by (apply list_lookup_insert_eq; lia).
      rewrite take_insert_ge by lia. rewrite drop_insert_lt by lia.
      rewrite <- app_assoc. simpl.
      replace (first + S count)%nat with (S first + count)%nat by lia. reflexivity.
Qed.

Lemma initialize_fresh (o : @Options T R F) (pop : Populator T R) (w : W)
    (st : Loop) (w' : W) :
  initialize fitness o pop w = Val st w' ->
  exists w1 max_init c,
    spec_fresh pop (population_size o)
      {| source := source w; events := events w ++ [EvClock] |}
      = Val (prevGeneration st) w1 /\
    for_range 0 (population_size o) (init_body fitness pop)
      (replicate (population_size o) None, 0%nat)
      {| source := source w; events := events w ++ [EvClock] |}
      = Val (prevGeneration st, max_init) w1 /\
    prevGeneration st !! max_init = Some (Some c) /\
    best st = (survive pop c (source w1)).1 /\
    w' = {| source := (survive pop c (source w1)).2;
            events := events w1 ++ [EvSurvive] |}.
Proof.
  unfold initialize. intros H.
  apply bind_val in H. destruct H as ([] & w0 & Hclock & H).
  apply bind_val in H. destruct H as ([prev max_init] & w1 & Hinit & H).
  apply bind_val in H. destruct H as (c & w2 & Hc & H).
  apply bind_val in H. destruct H as (b & w3 & Hb & H).
  inv_step Hclock. inv_step Hc. inv_step Hb. inv_step H. simpl.
  exists w1, max_init, c.
  assert (Hlen : (0 + population_size o
                  <= length (replicate (population_size o) (@None T)))%nat)
    by (rewrite length_replicate; lia).
  destruct (init_range_fresh pop _ 0 _ _ _ _ _ _ Hlen Hinit)
    as (fresh & Hfresh & Hprev).
  simpl in Hprev. rewrite drop_ge in Hprev by (rewrite length_replicate; lia).
  rewrite app_nil_r in Hprev. subst prev. auto.
Qed.

(** X1. The initial population is what [population_size] successive calls of
    [generate] return, in the order of the calls; [best] starts as the
    [survive] copy of the candidate of maximal fitness at the lowest index;
    and up to there [run] has read the clock once, called [generate]
    [population_size] times and [survive] once, and nothing else. *)
Theorem initialize_generates_the_population (o : @Options T R F)
    (pop : Populator T R) (w : W) (st : Loop) (w' : W) :
  StrictWeakOrder F ->
  initialize fitness o pop w = Val st w' ->
  (exists w1,
     spec_fresh pop (population_size o)
       {| source := source w; events := events w ++ [EvClock] |}
     = Val (prevGeneration st) w1) /\
  (exists k c r,
     lowest_fittest fitness (prevGeneration st) k /\
     prevGeneration st !! k = Some (Some c) /\
     best st = (survive pop c r).1) /\
  events w' = events w ++ [EvClock] ++ replicate (population_size o) EvGenerate
                ++ [EvSurvive] /\
  generation st = 0 /\ deadRounds st = 0.
Proof.
  intros HF Hinit.
  destruct (initialize_val fitness o pop w st w' Hinit) as (Hg & Hd & _).
  destruct (initialize_fresh o pop w st w' Hinit)
    as (w1 & max_init & c & Hfresh & Hloop & Hc & Hbest & ->).
  split; [exists w1; exact Hfresh |].
  split; [| split; [| split; [exact Hg | exact Hd]]].
  - exists max_init, c, (source w1). split; [| split; [exact Hc | exact Hbest]].
    apply (init_loop_inv fitness HF) in Hloop.
    destruct Hloop as (Hlen & _ & _ & Hmax). simpl in *.
    apply (first_max_lowest fitness _ _ c); [rewrite Hlen; exact Hmax | exact Hc].
  - apply spec_fresh_events in Hfresh. destruct Hfresh as [_ Hev].
    simpl in *. rewrite Hev, <- !app_assoc. reflexivity.
Qed.

(** X2. With a populator and a population size of 0, [run] passes the checks
    of the configuration and then dereferences [prevGeneration[0]] of an
    empty vector: its behaviour is undefined. *)
Theorem empty_population_is_undefined (o : @Options T R F) (pop : Populator T R)
    (w : W) :
  populator o = Some pop ->
  population_size o = 0%nat ->
  run fitness uniform_real std_shuffle o w = Undefined.
Proof.
  intros Hpop Hn. unfold run, initialize. rewrite Hpop, Hn. reflexivity.
Qed.

(** *** One generation *)

(** X4. After the assessment of a generation, [best] is at least as fit as
    every candidate of that generation and as the [best] before. *)
Theorem assessed_best_dominates (pop : Populator T R) (next : population)
    (b : T) (w : W) (b' : T) (increased : bool) (w' : W) :
  StrictWeakOrder F ->
  survive_copies fitness pop ->
  assess fitness pop next b w = Val (b', increased) w' ->
  lt (fitness b') (fitness b) = false /\
  forall j cj, next !! j = Some (Some cj) -> lt (fitness b') (fitness cj) = false.
Proof.
  intros HF Hs Hassess.
  split; [exact (assess_no_worse fitness HF pop Hs _ _ _ _ _ _ Hassess) |].
  pose proof (assess_flag fitness HF pop Hs _ _ _ _ _ _ Hassess) as Hflag.
  apply assess_val in Hassess.
  destruct Hassess as (k & fittest & Hk & Hf & Hinc & Hb).
  apply (max_element_first_max fitness HF) in Hk. destruct Hk as (_ & _ & Hmax).
  intros j cj Hj.
  assert (Hfj : lt (fitness fittest) (fitness cj) = false).
  { apply (Hmax j cj fittest); [exact (lookup_lt_Some _ _ _ Hj) | exact Hj | exact Hf]. }
  destruct increased.
  - destruct Hb as [-> _]. rewrite Hs. exact Hfj.
  - destruct Hb as [-> _]. symmetry in Hinc.
    exact (ge_trans F HF _ _ _ Hinc Hfj).
Qed.

(** X6. With [output_rounds = 0] no generation reaches the next one: a
    generation that does not solve computes a remainder by 0. *)
Theorem zero_output_period_never_continues (o : @Options T R F)
    (pop : Populator T R) (st : Loop) (w : W) (st' : Loop) (w' : W) :
  output_rounds o = 0 ->
  generation_body fitness uniform_real std_shuffle o pop st w
  <> Val (Continue st') w'.
Proof.
  intros Hout Hbody. apply generation_body_continue in Hbody.
  destruct Hbody as (next & w1 & inc & w2 & killed & w3 & w4 & w5 &
                     _ & _ & _ & _ & _ & Hreport & _).
  unfold report in Hreport. rewrite Hout in Hreport. discriminate Hreport.
Qed.

(** X7. In a run with a workable configuration, the generation at the head of
    every iteration of the loop has exactly [population_size] candidates,
    none of them null. *)
Theorem population_stays_populated (o : @Options T R F) (pop : Populator T R)
    (sel : Selector T R) (w0 : W) (st : Loop) (w : W) :
  workable std_shuffle o pop sel ->
  reached fitness uniform_real std_shuffle o pop w0 st w ->
  populated (population_size o) (prevGeneration st).
Proof.
  intros Hw Hreached. induction Hreached as [st w Hinit | st w st' w' _ IH Hbody].
  - destruct (initialize_returns fitness o pop w0
                (breedable_positive _ _ _ (workable_breedable _ _ _ _ Hw)))
      as (st1 & w1 & r & Hinit1 & Hpop & _).
    rewrite Hinit in Hinit1. injection Hinit1 as <- <-. exact Hpop.
  - destruct (generation_body_returns fitness uniform_real std_shuffle o pop sel
                st w Hw IH) as (res & w1 & Hbody1 & Hres).
    rewrite Hbody in Hbody1. injection Hbody1 as <- <-. exact Hres.
Qed.

(** *** The exits of the loop *)

(** X8. A run that leaves the loop from a generation returns a candidate that
    meets [fitness_success_threshold]; a run that exhausts a budget of at
    least one generation returns a [best] below the threshold. *)
Theorem exit_tells_the_threshold (o : @Options T R F) (pop : Populator T R)
    (remaining : nat) (st : Loop) (w : W) (e : Exit) (w' : W) :
  generations fitness uniform_real std_shuffle o pop remaining st w = Val e w' ->
  match e with
  | Solved _ b => ge (fitness b) (fitness_success_threshold o) = true
  | Exhausted _ b =>
      (0 < remaining)%nat -> ge (fitness b) (fitness_success_threshold o) = false
  end.
Proof.
  revert st w. induction remaining as [| remaining IH]; intros st w Hrun.
  - simpl in Hrun. inv_step Hrun. lia.
  - simpl in Hrun. apply bind_val in Hrun. destruct Hrun as (r & w1 & Hbody & Hrun).
    destruct r as [b | st'].
    + inv_step Hrun. apply generation_body_return in Hbody.
      destruct Hbody as (next & u1 & inc & u2 & _ & _ & Hge). exact Hge.
    + apply generation_body_continue in Hbody.
      destruct Hbody as (next & u1 & inc & u2 & killed & u3 & u4 & u5 &
                         _ & _ & Hge & _).
      destruct remaining as [| remaining'].
      * simpl in Hrun. inv_step Hrun. intros _. exact Hge.
      * specialize (IH st' w1 Hrun). destruct e; [exact IH | intros _; apply IH; lia].
Qed.

(** X9. With [max_generations = 1] the loop is not entered: [run] returns the
    first [best] after the clock, [population_size] calls of [generate]
    and one call of [survive], without a draw, a selection or a success
    check. *)
Theorem budget_of_one_returns_the_first_best (o : @Options T R F)
    (pop : Populator T R) (w : W) (st : Loop) (w' : W) :
  populator o = Some pop ->
  (population_size o mod 2 = 0)%nat ->
  max_generations o = 1 ->
  initialize fitness o pop w = Val st w' ->
  run fitness uniform_real std_shuffle o w = Val (Some (best st)) w' /\
  events w' = events w ++ [EvClock] ++ replicate (population_size o) EvGenerate
                ++ [EvSurvive].
Proof.
  intros Hpop Heven Hmg Hinit. split.
  - unfold run. rewrite Hpop, Heven. simpl.
    rewrite (bind_eq _ _ _ _ _ Hinit).
    unfold loop_bound, wrap64. rewrite Hmg. reflexivity.
  - destruct (initialize_fresh o pop w st w' Hinit)
      as (w1 & max_init & c & Hfresh & _ & _ & _ & ->).
    apply spec_fresh_events in Hfresh. destruct Hfresh as [_ Hev].
    simpl in *. rewrite Hev, <- !app_assoc. reflexivity.
Qed.

End GeneticFurther.

Section HillClimbingFurther.

Context {T R : Type} {F : Arithmetic}.
Variable fitness : T -> F.

Import HillClimbingAlgorithm.

Local Abbreviation W := (World R F).

Lemma iteration_body_val (o : Options T R F) (pop : HillClimbingPopulator T R)
    (pol : Policy T R F) (cur : T) (best : option T) (state : State pol) (w : W)
    (r : Step (State pol)) (w' : W) :
  iteration_body fitness o pop pol cur best state w = Val r w' ->
  let next := (generateNeighbour pop cur (source w)).1 in
  let decision :=
    (accept pol next cur o state (generateNeighbour pop cur (source w)).2).1 in
  let chosen := if decision.1 then next else cur in
  match r with
  | Return c =>
      c = chosen /\ ge (fitness c) (fitness_success_threshold o) = true
  | Continue cur' best' state' =>
      cur' = chosen /\ state' = decision.2 /\
      ge (fitness cur') (fitness_success_threshold o) = false /\
      best' = (if improves fitness best cur' then Some cur' else best)
  end.
Proof.
  unfold iteration_body. intros H.
  rewrite (bind_eq _ _ _ _ _ (call_eq _ _ _)) in H.
  rewrite (bind_eq _ _ _ _ _ (call_eq _ _ _)) in H. simpl in H. simpl.
  destruct (accept pol _ cur o state _).1 as [a state''] eqn:Hacc. simpl.
  destruct (ge _ _) eqn:Hge.
  - inv_step H. auto.
  - destruct (improves fitness best _) eqn:Himp; inv_step H; rewrite ?Himp; auto.
Qed.

(** X10. After an iteration that does not return, [best] is set and is at
    least as fit as the current candidate, whatever the acceptance
    policy. *)
Theorem best_dominates_current (o : Options T R F)
    (pop : HillClimbingPopulator T R) (pol : Policy T R F) (cur : T)
    (best : option T) (state : State pol) (w : W)
    (cur' : T) (best' : option T) (state' : State pol) (w' : W) :
  StrictWeakOrder F ->
  iteration_body fitness o pop pol cur best state w
    = Val (Continue cur' best' state') w' ->
  exists b, best' = Some b /\ lt (fitness b) (fitness cur') = false.
Proof.
  intros HF Hbody. apply iteration_body_val in Hbody.
  destruct Hbody as (_ & _ & _ & ->).
  destruct (improves fitness best cur') eqn:Himp.
  - exists cur'. split; [reflexivity | apply (lt_irrefl F HF)].
  - destruct best as [b |]; [| discriminate]. exists b. split; [reflexivity | exact Himp].
Qed.

(** X11. With the acceptance of the base class, an iteration goes on with, or
    returns, the neighbour when the neighbour is strictly fitter than the
    current candidate, and the current candidate otherwise: the candidate
    never gets less fit. *)
Theorem base_acceptance_never_descends (o : Options T R F)
    (pop : HillClimbingPopulator T R) (cur : T) (best : option T) (w : W)
    (r : Step unit) (w' : W) :
  StrictWeakOrder F ->
  iteration_body fitness o pop (base_policy fitness) cur best tt w = Val r w' ->
  let next := (generateNeighbour pop cur (source w)).1 in
  let cur' := match r with Return c => c | Continue c _ _ => c end in
  cur' = (if lt (fitness cur) (fitness next) then next else cur) /\
  lt (fitness cur') (fitness cur) = false.
Proof.
  intros HF Hbody. apply iteration_body_val in Hbody. simpl in Hbody. simpl.
  unfold gt in Hbody.
  assert (Hcur : match r with Return c => c | Continue c _ _ => c end
                 = if lt (fitness cur)
                         (fitness (generateNeighbour pop cur (source w)).1)
                   then (generateNeighbour pop cur (source w)).1 else cur).
  { destruct r as [c | c b s]; [exact (proj1 Hbody) | exact (proj1 Hbody)]. }
  split; [exact Hcur |]. rewrite Hcur.
  destruct (lt (fitness cur) _) eqn:Hlt.
  - exact (lt_asym HF _ _ Hlt).
  - apply (lt_irrefl F HF).
Qed.

Lemma iterations_exit (o : Options T R F) (pop : HillClimbingPopulator T R)
    (pol : Policy T R F) (remaining : nat) (iteration : Z) (cur : T)
    (best : option T) (state : State pol) (w : W) (e : RoundExit) (w' : W) :
  below_threshold fitness o best ->
  iterations fitness o pop pol remaining iteration cur best state w = Val e w' ->
  match e with
  | Found _ c => ge (fitness c) (fitness_success_threshold o) = true
  | RoundOver best' => below_threshold fitness o best'
  end.
Proof.
  revert iteration cur best state w. induction remaining as [| remaining IH];
    intros iteration cur best state w Hbest Hrun.
  - simpl in Hrun. inv_step Hrun. exact Hbest.
  - simpl in Hrun. apply bind_val in Hrun. destruct Hrun as (r & w1 & Hbody & Hrun).
    apply iteration_body_val in Hbody. destruct r as [c | cur' best' state'].
    + inv_step Hrun. exact (proj2 Hbody).
    + destruct Hbody as (_ & _ & Hge & Hb).
      apply (IH _ _ _ _ _) in Hrun; [exact Hrun |].
      rewrite Hb. destruct (improves fitness best cur'); [exact Hge | exact Hbest].
Qed.

(** X12. A run that returns from an iteration returns a candidate that meets
    [fitness_success_threshold]; a run that exhausts its rounds returns a
    [best] that is null or below the threshold. *)
Theorem hill_climbing_exit_tells_the_threshold (o : Options T R F)
    (pop : HillClimbingPopulator T R) (pol : Policy T R F) (remaining : nat)
    (round : Z) (best : option T) (w : W) (e : Exit) (w' : W) :
  match best with
  | None => True
  | Some b => ge (fitness b) (fitness_success_threshold o) = false
  end ->
  rounds fitness o pop pol remaining round best w = Val e w' ->
  match e with
  | Solved _ _ c => ge (fitness c) (fitness_success_threshold o) = true
  | Exhausted None => True
  | Exhausted (Some b) => ge (fitness b) (fitness_success_threshold o) = false
  end.
Proof.
  revert round best w. induction remaining as [| remaining IH];
    intros round best w Hbest Hrun.
  - simpl in Hrun. inv_step Hrun. destruct best; exact Hbest.
  - simpl in Hrun. unfold round_body in Hrun.
    apply bind_val in Hrun. destruct Hrun as (r & w2 & Hbody & Hrun).
    apply bind_val in Hbody. destruct Hbody as ([state cur] & w1 & _ & Hits).
    apply (iterations_exit o pop pol _ _ _ best) in Hits; [| exact Hbest].
    destruct r as [it c | mid].
    + inv_step Hrun. exact Hits.
    + apply (IH _ mid _) in Hrun; [exact Hrun |]. destruct mid; exact Hits.
Qed.

End HillClimbingFurther.


(** * Further properties of the Sudoku populator *)

Section LoopRules.

Import GenSudokuBoardGAPopulator.

Lemma loop_invariant {St} (I : nat -> St -> Prop) (body : nat -> St -> St)
    (count first : nat) (st : St) :
  I first st ->
  (forall i s, (first <= i < first + count)%nat -> I i s -> I (S i) (body i s)) ->
  I (first + count)%nat (loop first count body st).
Proof.
  revert first st. induction count as [| count IH]; intros first st Hinit Hbody.
  - replace (first + 0)%nat with first by lia. exact Hinit.
  - simpl. replace (first + S count)%nat with (S first + count)%nat by lia.
    apply IH.
    + apply Hbody; [lia | exact Hinit].
    + intros i s Hi. apply Hbody. lia.
Qed.

Lemma loop_opt_returns {St} (I : nat -> St -> Prop) (body : nat -> St -> option St)
    (count first : nat) (st : St) :
  I first st ->
  (forall i s, (first <= i < first + count)%nat -> I i s ->
     exists s', body i s = Some s' /\ I (S i) s') ->
  exists st', loop_opt first count body st = Some st' /\ I (first + count)%nat st'.
Proof.
  revert first st. induction count as [| count IH]; intros first st Hinit Hbody.
  - exists st. replace (first + 0)%nat with first by lia. auto.
  - destruct (Hbody first st) as (s1 & Hb & HI); [lia | exact Hinit |].
    destruct (IH (S first) s1 HI) as (st' & Hrun & Hend).
    + intros i s Hi. apply Hbody. lia.
    + exists st'. simpl. rewrite Hb.
      replace (first + S count)%nat with (S first + count)%nat by lia. auto.
Qed.

Lemma bitset_test_replicate (n i : nat) : bitset_test (replicate n false) i = false.
Proof.
  unfold bitset_test. destruct (replicate n false !! i) as [x |] eqn:E; [| reflexivity].
  apply lookup_replicate in E. destruct E as [-> _]. reflexivity.
Qed.

Lemma bitset_test_set (bits : list bool) (i j : nat) :
  (i < length bits)%nat ->
  bitset_test (<[i := true]> bits) j = true <-> j = i \/ bitset_test bits j = true.
Proof.
  intros Hi. unfold bitset_test. destruct (decide (j = i)) as [-> | Hne].
  - rewrite list_lookup_insert_eq by exact Hi. simpl. tauto.
  - rewrite list_lookup_insert_ne by congruence. split; [auto | intros [? | ?]; [lia | auto]].
Qed.

End LoopRules.

Section InitializeProperties.

Variable NN : nat.
Variable partial_board : list Z.

Import GenSudokuBoardGAPopulator.

Local Abbreviation cv := (fun row col => cell partial_board (row * NN + col)).

Lemma row_cells_In (row : nat) (v : Z) :
  In v (row_cells NN partial_board row) <-> exists col, (col < NN)%nat /\ cv row col = v.
Proof.
  unfold row_cells. rewrite in_map_iff. split.
  - intros (col & Hv & Hin). apply in_seq in Hin. exists col. split; [lia | exact Hv].
  - intros (col & Hcol & Hv). exists col. split; [exact Hv | apply in_seq; lia].
Qed.

Lemma present_iff (row : nat) (v : Z) :
  existsb (Z.eqb v) (row_cells NN partial_board row) = true
  <-> exists col, (col < NN)%nat /\ cv row col = v.
Proof.
  rewrite existsb_exists. split.
  - intros (x & Hin & Heq). apply Z.eqb_eq in Heq. subst x.
    apply row_cells_In. exact Hin.
  - intros H. exists v. split; [apply row_cells_In; exact H | apply Z.eqb_refl].
Qed.

Lemma scan_cell_scanned (row c : nat) (sets : list bool * list bool) :
  (c < NN)%nat -> 0 <= cv row c <= Z.of_nat NN ->
  scanned NN partial_board row c sets ->
  exists sets', scan_cell NN partial_board row c sets = Some sets' /\
                scanned NN partial_board row (S c) sets'.
Proof.
  destruct sets as [ep pe]. intros Hc Hrange (Hlep & Hlpe & Hep & Hpe). simpl in *.
  unfold scan_cell. destruct (Z.eqb_spec (cv row c) 0) as [Hz | Hnz].
  - unfold bitset_set. destruct (Nat.ltb_spec c (length ep)); [| lia].
    eexists. split; [reflexivity |]. split; [| split; [| split]]; simpl.
    + rewrite length_insert. exact Hlep.
    + exact Hlpe.
    + intros j. rewrite bitset_test_set by lia. rewrite Hep.
      split; [intros [-> | [? ?]]; split; (lia || assumption) |].
      intros [Hj Hcj]. destruct (decide (j = c)); [left; assumption | right; split; [lia | exact Hcj]].
    + intros v. rewrite Hpe. split; intros (j & Hj & Hcj & Hv); exists j;
        (split; [| split; assumption]).
      * lia.
      * destruct (decide (j = c)) as [-> | ?]; [contradiction | lia].
  - unfold bitset_set.
    destruct (Nat.ltb_spec (Z.to_nat (cv row c)) (length pe)); [| lia].
    eexists. split; [reflexivity |]. split; [| split; [| split]]; simpl.
    + exact Hlep.
    + rewrite length_insert. exact Hlpe.
    + intros j. rewrite Hep. split; intros [Hj Hcj]; (split; [| exact Hcj]).
      * lia.
      * destruct (decide (j = c)) as [-> | ?]; [contradiction | lia].
    + intros v. rewrite bitset_test_set by lia. rewrite Hpe. split.
      * intros [-> | (j & Hj & Hcj & Hv)].
        -- exists c. split; [lia | split; [exact Hnz | reflexivity]].
        -- exists j. split; [lia | split; assumption].
      * intros (j & Hj & Hcj & Hv). destruct (decide (j = c)) as [-> | ?].
        -- left. symmetry. exact Hv.
        -- right. exists j. split; [lia | split; assumption].
Qed.

Lemma gather_loop (ep pe : list bool) :
  loop 0 NN (gather_col ep pe) ([], [])
  = (List.filter (bitset_test ep) (seq 0 NN),
     map (fun j => Z.of_nat (j + 1))
       (List.filter (fun j => negb (bitset_test pe (j + 1))) (seq 0 NN))).
Proof.
  pose (J := fun (c : nat) (found : list nat * list Z) =>
               found = (List.filter (bitset_test ep) (seq 0 c),
                        map (fun j => Z.of_nat (j + 1))
                          (List.filter (fun j => negb (bitset_test pe (j + 1)))
                             (seq 0 c)))).
  apply (loop_invariant J (gather_col ep pe) NN 0).
  - reflexivity.
  - intros c found _ ->. unfold J, gather_col.
    rewrite seq_S, !List.filter_app, map_app. simpl.
    destruct (bitset_test ep c), (bitset_test pe (c + 1)); simpl;
      rewrite ?app_nil_r; reflexivity.
Qed.

Lemma initialize_row_spec (row : nat) :
  (forall col, (col < NN)%nat -> 0 <= cv row col <= Z.of_nat NN) ->
  initialize_row NN partial_board row
  = Some (spec_empty_positions NN partial_board row,
          spec_missing_entries NN partial_board row).
Proof.
  intros Hrange. unfold initialize_row.
  destruct (loop_opt_returns (scanned NN partial_board row) (scan_cell NN partial_board row) NN 0
              (replicate NN false, replicate (NN + 1) false))
    as ([ep pe] & -> & Hlep & Hlpe & Hep & Hpe).
  - split; [apply length_replicate | split; [apply length_replicate | split]].
    + intros j. simpl. rewrite bitset_test_replicate. split; [discriminate | lia].
    + intros v. simpl. rewrite bitset_test_replicate.
      split; [discriminate | intros (j & Hj & _); lia].
  - intros c sets Hc Hsc. apply scan_cell_scanned; [lia | apply Hrange; lia | exact Hsc].
  - simpl in *. rewrite gather_loop. f_equal. f_equal.
    + unfold spec_empty_positions. apply filter_ext_in. intros col Hin.
      apply in_seq in Hin. apply eq_true_iff_eq. rewrite Hep, Z.eqb_eq. split; [tauto | intros ?; split; [lia | assumption]].
    + unfold spec_missing_entries. rewrite <- seq_shift, map_map, filter_map_swap.
      rewrite (filter_ext_in
                 (fun j => negb (existsb (Z.eqb (Z.of_nat (S j)))
                                   (row_cells NN partial_board row)))
                 (fun j => negb (bitset_test pe (j + 1)))).
      * apply map_ext. intros j. f_equal. lia.
      * intros j Hin. apply in_seq in Hin. f_equal. apply eq_true_iff_eq.
        rewrite present_iff, Hpe. split.
        -- intros (col & Hcol & Hv). exists col.
           split; [lia | split; [lia | lia]].
        -- intros (col & Hcol & Hnz & Hv). exists col. split; [lia |].
           specialize (Hrange col ltac:(lia)). lia.
Qed.

(** X13. What [initialize] computes for a row whose cells are 0 or entries up
    to [NN]: the empty positions of the row and the entries missing from
    it, each in increasing order. *)
Theorem initialize_row_finds_empty_and_missing (row : nat) :
  (forall col, (col < NN)%nat ->
     0 <= cell partial_board (row * NN + col) <= Z.of_nat NN) ->
  initialize_row NN partial_board row
  = Some (spec_empty_positions NN partial_board row,
          spec_missing_entries NN partial_board row).
Proof. exact (initialize_row_spec row). Qed.

Lemma initialize_spec :
  (forall row col, (row < NN)%nat -> (col < NN)%nat -> 0 <= cv row col <= Z.of_nat NN) ->
  initialize NN partial_board
  = Some (map (spec_empty_positions NN partial_board) (seq 0 NN),
          map (spec_missing_entries NN partial_board) (seq 0 NN)).
Proof.
  intros Hrange. unfold initialize.
  destruct (loop_opt_returns
              (fun (r : nat) (tables : list (list nat) * list (list Z)) =>
                 tables = (map (spec_empty_positions NN partial_board) (seq 0 r),
                           map (spec_missing_entries NN partial_board) (seq 0 r)))
              (initialize_body NN partial_board) NN 0 ([], []))
    as (tables & -> & ->); [reflexivity | | reflexivity].
  intros row tables Hrow ->. unfold initialize_body.
  rewrite initialize_row_spec by (intros col Hcol; apply Hrange; lia).
  eexists. split; [reflexivity |]. rewrite seq_S, !map_app. reflexivity.
Qed.




(** *** The assertion of [initialize] *)

Lemma valid_row_counts (row : nat) :
  row_valid NN partial_board row ->
  length (spec_empty_positions NN partial_board row)
  = length (spec_missing_entries NN partial_board row).
Proof.
  intros [Hrange Hdistinct].
  set (nz := List.filter (fun col => negb (cv row col =? 0)) (seq 0 NN)).
  set (present := fun v => existsb (Z.eqb v) (row_cells NN partial_board row)).
  set (values := map Z.of_nat (seq 1 NN)).
  set (pv := List.filter present values).
  assert (Hzeros : (length (spec_empty_positions NN partial_board row) + length nz
                    = NN)%nat).
  { unfold spec_empty_positions, nz. rewrite filter_length, length_seq. reflexivity. }
  assert (Hmissing : (length pv + length (spec_missing_entries NN partial_board row)
                      = NN)%nat).
  { unfold spec_missing_entries, pv. fold present. fold values.
    rewrite filter_length. unfold values. rewrite length_map, length_seq. reflexivity. }
  assert (Hnz : forall col, In col nz <-> (col < NN)%nat /\ cv row col <> 0).
  { intros col. unfold nz. rewrite filter_In, in_seq, negb_true_iff, Z.eqb_neq. lia. }
  assert (Hperm : Permutation pv (map (cv row) nz)).
  { apply NoDup_Permutation.
    - unfold pv, values. apply NoDup_ListNoDup, List.NoDup_filter, NoDup_ListNoDup.
      apply (NoDup_fmap_2 Z.of_nat). apply NoDup_seq.
    - apply NoDup_fmap_2_strong;
        [| unfold nz; apply NoDup_ListNoDup, List.NoDup_filter, NoDup_ListNoDup, NoDup_seq].
      intros x y Hx Hy Heq. apply list_elem_of_In, Hnz in Hx. apply list_elem_of_In, Hnz in Hy.
      apply (Hdistinct x y); tauto.
    - intros x. rewrite !list_elem_of_In. unfold pv, values.
      rewrite filter_In, !in_map_iff. unfold present. rewrite present_iff. split.
      + intros [(n & Hn & Hin) (col & Hcol & Hv)]. apply in_seq in Hin.
        exists col. split; [exact Hv |]. apply Hnz. split; [exact Hcol | lia].
      + intros (col & Hv & Hin). apply Hnz in Hin. destruct Hin as [Hcol Hne].
        specialize (Hrange col Hcol). simpl in Hrange. split.
        * exists (Z.to_nat x). split; [lia | apply in_seq; lia].
        * exists col. split; assumption. }
  apply Permutation_length in Hperm. rewrite length_map in Hperm. lia.
Qed.

(** X16. The condition of the [assert] of [initialize] holds for a row whose
    cells are 0 or entries up to [NN], no entry twice: the row has as many
    empty positions as missing entries. *)
Theorem initialize_assertion_holds (row : nat) (rEmptyPositions : list nat)
    (rMissingEntries : list Z) :
  row_valid NN partial_board row ->
  initialize_row NN partial_board row = Some (rEmptyPositions, rMissingEntries) ->
  length rEmptyPositions = length rMissingEntries.
Proof.
  intros Hvalid Hrow. rewrite initialize_row_spec in Hrow by exact (proj1 Hvalid).
  injection Hrow as <- <-. exact (valid_row_counts row Hvalid).
Qed.

Lemma initialize_asserting_spec :
  (forall row, (row < NN)%nat -> row_valid NN partial_board row) ->
  initialize_asserting NN partial_board
  = Done (map (spec_empty_positions NN partial_board) (seq 0 NN),
          map (spec_missing_entries NN partial_board) (seq 0 NN)).
Proof.
  intros Hvalid. unfold initialize_asserting.
  assert (Hloop : forall count first tables,
            (first + count <= NN)%nat ->
            loop_checked first count (initialize_body_asserting NN partial_board) tables
            = Done (tables.1 ++ map (spec_empty_positions NN partial_board)
                                  (seq first count),
                    tables.2 ++ map (spec_missing_entries NN partial_board)
                                  (seq first count))).
  { induction count as [| count IH]; intros first [empties missing] Hle.
    - simpl. rewrite !app_nil_r. reflexivity.
    - simpl. rewrite (initialize_row_spec first)
        by exact (proj1 (Hvalid first ltac:(lia))).
      rewrite (valid_row_counts first (Hvalid first ltac:(lia))), Nat.eqb_refl.
      rewrite IH by lia. simpl. rewrite <- !app_assoc. reflexivity. }
  rewrite Hloop by lia. reflexivity.
Qed.

Lemma initialize_asserting_aborts :
  (forall row col, (row < NN)%nat -> (col < NN)%nat -> 0 <= cv row col <= Z.of_nat NN) ->
  (exists row, (row < NN)%nat /\
     length (spec_empty_positions NN partial_board row)
     <> length (spec_missing_entries NN partial_board row)) ->
  initialize_asserting NN partial_board = Aborted.
Proof.
  intros Hrange Hbad. unfold initialize_asserting.
  assert (Hloop : forall count first tables,
            (first + count <= NN)%nat ->
            (exists row, (first <= row < first + count)%nat /\
               length (spec_empty_positions NN partial_board row)
               <> length (spec_missing_entries NN partial_board row)) ->
            loop_checked first count (initialize_body_asserting NN partial_board) tables
            = Aborted).
  { induction count as [| count IH]; intros first [empties missing] Hle (row & Hrow & Hne).
    - lia.
    - simpl. rewrite (initialize_row_spec first)
        by (intros col Hcol; apply Hrange; lia).
      destruct (Nat.eqb_spec (length (spec_empty_positions NN partial_board first))
                  (length (spec_missing_entries NN partial_board first)))
        as [Heq | _]; [| reflexivity].
      apply IH; [lia |]. exists row. split; [| exact Hne].
      destruct (decide (row = first)) as [-> | ?]; [contradiction | lia]. }
  destruct Hbad as (row & Hrow & Hne). apply Hloop; [lia |].
  exists row. split; [lia | exact Hne].
Qed.

(** X14. [initialize] on a board whose cells are 0 or entries up to [NN], no
    entry twice in a row, computes, row after row, the empty positions and
    the missing entries: in a build with [NDEBUG], and in a build that
    checks assertions, where the [assert] of each row holds.  On a board
    whose cells are 0 or entries up to [NN] and in which some row has not
    as many empty positions as missing entries, the build that checks
    assertions aborts, and the build with [NDEBUG] leaves the tables all
    the same. *)
Theorem initialize_builds_the_tables :
  ((forall row, (row < NN)%nat -> row_valid NN partial_board row) ->
   initialize NN partial_board
   = Some (map (spec_empty_positions NN partial_board) (seq 0 NN),
           map (spec_missing_entries NN partial_board) (seq 0 NN)) /\
   initialize_asserting NN partial_board
   = Done (map (spec_empty_positions NN partial_board) (seq 0 NN),
           map (spec_missing_entries NN partial_board) (seq 0 NN))) /\
  ((forall row col, (row < NN)%nat -> (col < NN)%nat ->
      0 <= cell partial_board (row * NN + col) <= Z.of_nat NN) ->
   (exists row, (row < NN)%nat /\
      length (spec_empty_positions NN partial_board row)
      <> length (spec_missing_entries NN partial_board row)) ->
   initialize NN partial_board
   = Some (map (spec_empty_positions NN partial_board) (seq 0 NN),
           map (spec_missing_entries NN partial_board) (seq 0 NN)) /\
   initialize_asserting NN partial_board = Aborted).
Proof.
  split.
  - intros Hvalid. split.
    + apply initialize_spec. intros row col Hrow Hcol.
      exact (proj1 (Hvalid row Hrow) col Hcol).
    + exact (initialize_asserting_spec Hvalid).
  - intros Hrange Hbad. split.
    + exact (initialize_spec Hrange).
    + exact (initialize_asserting_aborts Hrange Hbad).
Qed.

End InitializeProperties.

Section FillRowProperties.

Context {G : Type}.
Variable NN : nat.
Variable std_shuffle : list Z -> G -> list Z * G.
Variable uniform_row : G -> nat * G.
Variable cell_candidates : list (list Z).

Import GenSudokuBoardGAPopulator.

Lemma place_val (empties : list (list nat)) (row : nat) (positions : list nat) :
  empties !! row = Some positions -> NoDup positions ->
  forall (entries : list Z) (col : nat) (b b' : list Z) (flag : bool),
    place NN cell_candidates empties row col entries b = Some (b', flag) ->
    length b' = length b /\
    (forall k, (forall i p, (col <= i)%nat -> positions !! i = Some p ->
                  k <> (row * NN + p)%nat) ->
       b' !! k = b !! k) /\
    (flag = true ->
     forall i e, entries !! i = Some e ->
       exists p cs, positions !! (col + i)%nat = Some p /\
                    b' !! (row * NN + p)%nat = Some e /\
                    cell_candidates !! (row * NN + p)%nat = Some cs /\
                    In e cs).
Proof.
  intros Hrow Hnodup. induction entries as [| e rest IH]; intros col b b' flag Hplace.
  - simpl in Hplace. injection Hplace as <- <-.
    split; [reflexivity | split; [reflexivity |]].
    intros _ i e Hi. rewrite lookup_nil in Hi. discriminate.
  - simpl in Hplace. rewrite Hrow in Hplace.
    destruct (positions !! col) as [p |] eqn:Hp; [| discriminate].
    destruct (cell_candidates !! (row * NN + p)%nat) as [cs |] eqn:Hcs; [| discriminate].
    destruct (existsb (Z.eqb e) cs) eqn:Hfound.
    + destruct (Nat.ltb_spec (row * NN + p) (length b)) as [Hlt |]; [| discriminate].
      apply IH in Hplace. destruct Hplace as (Hlen & Hkeep & Hplaced).
      rewrite length_insert in Hlen.
      assert (Hhere : b' !! (row * NN + p)%nat = Some e).
      { rewrite Hkeep; [apply list_lookup_insert_eq; exact Hlt |].
        intros i p' Hi Hp' Heq. assert (p' = p) as -> by lia.
        pose proof (proj1 (NoDup_alt positions) Hnodup i col p Hp' Hp). lia. }
      split; [exact Hlen | split].
      * intros k Hk. rewrite Hkeep.
        -- apply list_lookup_insert_ne. specialize (Hk col p ltac:(lia) Hp). lia.
        -- intros i p' Hi. apply Hk. lia.
      * intros Hflag [| i] x Hx.
        -- simpl in Hx. injection Hx as <-. exists p, cs.
           replace (col + 0)%nat with col by lia.
           split; [exact Hp | split; [exact Hhere | split; [exact Hcs |]]].
           apply existsb_exists in Hfound. destruct Hfound as (y & Hy & Heq).
           apply Z.eqb_eq in Heq. subst y. exact Hy.
        -- simpl in Hx. replace (col + S i)%nat with (S col + i)%nat by lia.
           apply (Hplaced Hflag i x Hx).
    + injection Hplace as <- <-. split; [reflexivity | split; [reflexivity |]].
      discriminate.
Qed.

Lemma shuffle_entries_val (row : nat) (s : State G) (shuffled : list Z)
    (s1 : State G) :
  shuffle_entries std_shuffle row s = Val shuffled s1 ->
  exists entries,
    rowMissingEntries s !! row = Some entries /\
    shuffled = (std_shuffle entries (gen s)).1 /\
    gen s1 = (std_shuffle entries (gen s)).2 /\
    rowEmptyPositions s1 = rowEmptyPositions s /\
    rowMissingEntries s1 = <[row := shuffled]> (rowMissingEntries s).
Proof.
  unfold shuffle_entries. destruct (rowMissingEntries s !! row) as [entries |];
    [| discriminate].
  destruct (std_shuffle entries (gen s)) as [entries' gen'] eqn:Hsh.
  intros H. injection H as <- <-. exists entries. rewrite Hsh. simpl.
  repeat split; reflexivity.
Qed.

Lemma fillRow_val (fuel : nat) :
  shuffle_permutes std_shuffle ->
  forall (b : list Z) (row : nat) (s : State G) (positions : list nat)
         (entries : list Z) (b' : list Z) (s' : State G),
    rowEmptyPositions s !! row = Some positions -> NoDup positions ->
    rowMissingEntries s !! row = Some entries ->
    fillRow NN std_shuffle cell_candidates fuel b row s = Val (Some b') s' ->
    length b' = length b /\
    rowEmptyPositions s' = rowEmptyPositions s /\
    (exists entries',
       rowMissingEntries s' = <[row := entries']> (rowMissingEntries s) /\
       Permutation entries' entries /\
       forall i e, entries' !! i = Some e ->
         exists p cs, positions !! i = Some p /\
                      b' !! (row * NN + p)%nat = Some e /\
                      cell_candidates !! (row * NN + p)%nat = Some cs /\
                      In e cs) /\
    (forall k, (forall p, In p positions -> k <> (row * NN + p)%nat) ->
       b' !! k = b !! k).
Proof.
  intros Hshuffle. induction fuel as [| fuel IH];
    intros b row s positions entries b' s' Hpos Hnodup Hent Hrun.
  - simpl in Hrun. discriminate Hrun.
  - simpl in Hrun. apply bind_val in Hrun.
    destruct Hrun as (shuffled & s1 & Hsh & Hrun).
    apply shuffle_entries_val in Hsh.
    destruct Hsh as (entries0 & Hent0 & Hshuffled & _ & Hemp1 & Hmiss1).
    rewrite Hent in Hent0. injection Hent0 as <-.
    assert (Hperm : Permutation shuffled entries)
      by (rewrite Hshuffled; apply Hshuffle).
    apply bind_val in Hrun. destruct Hrun as (empties & s2 & Hread & Hrun).
    injection Hread as <- <-.
    destruct (place NN cell_candidates (rowEmptyPositions s1) row 0 shuffled b)
      as [[b1 flag] |] eqn:Hplace; [| discriminate].
    assert (Hpos1 : rowEmptyPositions s1 !! row = Some positions)
      by (rewrite Hemp1; exact Hpos).
    destruct (place_val _ row positions Hpos1 Hnodup _ _ _ _ _ Hplace)
      as (Hlen1 & Hkeep1 & Hplaced1).
    assert (Hkeep1' : forall k, (forall p, In p positions -> k <> (row * NN + p)%nat) ->
                        b1 !! k = b !! k).
    { intros k Hk. apply Hkeep1. intros i p _ Hp. apply Hk.
      apply list_elem_of_In, list_elem_of_lookup. exists i. exact Hp. }
    destruct flag.
    + unfold ret in Hrun. injection Hrun as <- <-.
      split; [exact Hlen1 | split; [exact Hemp1 | split; [| exact Hkeep1']]].
      exists shuffled. split; [exact Hmiss1 | split; [exact Hperm |]].
      intros i e Hi. exact (Hplaced1 eq_refl i e Hi).
    + assert (Hent1 : rowMissingEntries s1 !! row = Some shuffled).
      { rewrite Hmiss1. apply list_lookup_insert_eq.
        exact (lookup_lt_Some _ _ _ Hent). }
      destruct (IH b1 row s1 positions shuffled b' s' Hpos1 Hnodup Hent1 Hrun)
        as (Hlen & Hemp & (entries' & Hmiss & Hperm' & Hplaced) & Hkeep).
      split; [lia | split; [congruence | split]].
      * exists entries'. split; [| split; [| exact Hplaced]].
        -- rewrite Hmiss, Hmiss1. apply list_insert_insert_eq.
        -- exact (Permutation_trans Hperm' Hperm).
      * intros k Hk. rewrite (Hkeep k Hk). exact (Hkeep1' k Hk).
Qed.

(** X17. When [fillRow] returns: the board has the size it had; the cells
    outside the empty positions of the row are untouched; the missing
    entries of the row are a permutation of what they were, and the entry
    at index [i] is in the cell of the [i]-th empty position of the row and
    is one of the candidates of that cell; the tables of the other rows
    are untouched. *)
Theorem fillRow_fills_the_row (fuel : nat) (b : list Z) (row : nat) (s : State G)
    (positions : list nat) (entries : list Z) (b' : list Z) (s' : State G) :
  shuffle_permutes std_shuffle ->
  rowEmptyPositions s !! row = Some positions -> NoDup positions ->
  rowMissingEntries s !! row = Some entries ->
  fillRow NN std_shuffle cell_candidates fuel b row s = Val (Some b') s' ->
  length b' = length b /\
  rowEmptyPositions s' = rowEmptyPositions s /\
  (exists entries',
     rowMissingEntries s' = <[row := entries']> (rowMissingEntries s) /\
     Permutation entries' entries /\
     forall i e, entries' !! i = Some e ->
       exists p cs, positions !! i = Some p /\
                    b' !! (row * NN + p)%nat = Some e /\
                    cell_candidates !! (row * NN + p)%nat = Some cs /\
                    In e cs) /\
  (forall k, (forall p, In p positions -> k <> (row * NN + p)%nat) ->
     b' !! k = b !! k).
Proof. intros Hshuffle. exact (fillRow_val fuel Hshuffle b row s positions entries b' s'). Qed.

End FillRowProperties.

(** * [generate] *)

Section GenerateProperties.

Context {G : Type}.
Variable NN : nat.
Variable std_shuffle : list Z -> G -> list Z * G.
Variable partial_board : list Z.
Variable cell_candidates : list (list Z).

Import GenSudokuBoardGAPopulator.

Local Abbreviation cv := (fun row col => cell partial_board (row * NN + col)).
Local Abbreviation empties := (spec_empty_positions NN partial_board).
Local Abbreviation missing := (spec_missing_entries NN partial_board).

Lemma spec_empty_In (row col : nat) :
  In col (empties row) <-> (col < NN)%nat /\ cv row col = 0.
Proof.
  unfold spec_empty_positions. rewrite filter_In, in_seq, Z.eqb_eq. lia.
Qed.

Lemma spec_empty_NoDup (row : nat) : NoDup (empties row).
Proof.
  unfold spec_empty_positions.
  apply NoDup_ListNoDup, List.NoDup_filter, NoDup_ListNoDup, NoDup_seq.
Qed.

Lemma spec_missing_NoDup (row : nat) : NoDup (missing row).
Proof.
  unfold spec_missing_entries.
  apply NoDup_ListNoDup, List.NoDup_filter, NoDup_ListNoDup.
  apply (NoDup_fmap_2 Z.of_nat). apply NoDup_seq.
Qed.

Lemma table_lookup {A} (f : nat -> A) (n row : nat) :
  (row < n)%nat -> map f (seq 0 n) !! row = Some (f row).
Proof.
  intros H. change (map f (seq 0 n)) with (f <$> seq 0 n).
  rewrite list_lookup_fmap, lookup_seq_lt by exact H. reflexivity.
Qed.

Lemma cell_index_inj (r c r' c' : nat) :
  (c < NN)%nat -> (c' < NN)%nat -> (r * NN + c = r' * NN + c')%nat ->
  r = r' /\ c = c'.
Proof.
  intros Hc Hc' Heq.
  assert (Hr : ((r * NN + c) / NN = r)%nat)
    by (rewrite Nat.div_add_l, Nat.div_small by lia; lia).
  assert (Hr' : ((r' * NN + c') / NN = r')%nat)
    by (rewrite Nat.div_add_l, Nat.div_small by lia; lia).
  rewrite Heq, Hr' in Hr. subst r'. split; [reflexivity | lia].
Qed.

(** The rows [row], ..., [row + count - 1] are filled, the others are
    left alone, and the tables stay those of [initialize]. *)
Lemma fill_rows_val (fuel : nat) :
  shuffle_permutes std_shuffle ->
  forall (count row : nat) (b : list Z) (s : State G) (b' : list Z) (s' : State G),
    (row + count <= NN)%nat ->
    initialized NN partial_board s ->
    fill_rows NN std_shuffle cell_candidates fuel row count b s = Val (Some b') s' ->
    initialized NN partial_board s' /\
    length b' = length b /\
    (forall r col, (r < row \/ row + count <= r)%nat -> (col < NN)%nat ->
       b' !! (r * NN + col)%nat = b !! (r * NN + col)%nat) /\
    (forall r, (row <= r < row + count)%nat ->
       exists entries, Permutation entries (missing r) /\
                       row_filled NN partial_board cell_candidates r entries b b').
Proof.
  intros Hshuffle. induction count as [| count IH];
    intros row b s b' s' Hrow Hinit Hrun.
  - simpl in Hrun. unfold ret in Hrun. injection Hrun as <- <-.
    split; [exact Hinit | split; [reflexivity | split; [reflexivity |]]].
    intros r Hr. lia.
  - simpl in Hrun. apply bind_val in Hrun.
    destruct Hrun as (filled & s1 & Hfill & Hrun).
    destruct filled as [b1 |]; [| unfold ret in Hrun; discriminate Hrun].
    destruct Hinit as (Hemp & Hlen & Hmiss).
    assert (Hpos : rowEmptyPositions s !! row = Some (empties row))
      by (rewrite Hemp; apply table_lookup; lia).
    destruct (lookup_lt_is_Some_2 (rowMissingEntries s) row) as [entries Hent];
      [lia |].
    destruct (fillRow_val NN std_shuffle cell_candidates fuel Hshuffle b row s
                (empties row) entries b1 s1 Hpos (spec_empty_NoDup row) Hent Hfill)
      as (Hlen1 & Hemp1 & (entries' & Hmiss1 & Hperm & Hplaced) & Hkeep).
    assert (Hperm' : Permutation entries' (missing row))
      by exact (Permutation_trans Hperm (Hmiss row entries Hent)).
    assert (Hinit1 : initialized NN partial_board s1).
    { split; [congruence | split].
      - rewrite Hmiss1, length_insert. exact Hlen.
      - intros r es Hr. rewrite Hmiss1 in Hr.
        destruct (decide (r = row)) as [-> | Hne].
        + rewrite list_lookup_insert_eq in Hr by lia. injection Hr as <-. exact Hperm'.
        + rewrite list_lookup_insert_ne in Hr by congruence. exact (Hmiss r es Hr). }
    destruct (IH (S row) b1 s1 b' s' ltac:(lia) Hinit1 Hrun)
      as (Hinit' & Hlen' & Hout & Hin).
    assert (Hother : forall r col, r <> row -> (col < NN)%nat ->
                       b1 !! (r * NN + col)%nat = b !! (r * NN + col)%nat).
    { intros r col Hne Hcol. apply Hkeep. intros p Hp Heq.
      apply spec_empty_In in Hp. destruct Hp as [Hp _].
      destruct (cell_index_inj r col row p Hcol Hp Heq). contradiction. }
    assert (Hgiven : forall col, (col < NN)%nat -> cv row col <> 0 ->
                       b1 !! (row * NN + col)%nat = b !! (row * NN + col)%nat).
    { intros col Hcol Hnz. apply Hkeep. intros p Hp Heq.
      apply spec_empty_In in Hp. destruct Hp as [Hp Hz].
      destruct (cell_index_inj row col row p Hcol Hp Heq) as [_ ->]. contradiction. }
    split; [exact Hinit' | split; [lia | split]].
    + intros r col Hr Hcol. rewrite Hout by (try lia; exact Hcol).
      apply Hother; [lia | exact Hcol].
    + intros r Hr. destruct (decide (r = row)) as [-> | Hne].
      * exists entries'. split; [exact Hperm' | split].
        -- intros i e Hi. destruct (Hplaced i e Hi) as (p & cs & Hp & Hb & Hcs & He).
           exists p, cs. split; [exact Hp | split; [| split; assumption]].
           assert (Hpn : (p < NN)%nat).
           { apply (spec_empty_In row p), list_elem_of_In, list_elem_of_lookup.
             exists i. exact Hp. }
           rewrite Hout by (try lia; exact Hpn). exact Hb.
        -- intros col Hcol Hnz. rewrite Hout by (try lia; exact Hcol).
           apply Hgiven; assumption.
      * destruct (Hin r ltac:(lia)) as (es & Hes & Hplaced' & Hgiven').
        exists es. split; [exact Hes | split; [exact Hplaced' |]].
        intros col Hcol Hnz. rewrite (Hgiven' col Hcol Hnz).
        apply Hother; [exact Hne | exact Hcol].
Qed.

(** An empty cell of a filled row holds one of the entries. *)
Lemma filled_empty_cell (row : nat) (entries : list Z) (b b' : list Z) :
  row_valid NN partial_board row ->
  Permutation entries (missing row) ->
  row_filled NN partial_board cell_candidates row entries b b' ->
  forall col, (col < NN)%nat -> cv row col = 0 ->
    exists e cs, b' !! (row * NN + col)%nat = Some e /\ In e (missing row) /\
                 cell_candidates !! (row * NN + col)%nat = Some cs /\ In e cs.
Proof.
  intros Hvalid Hperm [Hplaced _] col Hcol Hz.
  assert (Hin : In col (empties row)) by (apply spec_empty_In; split; assumption).
  apply list_elem_of_In, list_elem_of_lookup in Hin. destruct Hin as [i Hi].
  assert (Hlt : (i < length entries)%nat).
  { rewrite (Permutation_length Hperm), <- (valid_row_counts NN partial_board row Hvalid).
    exact (lookup_lt_Some _ _ _ Hi). }
  destruct (lookup_lt_is_Some_2 entries i Hlt) as [e He].
  destruct (Hplaced i e He) as (p & cs & Hp & Hb & Hcs & Hecs).
  rewrite Hi in Hp. injection Hp as <-.
  exists e, cs. split; [exact Hb | split; [| split; assumption]].
  apply (Permutation_in e Hperm). apply list_elem_of_In, list_elem_of_lookup.
  exists i. exact He.
Qed.

Lemma generate_val (fuel : nat) (s : State G) (b : list Z) (s' : State G) :
  shuffle_permutes std_shuffle ->
  initialized NN partial_board s ->
  generate NN std_shuffle partial_board cell_candidates fuel s = Val (Some b) s' ->
  initialized NN partial_board s' /\
  length b = length partial_board /\
  forall r, (r < NN)%nat ->
    exists entries, Permutation entries (missing r) /\
      row_filled NN partial_board cell_candidates r entries partial_board b.
Proof.
  intros Hshuffle Hinit Hrun. unfold generate in Hrun.
  destruct (fill_rows_val fuel Hshuffle NN 0 partial_board s b s' ltac:(lia) Hinit Hrun)
    as (Hinit' & Hlen & _ & Hrows).
  split; [exact Hinit' | split; [exact Hlen |]].
  intros r Hr. apply Hrows. lia.
Qed.

(** X19. A board that [generate] returns has the cells that the partial board
    gives, and in each empty cell an entry that is missing from the row in
    the partial board and is one of the candidates of the cell; the tables
    are still those of [initialize]. *)
Theorem generate_keeps_the_givens_and_fills_with_candidates
    (fuel : nat) (s : State G) (b : list Z) (s' : State G) :
  shuffle_permutes std_shuffle ->
  (forall row, (row < NN)%nat -> row_valid NN partial_board row) ->
  initialized NN partial_board s ->
  generate NN std_shuffle partial_board cell_candidates fuel s = Val (Some b) s' ->
  length b = length partial_board /\
  initialized NN partial_board s' /\
  forall row col, (row < NN)%nat -> (col < NN)%nat ->
    (cell partial_board (row * NN + col) <> 0 ->
     b !! (row * NN + col)%nat = partial_board !! (row * NN + col)%nat) /\
    (cell partial_board (row * NN + col) = 0 ->
     exists e cs, b !! (row * NN + col)%nat = Some e /\
                  In e (spec_missing_entries NN partial_board row) /\
                  cell_candidates !! (row * NN + col)%nat = Some cs /\ In e cs).
Proof.
  intros Hshuffle Hvalid Hinit Hrun.
  destruct (generate_val fuel s b s' Hshuffle Hinit Hrun) as (Hinit' & Hlen & Hrows).
  split; [exact Hlen | split; [exact Hinit' |]].
  intros row col Hrow Hcol. destruct (Hrows row Hrow) as (entries & Hperm & Hfilled).
  split.
  - intros Hnz. exact (proj2 Hfilled col Hcol Hnz).
  - intros Hz.
    exact (filled_empty_cell row entries partial_board b (Hvalid row Hrow) Hperm
             Hfilled col Hcol Hz).
Qed.

(** X20. Every row of a board that [generate] returns is a permutation of
    1, ..., [NN], when no row of the partial board has an entry twice. *)
Theorem generate_rows_are_permutations
    (fuel : nat) (s : State G) (b : list Z) (s' : State G) :
  shuffle_permutes std_shuffle ->
  (forall row, (row < NN)%nat -> row_valid NN partial_board row) ->
  length partial_board = (NN * NN)%nat ->
  initialized NN partial_board s ->
  generate NN std_shuffle partial_board cell_candidates fuel s = Val (Some b) s' ->
  forall r, (r < NN)%nat -> Permutation (row NN r b) (map Z.of_nat (seq 1 NN)).
Proof.
  intros Hshuffle Hvalid Hboard Hinit Hrun r Hr.
  destruct (generate_val fuel s b s' Hshuffle Hinit Hrun) as (_ & Hlen & Hrows).
  destruct (Hrows r Hr) as (entries & Hperm & Hplaced & Hgiven).
  assert (Hcell : forall col, (col < NN)%nat ->
                    row NN r b !! col = b !! (r * NN + col)%nat).
  { intros col Hcol. unfold row. rewrite lookup_take_lt by exact Hcol.
    apply lookup_drop. }
  assert (Hrowlen : length (row NN r b) = NN).
  { unfold row. rewrite length_take, length_drop. nia. }
  symmetry. apply submseteq_length_Permutation.
  - apply NoDup_submseteq.
    + apply (NoDup_fmap_2 Z.of_nat). apply NoDup_seq.
    + intros v Hv.
      destruct (existsb (Z.eqb v) (row_cells NN partial_board r)) eqn:Hpresent.
      * apply present_iff in Hpresent. destruct Hpresent as (col & Hcol & Hcv).
        apply list_elem_of_In, in_map_iff in Hv. destruct Hv as (n & Hn & Hin).
        apply in_seq in Hin.
        assert (Hnz : cv r col <> 0) by lia.
        apply list_elem_of_lookup. exists col.
        rewrite (Hcell col Hcol), (Hgiven col Hcol Hnz).
        rewrite <- cell_lookup by nia. f_equal. exact Hcv.
      * assert (Hmiss : In v (missing r)).
        { unfold spec_missing_entries. apply filter_In. split.
          - apply list_elem_of_In. exact Hv.
          - rewrite Hpresent. reflexivity. }
        apply (Permutation_in v (Permutation_sym Hperm)) in Hmiss.
        apply list_elem_of_In, list_elem_of_lookup in Hmiss. destruct Hmiss as [i Hi].
        destruct (Hplaced i v Hi) as (p & cs & Hp & Hb & _).
        assert (Hpn : (p < NN)%nat).
        { apply (spec_empty_In r p), list_elem_of_In, list_elem_of_lookup.
          exists i. exact Hp. }
        apply list_elem_of_lookup. exists p. rewrite (Hcell p Hpn). exact Hb.
  - rewrite Hrowlen. change (map Z.of_nat (seq 1 NN)) with (Z.of_nat <$> seq 1 NN).
    rewrite length_fmap, length_seq. lia.
Qed.

(** [fillRow] on a row without missing entries returns the board at the
    first turn. *)
Lemma fillRow_nothing_missing (fuel : nat) (b : list Z) (row : nat) (s : State G) :
  shuffle_permutes std_shuffle ->
  rowMissingEntries s !! row = Some [] ->
  exists g, fillRow NN std_shuffle cell_candidates (S fuel) b row s
            = Val (Some b) {| gen := g; rowEmptyPositions := rowEmptyPositions s;
                              rowMissingEntries := rowMissingEntries s |}.
Proof.
  intros Hshuffle Hent. simpl. unfold bind, shuffle_entries. rewrite Hent.
  pose proof (Hshuffle [] (gen s)) as Hperm.
  destruct (std_shuffle [] (gen s)) as [entries' g'] eqn:Hsh. simpl in Hperm.
  apply Permutation_nil_r in Hperm. subst entries'. simpl.
  exists g'. rewrite list_insert_id by exact Hent. reflexivity.
Qed.

Lemma fill_rows_nothing_missing (fuel : nat) :
  shuffle_permutes std_shuffle ->
  forall (count row : nat) (b : list Z) (s : State G),
    (forall r, (row <= r < row + count)%nat -> rowMissingEntries s !! r = Some []) ->
    exists g, fill_rows NN std_shuffle cell_candidates (S fuel) row count b s
              = Val (Some b) {| gen := g; rowEmptyPositions := rowEmptyPositions s;
                                rowMissingEntries := rowMissingEntries s |}.
Proof.
  intros Hshuffle. induction count as [| count IH]; intros row b s Hnone.
  - exists (gen s). simpl. unfold ret. destruct s; reflexivity.
  - destruct (fillRow_nothing_missing fuel b row s Hshuffle (Hnone row ltac:(lia)))
      as [g1 Hfill].
    destruct (IH (S row) b
                {| gen := g1; rowEmptyPositions := rowEmptyPositions s;
                   rowMissingEntries := rowMissingEntries s |})
      as [g2 Hrest]; [intros r Hr; apply Hnone; lia |].
    exists g2. cbn [fill_rows]. rewrite (bind_eq _ _ _ _ _ Hfill). exact Hrest.
Qed.

(** X21. [generate] on a partial board without an empty cell, no entry twice
    in a row, returns the partial board itself, whatever the fuel, and
    leaves the tables as they are. *)
Theorem generate_returns_a_complete_board (fuel : nat) (s : State G) :
  shuffle_permutes std_shuffle ->
  (forall row, (row < NN)%nat -> row_valid NN partial_board row) ->
  (forall row col, (row < NN)%nat -> (col < NN)%nat ->
     cell partial_board (row * NN + col) <> 0) ->
  initialized NN partial_board s ->
  exists g, generate NN std_shuffle partial_board cell_candidates (S fuel) s
            = Val (Some partial_board)
                {| gen := g; rowEmptyPositions := rowEmptyPositions s;
                   rowMissingEntries := rowMissingEntries s |}.
Proof.
  intros Hshuffle Hvalid Hfull (Hemp & Hlen & Hmiss). unfold generate.
  apply (fill_rows_nothing_missing fuel Hshuffle). intros r Hr.
  destruct (lookup_lt_is_Some_2 (rowMissingEntries s) r) as [entries Hent]; [lia |].
  rewrite Hent. f_equal.
  assert (Hnone : empties r = []).
  { destruct (empties r) as [| p ps] eqn:E; [reflexivity |].
    assert (Hin : In p (empties r)) by (rewrite E; left; reflexivity).
    apply spec_empty_In in Hin. destruct Hin as [Hp Hz].
    destruct (Hfull r p ltac:(lia) Hp Hz). }
  pose proof (valid_row_counts NN partial_board r (Hvalid r ltac:(lia))) as Hcount.
  rewrite Hnone in Hcount. simpl in Hcount.
  pose proof (Permutation_length (Hmiss r entries Hent)) as Hl.
  destruct entries; [reflexivity | simpl in Hl; lia].
Qed.

End GenerateProperties.

Section GenerateReturns.

Context {G : Type}.
Variable NN : nat.
Variable std_shuffle : list Z -> G -> list Z * G.
Variable partial_board : list Z.
Variable cell_candidates : list (list Z).

Import GenSudokuBoardGAPopulator.

Lemma place_returns (empties : list (list nat)) (row : nat) (positions : list nat) :
  empties !! row = Some positions ->
  forall (entries : list Z) (col : nat) (b : list Z),
    (col + length entries <= length positions)%nat ->
    (forall p, In p positions ->
       (row * NN + p < length b)%nat /\
       exists cs, cell_candidates !! (row * NN + p)%nat = Some cs /\
                  forall e, In e entries -> In e cs) ->
    exists b', place NN cell_candidates empties row col entries b = Some (b', true).
Proof.
  intros Hrow. induction entries as [| e rest IH]; intros col b Hlen Hfit.
  - exists b. reflexivity.
  - simpl in Hlen. simpl. rewrite Hrow.
    destruct (lookup_lt_is_Some_2 positions col) as [p Hp]; [lia |].
    rewrite Hp.
    assert (Hin : In p positions)
      by (apply list_elem_of_In, list_elem_of_lookup; exists col; exact Hp).
    destruct (Hfit p Hin) as (Hrange & cs & Hcs & Hall).
    rewrite Hcs.
    assert (Hfound : existsb (Z.eqb e) cs = true).
    { apply existsb_exists. exists e. split; [| apply Z.eqb_refl].
      apply Hall. left. reflexivity. }
    rewrite Hfound.
    destruct (Nat.ltb_spec (row * NN + p) (length b)) as [_ | Hge]; [| lia].
    apply IH; [lia |].
    intros q Hq. destruct (Hfit q Hq) as (Hqr & cq & Hcq & Hqall).
    split; [rewrite length_insert; exact Hqr |].
    exists cq. split; [exact Hcq |]. intros x Hx. apply Hqall. right. exact Hx.
Qed.

Lemma fillRow_returns (fuel : nat) (b : list Z) (row : nat) (s : State G)
    (positions : list nat) (entries : list Z) :
  shuffle_permutes std_shuffle ->
  rowEmptyPositions s !! row = Some positions ->
  rowMissingEntries s !! row = Some entries ->
  (length entries <= length positions)%nat ->
  (forall p, In p positions ->
     (row * NN + p < length b)%nat /\
     exists cs, cell_candidates !! (row * NN + p)%nat = Some cs /\
                forall e, In e entries -> In e cs) ->
  exists b' s',
    fillRow NN std_shuffle cell_candidates (S fuel) b row s = Val (Some b') s'.
Proof.
  intros Hshuffle Hpos Hent Hlen Hfit. simpl. unfold bind, shuffle_entries.
  rewrite Hent. pose proof (Hshuffle entries (gen s)) as Hperm.
  destruct (std_shuffle entries (gen s)) as [shuffled g']. simpl in Hperm. simpl.
  destruct (place_returns (rowEmptyPositions s) row positions Hpos shuffled 0 b)
    as [b' Hplace].
  - rewrite (Permutation_length Hperm). lia.
  - intros p Hp. destruct (Hfit p Hp) as (Hrange & cs & Hcs & Hall).
    split; [exact Hrange |]. exists cs. split; [exact Hcs |].
    intros e He. apply Hall. exact (Permutation_in e Hperm He).
  - rewrite Hplace. eexists _, _. reflexivity.
Qed.

Lemma fill_rows_returns (fuel : nat) :
  shuffle_permutes std_shuffle ->
  (forall row, (row < NN)%nat -> row_valid NN partial_board row) ->
  (forall row p e, (row < NN)%nat ->
     In p (spec_empty_positions NN partial_board row) ->
     In e (spec_missing_entries NN partial_board row) ->
     exists cs, cell_candidates !! (row * NN + p)%nat = Some cs /\ In e cs) ->
  forall (count row : nat) (b : list Z) (s : State G),
    (row + count <= NN)%nat -> length b = (NN * NN)%nat ->
    initialized NN partial_board s ->
    exists b' s',
      fill_rows NN std_shuffle cell_candidates (S fuel) row count b s
      = Val (Some b') s'.
Proof.
  intros Hshuffle Hvalid Hfit. induction count as [| count IH];
    intros row b s Hrow Hlen Hinit.
  - eexists _, _. reflexivity.
  - pose proof Hinit as (Hemp & Hl & Hmiss).
    assert (Hpos : rowEmptyPositions s !! row
                   = Some (spec_empty_positions NN partial_board row))
      by (rewrite Hemp; apply table_lookup; lia).
    destruct (lookup_lt_is_Some_2 (rowMissingEntries s) row) as [entries Hent];
      [lia |].
    pose proof (Hmiss row entries Hent) as Hperm.
    destruct (fillRow_returns fuel b row s _ entries Hshuffle Hpos Hent)
      as (b1 & s1 & Hfill).
    + rewrite (Permutation_length Hperm),
        (valid_row_counts NN partial_board row (Hvalid row ltac:(lia))). lia.
    + intros p Hp. pose proof (proj1 (spec_empty_In NN partial_board row p) Hp) as [Hpn _].
      split.
      * assert (S row * NN <= NN * NN)%nat by (apply Nat.mul_le_mono_r; lia). lia.
      * destruct (lookup_lt_is_Some_2 cell_candidates (row * NN + p)) as [cs Hcs].
        -- destruct entries as [| e0 rest].
           ++ apply Permutation_length in Hperm.
              rewrite <- (valid_row_counts NN partial_board row (Hvalid row ltac:(lia)))
                in Hperm.
              destruct (spec_empty_positions NN partial_board row);
                [destruct Hp | simpl in Hperm; lia].
           ++ destruct (Hfit row p e0 ltac:(lia) Hp) as (cs & Hcs & _).
              ** apply (Permutation_in e0 Hperm). left. reflexivity.
              ** exact (lookup_lt_Some _ _ _ Hcs).
        -- exists cs. split; [exact Hcs |]. intros e He.
           destruct (Hfit row p e ltac:(lia) Hp (Permutation_in e Hperm He))
             as (cs' & Hcs' & Hin).
           rewrite Hcs in Hcs'. injection Hcs' as <-. exact Hin.
    + destruct (fill_rows_val NN std_shuffle partial_board cell_candidates (S fuel)
                  Hshuffle 1 row b s b1 s1 ltac:(lia) Hinit)
        as (Hinit1 & Hlen1 & _).
      { cbn [fill_rows]. rewrite (bind_eq _ _ _ _ _ Hfill). reflexivity. }
      destruct (IH (S row) b1 s1 ltac:(lia) ltac:(lia) Hinit1) as (b' & s' & Hrest).
      exists b', s'. cbn [fill_rows]. rewrite (bind_eq _ _ _ _ _ Hfill). exact Hrest.
Qed.

(** X22. When every entry missing from a row is a candidate of every empty cell
    of the row, every order of the entries fits: [generate] returns a board
    and each [fillRow] takes one turn of its loop. *)
Theorem generate_returns_when_every_order_fits (fuel : nat) (s : State G) :
  shuffle_permutes std_shuffle ->
  (forall row, (row < NN)%nat -> row_valid NN partial_board row) ->
  length partial_board = (NN * NN)%nat ->
  (forall row p e, (row < NN)%nat ->
     In p (spec_empty_positions NN partial_board row) ->
     In e (spec_missing_entries NN partial_board row) ->
     exists cs, cell_candidates !! (row * NN + p)%nat = Some cs /\ In e cs) ->
  initialized NN partial_board s ->
  exists b s',
    generate NN std_shuffle partial_board cell_candidates (S fuel) s
    = Val (Some b) s'.
Proof.
  intros Hshuffle Hvalid Hlen Hfit Hinit. unfold generate.
  apply (fill_rows_returns fuel Hshuffle Hvalid Hfit); [lia | exact Hlen | exact Hinit].
Qed.

End GenerateReturns.

(** * [crossover], cell by cell *)

Section CrossoverFurther.

Context {G : Type}.
Variable NN : nat.
Variable uniform_int_0_1 : G -> Z * G.

Import GenSudokuBoardGAPopulator.

Lemma crossover_cells (fresh_board p0 p1 : list Z) (gen : G) :
  length p0 = (NN * NN)%nat ->
  length p1 = (NN * NN)%nat ->
  length fresh_board = (NN * NN)%nat ->
  let children := (crossover NN uniform_int_0_1 fresh_board p0 p1 gen).1 in
  length children.1 = (NN * NN)%nat /\
  length children.2 = (NN * NN)%nat /\
  forall k, (k < NN * NN)%nat ->
    exists coin,
      coins uniform_int_0_1 NN gen !! (k / NN)%nat = Some coin /\
      children.1 !! k = (if coin =? 0 then p0 else p1) !! k /\
      children.2 !! k = (if coin =? 0 then p1 else p0) !! k.
Proof.
  intros Hp0 Hp1 Hfresh. unfold crossover.
  destruct (rows_loop NN uniform_int_0_1 p0 p1 NN 0 fresh_board fresh_board gen)
    as (Hl0 & Hl1 & Hrows & _ & Hcoins); try (simpl; lia).
  simpl. split; [lia | split; [lia |]].
  intros k Hk.
  assert (Hr : (k / NN < NN)%nat) by (apply Nat.Div0.div_lt_upper_bound; exact Hk).
  assert (Hcol : (k mod NN < NN)%nat) by (apply Nat.mod_upper_bound; lia).
  assert (Hsplit : (k = k / NN * NN + k mod NN)%nat)
    by (rewrite (Nat.div_mod_eq k NN) at 1; lia).
  destruct (lookup_lt_is_Some_2 (coins uniform_int_0_1 NN gen) (k / NN))
    as [coin Hcoin]; [lia |].
  exists coin. split; [exact Hcoin |].
  assert (Hcoin' : coins uniform_int_0_1 NN gen !! (k / NN - 0)%nat = Some coin)
    by (replace (k / NN - 0)%nat with (k / NN)%nat by lia; exact Hcoin).
  pose proof (Hrows (k / NN)%nat (k mod NN)%nat coin ltac:(lia) Hcol Hcoin') as Hcell.
  rewrite <- Hsplit in Hcell. exact Hcell.
Qed.

(** X23. The two children of [crossover] hold, cell by cell, the cells of the
    two parents: at every index one child has the cell of [p0] and the
    other the cell of [p1], so that a cell on which the parents agree is in
    both children. *)
Theorem crossover_children_hold_the_parents_cells
    (fresh_board p0 p1 : list Z) (gen : G) :
  length p0 = (NN * NN)%nat ->
  length p1 = (NN * NN)%nat ->
  length fresh_board = (NN * NN)%nat ->
  let children := (crossover NN uniform_int_0_1 fresh_board p0 p1 gen).1 in
  forall k, (k < NN * NN)%nat ->
    (children.1 !! k = p0 !! k /\ children.2 !! k = p1 !! k) \/
    (children.1 !! k = p1 !! k /\ children.2 !! k = p0 !! k).
Proof.
  intros Hp0 Hp1 Hfresh children k Hk.
  destruct (crossover_cells fresh_board p0 p1 gen Hp0 Hp1 Hfresh)
    as (_ & _ & Hcells).
  destruct (Hcells k Hk) as (coin & _ & H1 & H2). fold children in H1, H2.
  destruct (coin =? 0); [left | right]; split; assumption.
Qed.

(** X24. The children of [crossover] do not depend on the cells of the board
    that they are constructed from: every cell is overwritten. *)
Theorem crossover_ignores_the_fresh_board
    (fresh_board fresh_board' p0 p1 : list Z) (gen : G) :
  length p0 = (NN * NN)%nat ->
  length p1 = (NN * NN)%nat ->
  length fresh_board = (NN * NN)%nat ->
  length fresh_board' = (NN * NN)%nat ->
  (crossover NN uniform_int_0_1 fresh_board p0 p1 gen).1
  = (crossover NN uniform_int_0_1 fresh_board' p0 p1 gen).1.
Proof.
  intros Hp0 Hp1 Hf Hf'.
  destruct (crossover_cells fresh_board p0 p1 gen Hp0 Hp1 Hf) as (Hl1 & Hl2 & Hc).
  destruct (crossover_cells fresh_board' p0 p1 gen Hp0 Hp1 Hf') as (Hl1' & Hl2' & Hc').
  simpl in *.
  destruct (crossover NN uniform_int_0_1 fresh_board p0 p1 gen).1 as [c0 c1].
  destruct (crossover NN uniform_int_0_1 fresh_board' p0 p1 gen).1 as [c0' c1'].
  simpl in *.
  assert (Hboth : forall k, c0 !! k = c0' !! k /\ c1 !! k = c1' !! k).
  { intros k. destruct (decide (k < NN * NN)%nat) as [Hk | Hk].
    - destruct (Hc k Hk) as (coin & Hcoin & H1 & H2).
      destruct (Hc' k Hk) as (coin' & Hcoin' & H1' & H2').
      rewrite Hcoin in Hcoin'. injection Hcoin' as <-.
      rewrite H1, H2, H1', H2'. split; reflexivity.
    - rewrite !lookup_ge_None_2 by lia. split; reflexivity. }
  f_equal; apply list_eq; intros k; apply Hboth.
Qed.

End CrossoverFurther.

(** * A selector that is null *)

Section GeneticSelector.

Context {T R : Type} {F : Arithmetic}.
Variable fitness : T -> F.
Variable uniform_real : R -> Q * R.
Variable std_shuffle : list (option T) -> R -> list (option T) * R.

Import GeneticAlgorithm.

Local Abbreviation W := (World R F).

(** X3. [run] checks the populator but not the selector: with a null selector,
    a population of at least two and a budget that enters the loop, the
    first pair-slot whose draw falls below [crossover_probability]
    dereferences the null pointer.  Here that is the first slot of the
    first generation. *)
Theorem null_selector_is_dereferenced (o : @Options T R F) (pop : Populator T R)
    (w : W) (st : Loop) (w1 : W) :
  populator o = Some pop ->
  selector o = None ->
  (population_size o mod 2 = 0)%nat ->
  (2 <= population_size o)%nat ->
  0 < loop_bound o ->
  initialize fitness o pop w = Val st w1 ->
  Qltb (uniform_real (source w1)).1 (crossover_probability o) = true ->
  run fitness uniform_real std_shuffle o w = Undefined.
Proof.
  intros Hpop Hsel Heven Hsize Hbound Hinit Hdraw.
  unfold run. rewrite Hpop, Heven. simpl.
  rewrite (bind_eq _ _ _ _ _ Hinit).
  destruct (Z.to_nat (loop_bound o)) as [| n] eqn:En; [lia |].
  assert (Hbody : generation_body fitness uniform_real std_shuffle o pop st w1
                  = Undefined).
  { unfold generation_body, breed.
    destruct (population_size o / 2)%nat as [| m] eqn:Ediv.
    - apply Nat.div_small_iff in Ediv; lia.
    - cbn [for_range]. unfold breed_body, bind, call. rewrite Hsel.
      destruct (uniform_real (source w1)) as [u r1]. simpl in Hdraw. simpl.
      rewrite Hdraw. reflexivity. }
  cbn [generations]. unfold bind. rewrite Hbody. reflexivity.
Qed.

End GeneticSelector.

(** * A row that cannot be filled, and the tables that [generate] needs *)

Section FillRowLoops.

Context {G : Type}.
Variable NN : nat.
Variable std_shuffle : list Z -> G -> list Z * G.
Variable partial_board : list Z.
Variable cell_candidates : list (list Z).

Import GenSudokuBoardGAPopulator.



Lemma place_defined (empties : list (list nat)) (row : nat)
    (positions : list nat) :
  empties !! row = Some positions ->
  forall (entries : list Z) (col : nat) (b : list Z),
    (col + length entries <= length positions)%nat ->
    (forall p, In p positions ->
       (row * NN + p < length b)%nat /\
       is_Some (cell_candidates !! (row * NN + p)%nat)) ->
    exists b' flag,
      place NN cell_candidates empties row col entries b = Some (b', flag) /\
      length b' = length b.
Proof.
  intros Hrow. induction entries as [| e rest IH]; intros col b Hlen Hdef.
  - exists b, true. split; reflexivity.
  - simpl in Hlen. simpl. rewrite Hrow.
    destruct (lookup_lt_is_Some_2 positions col) as [p Hp]; [lia |].
    rewrite Hp.
    assert (Hpin : In p positions)
      by (apply list_elem_of_In, list_elem_of_lookup; exists col; exact Hp).
    destruct (Hdef p Hpin) as (Hrange & cs & Hcs). rewrite Hcs.
    destruct (existsb (Z.eqb e) cs).
    + destruct (Nat.ltb_spec (row * NN + p) (length b)) as [_ | Hge]; [| lia].
      destruct (IH (S col) (<[(row * NN + p)%nat := e]> b)) as (b' & flag & Hplace & Hl);
        [lia | |].
      * intros q Hq. rewrite length_insert. exact (Hdef q Hq).
      * exists b', flag. split; [exact Hplace |]. rewrite Hl. apply length_insert.
    + exists b, false. split; reflexivity.
Qed.

(** With the tables of a row in step and every access in range, every
    turn of the loop of [fillRow] is defined: after [fuel] turns it has
    returned a board or is still running. *)
Lemma fillRow_defined (row : nat) (positions : list nat) (fuel : nat) :
  shuffle_permutes std_shuffle ->
  forall (b : list Z) (s : State G) (entries : list Z),
    rowEmptyPositions s !! row = Some positions ->
    rowMissingEntries s !! row = Some entries ->
    (length entries <= length positions)%nat ->
    (forall p, In p positions ->
       (row * NN + p < length b)%nat /\
       is_Some (cell_candidates !! (row * NN + p)%nat)) ->
    exists r s', fillRow NN std_shuffle cell_candidates fuel b row s = Val r s'.
Proof.
  intros Hshuffle. induction fuel as [| fuel IH]; intros b s entries Hpos Hent Hlen Hdef.
  - exists None, s. reflexivity.
  - simpl. unfold bind, shuffle_entries. rewrite Hent.
    pose proof (Hshuffle entries (gen s)) as Hperm.
    destruct (std_shuffle entries (gen s)) as [shuffled g']. simpl in Hperm. simpl.
    destruct (place_defined (rowEmptyPositions s) row positions Hpos shuffled 0 b)
      as (b' & flag & Hplace & Hl).
    + rewrite (Permutation_length Hperm). lia.
    + exact Hdef.
    + rewrite Hplace. destruct flag.
      * eexists _, _. reflexivity.
      * apply (IH b' _ shuffled).
        -- exact Hpos.
        -- simpl. apply list_lookup_insert_eq. exact (lookup_lt_Some _ _ _ Hent).
        -- rewrite (Permutation_length Hperm). exact Hlen.
        -- intros p Hp. rewrite Hl. exact (Hdef p Hp).
Qed.

Lemma fill_rows_defined (fuel : nat) :
  shuffle_permutes std_shuffle ->
  (forall row, (row < NN)%nat -> row_valid NN partial_board row) ->
  length cell_candidates = (NN * NN)%nat ->
  forall (count row : nat) (b : list Z) (s : State G),
    (row + count <= NN)%nat -> length b = (NN * NN)%nat ->
    initialized NN partial_board s ->
    exists r s', fill_rows NN std_shuffle cell_candidates fuel row count b s = Val r s'.
Proof.
  intros Hshuffle Hvalid Hcands. induction count as [| count IH];
    intros row b s Hrow Hlen Hinit.
  - eexists _, _. reflexivity.
  - pose proof Hinit as (Hemp & Hl & Hmiss).
    assert (Hpos : rowEmptyPositions s !! row
                   = Some (spec_empty_positions NN partial_board row))
      by (rewrite Hemp; apply table_lookup; lia).
    destruct (lookup_lt_is_Some_2 (rowMissingEntries s) row) as [entries Hent];
      [lia |].
    pose proof (Hmiss row entries Hent) as Hperm.
    destruct (fillRow_defined row _ fuel Hshuffle b s entries Hpos Hent)
      as (r & s1 & Hfill).
    + rewrite (Permutation_length Hperm),
        (valid_row_counts NN partial_board row (Hvalid row ltac:(lia))). lia.
    + intros p Hp.
      pose proof (proj1 (spec_empty_In NN partial_board row p) Hp) as [Hpn _].
      assert (S row * NN <= NN * NN)%nat by (apply Nat.mul_le_mono_r; lia).
      split; [lia | apply lookup_lt_is_Some_2; lia].
    + cbn [fill_rows]. rewrite (bind_eq _ _ _ _ _ Hfill).
      destruct r as [b1 |]; [| eexists _, _; reflexivity].
      destruct (fill_rows_val NN std_shuffle partial_board cell_candidates fuel
                  Hshuffle 1 row b s b1 s1 ltac:(lia) Hinit)
        as (Hinit1 & Hlen1 & _).
      { cbn [fill_rows]. rewrite (bind_eq _ _ _ _ _ Hfill). reflexivity. }
      apply IH; [lia | lia | exact Hinit1].
Qed.

(** X26. [initialize] then [generate]: on a partial board whose cells are 0
    or entries up to [NN], no entry twice in a row, [initialize] leaves
    tables, in a build with [NDEBUG] and in one that checks assertions;
    these tables are those that [generate] and [mutate] work with, each
    row with as many empty positions as missing entries; and, when the
    board and the candidates have [NN * NN] cells, [generate] on them has
    defined behaviour: after any number of turns of the loops of [fillRow]
    it has returned a board or is still running. *)
Theorem initialize_establishes_the_tables :
  (forall row, (row < NN)%nat -> row_valid NN partial_board row) ->
  exists tables,
    initialize NN partial_board = Some tables /\
    initialize_asserting NN partial_board = Done tables /\
    forall g : G,
      let s := {| gen := g; rowEmptyPositions := tables.1;
                  rowMissingEntries := tables.2 |} in
      initialized NN partial_board s /\
      (forall row positions entries,
         tables.1 !! row = Some positions -> tables.2 !! row = Some entries ->
         length positions = length entries) /\
      (shuffle_permutes std_shuffle ->
       length partial_board = (NN * NN)%nat ->
       length cell_candidates = (NN * NN)%nat ->
       forall fuel, exists r s',
         generate NN std_shuffle partial_board cell_candidates fuel s = Val r s').
Proof.
  intros Hvalid.
  assert (Hrange : forall row col, (row < NN)%nat -> (col < NN)%nat ->
            0 <= cell partial_board (row * NN + col) <= Z.of_nat NN)
    by (intros row col Hrow Hcol; exact (proj1 (Hvalid row Hrow) col Hcol)).
  eexists. split; [exact (initialize_spec NN partial_board Hrange) |].
  split; [exact (initialize_asserting_spec NN partial_board Hvalid) |].
  intros g s.
  assert (Hinit : initialized NN partial_board s).
  { split; [reflexivity | split].
    - simpl. rewrite length_map, length_seq. reflexivity.
    - simpl. intros row entries Hrow.
      assert (Hlt : (row < NN)%nat).
      { apply lookup_lt_Some in Hrow. rewrite length_map, length_seq in Hrow.
        exact Hrow. }
      rewrite (table_lookup _ NN row Hlt) in Hrow. injection Hrow as <-. reflexivity. }
  split; [exact Hinit | split].
  - simpl. intros row positions entries Hp He.
    assert (Hlt : (row < NN)%nat).
    { apply lookup_lt_Some in Hp. rewrite length_map, length_seq in Hp. exact Hp. }
    rewrite (table_lookup _ NN row Hlt) in Hp.
    rewrite (table_lookup _ NN row Hlt) in He.
    injection Hp as <-. injection He as <-.
    exact (valid_row_counts NN partial_board row (Hvalid row Hlt)).
  - intros Hshuffle Hlen Hcands fuel. unfold generate.
    apply (fill_rows_defined fuel Hshuffle Hvalid Hcands); [lia | exact Hlen | exact Hinit].
Qed.

End FillRowLoops.

Section MutateProperties.

Context {G : Type}.
Variable NN : nat.
Variable std_shuffle : list Z -> G -> list Z * G.
Variable uniform_row : G -> nat * G.
Variable cell_candidates : list (list Z).

Import GenSudokuBoardGAPopulator.

(** X18. [mutate] fills the row that the distribution draws.  With the
    tables of that row in step and every access in range, [mutate] has
    defined behaviour: after any number of turns of the loop of [fillRow]
    it has returned a board or the loop is still running.  When it returns
    a board, outside the empty positions of that row the board is the
    original one, and the entries put into the empty positions are a
    permutation of the missing entries of the row.  And it does return a
    board, at the first turn, when every missing entry of the row is a
    candidate of every empty cell of the row. *)
Theorem mutate_refills_one_row (original : list Z) (s : State G)
    (positions : list nat) (entries : list Z) :
  shuffle_permutes std_shuffle ->
  let row := (uniform_row (gen s)).1 in
  rowEmptyPositions s !! row = Some positions -> NoDup positions ->
  rowMissingEntries s !! row = Some entries ->
  (length entries <= length positions)%nat ->
  (forall p, In p positions ->
     (row * NN + p < length original)%nat /\
     is_Some (cell_candidates !! (row * NN + p)%nat)) ->
  (forall fuel, exists r s',
     mutate NN std_shuffle uniform_row cell_candidates fuel original s = Val r s') /\
  (forall fuel b' s',
     mutate NN std_shuffle uniform_row cell_candidates fuel original s
     = Val (Some b') s' ->
     length b' = length original /\
     (forall k, (forall p, In p positions -> k <> (row * NN + p)%nat) ->
        b' !! k = original !! k) /\
     exists entries',
       rowMissingEntries s' = <[row := entries']> (rowMissingEntries s) /\
       Permutation entries' entries /\
       forall i e, entries' !! i = Some e ->
         exists p, positions !! i = Some p /\ b' !! (row * NN + p)%nat = Some e) /\
  ((forall p cs e, In p positions -> In e entries ->
      cell_candidates !! (row * NN + p)%nat = Some cs -> In e cs) ->
   forall fuel, exists b' s',
     mutate NN std_shuffle uniform_row cell_candidates (S fuel) original s
     = Val (Some b') s').
Proof.
  intros Hshuffle row Hpos Hnodup Hent Hlen Hdef.
  destruct (uniform_row (gen s)) as [r0 g1] eqn:Hu. simpl in row. subst row.
  set (s1 := {| gen := g1; rowEmptyPositions := rowEmptyPositions s;
                rowMissingEntries := rowMissingEntries s |}).
  assert (Hmut : forall fuel,
            mutate NN std_shuffle uniform_row cell_candidates fuel original s
            = fillRow NN std_shuffle cell_candidates fuel original r0 s1).
  { intros fuel. unfold mutate, bind. rewrite Hu. reflexivity. }
  split; [| split].
  - intros fuel. rewrite Hmut.
    exact (fillRow_defined NN std_shuffle cell_candidates r0 positions fuel Hshuffle
             original s1 entries Hpos Hent Hlen Hdef).
  - intros fuel b' s' Hrun. rewrite Hmut in Hrun.
    destruct (fillRow_val NN std_shuffle cell_candidates fuel Hshuffle original r0 s1
                positions entries b' s' Hpos Hnodup Hent Hrun)
      as (Hl & _ & (entries' & Hmiss & Hperm & Hplaced) & Hkeep).
    split; [exact Hl | split; [exact Hkeep |]].
    exists entries'. split; [exact Hmiss | split; [exact Hperm |]].
    intros i e Hi. destruct (Hplaced i e Hi) as (p & cs & Hp & Hb & _).
    exists p. auto.
  - intros Hfit fuel. rewrite Hmut.
    apply (fillRow_returns NN std_shuffle cell_candidates fuel original r0 s1
             positions entries Hshuffle Hpos Hent Hlen).
    intros p Hp. destruct (Hdef p Hp) as (Hrange & cs & Hcs).
    split; [exact Hrange |]. exists cs. split; [exact Hcs |].
    intros e He. exact (Hfit p cs e Hp He Hcs).
Qed.

End MutateProperties.

(** * Instances of the further properties *)

Lemma sample_rotate_permutes :
  GenSudokuBoardGAPopulator.shuffle_permutes Sample.rotate.
Proof.
  intros entries g. unfold Sample.rotate. simpl.
  rewrite Permutation_app_comm, take_drop. reflexivity.
Qed.

Lemma sample_puzzle_valid (row : nat) :
  (row < 4)%nat -> GenSudokuBoardGAPopulator.row_valid 4 Sample.puzzle row.
Proof.
  intros Hrow.
  assert (row = 0 \/ row = 1 \/ row = 2 \/ row = 3)%nat
    as [-> | [-> | [-> | ->]]] by lia;
    (split;
     [ intros col Hcol;
       assert (col = 0 \/ col = 1 \/ col = 2 \/ col = 3)%nat
         as [-> | [-> | [-> | ->]]] by lia;
       vm_compute; split; discriminate
     | intros c1 c2 H1 H2;
       assert (c1 = 0 \/ c1 = 1 \/ c1 = 2 \/ c1 = 3)%nat
         as [-> | [-> | [-> | ->]]] by lia;
       assert (c2 = 0 \/ c2 = 1 \/ c2 = 2 \/ c2 = 3)%nat
         as [-> | [-> | [-> | ->]]] by lia;
       vm_compute; intros Hnz Heq; try reflexivity; congruence ]).
Qed.

Lemma sample_solved_valid (row : nat) :
  (row < 4)%nat -> GenSudokuBoardGAPopulator.row_valid 4 Sample.solved row.
Proof.
  intros Hrow.
  assert (row = 0 \/ row = 1 \/ row = 2 \/ row = 3)%nat
    as [-> | [-> | [-> | ->]]] by lia;
    (split;
     [ intros col Hcol;
       assert (col = 0 \/ col = 1 \/ col = 2 \/ col = 3)%nat
         as [-> | [-> | [-> | ->]]] by lia;
       vm_compute; split; discriminate
     | intros c1 c2 H1 H2;
       assert (c1 = 0 \/ c1 = 1 \/ c1 = 2 \/ c1 = 3)%nat
         as [-> | [-> | [-> | ->]]] by lia;
       assert (c2 = 0 \/ c2 = 1 \/ c2 = 2 \/ c2 = 3)%nat
         as [-> | [-> | [-> | ->]]] by lia;
       vm_compute; intros Hnz Heq; try reflexivity; congruence ]).
Qed.

Lemma sample_initialized (g : nat) :
  GenSudokuBoardGAPopulator.initialized 4 Sample.puzzle (Sample.populating g).
Proof.
  split; [reflexivity | split; [reflexivity |]].
  intros row entries H.
  do 4 (destruct row as [| row]; [injection H as <-; reflexivity |]).
  discriminate H.
Qed.

Lemma sample_solving_initialized (g : nat) :
  GenSudokuBoardGAPopulator.initialized 4 Sample.solved (Sample.solving g).
Proof.
  split; [reflexivity | split; [reflexivity |]].
  intros row entries H.
  do 4 (destruct row as [| row]; [injection H as <-; reflexivity |]).
  discriminate H.
Qed.

Lemma sample_open_candidates (row p : nat) (e : Z) :
  (row < 4)%nat ->
  In p (GenSudokuBoardGAPopulator.spec_empty_positions 4 Sample.puzzle row) ->
  In e (GenSudokuBoardGAPopulator.spec_missing_entries 4 Sample.puzzle row) ->
  exists cs, Sample.open_candidates !! (row * 4 + p)%nat = Some cs /\ In e cs.
Proof.
  intros Hrow Hp He. exists [1; 2; 3; 4].
  assert (row = 0 \/ row = 1 \/ row = 2 \/ row = 3)%nat
    as [-> | [-> | [-> | ->]]] by lia;
    vm_compute in Hp; vm_compute in He;
    (split; [intuition (subst; reflexivity) | intuition (subst; simpl; tauto)]).
Qed.

Lemma sample_open_row (p : nat) (cs : list Z) (e : Z) :
  In p [0; 1; 3]%nat -> In e [2; 3; 4] ->
  Sample.open_candidates !! (1 * 4 + p)%nat = Some cs -> In e cs.
Proof.
  intros [<- | [<- | [<- | []]]] He Hcs; injection Hcs as <-;
    simpl in *; intuition.
Qed.

Lemma initialize_generates_the_population_witness :
  exists st w',
    GeneticAlgorithm.initialize Sample.fitness (Sample.options 3) Sample.populator
      Sample.world = Val st w' /\
    events w' = events Sample.world ++ [EvClock] ++ replicate 4 EvGenerate
                  ++ [EvSurvive] /\
    GeneticAlgorithm.generation st = 0 /\ GeneticAlgorithm.deadRounds st = 0.
Proof.
  eexists _, _.
  match goal with
  | |- ?A /\ _ => assert (Hinit : A) by (vm_compute; reflexivity)
  end.
  split; [exact Hinit |].
  exact (proj2 (proj2 (initialize_generates_the_population Sample.fitness _ _ _ _ _
                         ZFitness_order Hinit))).
Defined.

Lemma empty_population_is_undefined_witness :
  GeneticAlgorithm.run Sample.fitness Sample.uniform_real Sample.std_shuffle
    (Sample.configured (Some Sample.populator) 0 3 100 2) Sample.world
  = Undefined.
Proof.
  apply (empty_population_is_undefined Sample.fitness Sample.uniform_real
           Sample.std_shuffle _ Sample.populator); reflexivity.
Defined.

Lemma assessed_best_dominates_witness :
  exists b' increased w',
    GeneticAlgorithm.assess Sample.fitness Sample.populator
      [Some 3; Some 7; Some 7; Some 1] 5 Sample.world = Val (b', increased) w' /\
    lt (Sample.fitness b') (Sample.fitness 5) = false /\
    forall j cj, [Some 3; Some 7; Some 7; Some 1] !! j = Some (Some cj) ->
      lt (Sample.fitness b') (Sample.fitness cj) = false.
Proof.
  eexists _, _, _.
  match goal with
  | |- ?A /\ _ => assert (Hrun : A) by (vm_compute; reflexivity)
  end.
  split; [exact Hrun |].
  exact (assessed_best_dominates Sample.fitness _ _ _ _ _ _ _ ZFitness_order
           sample_survive_copies Hrun).
Defined.

Lemma zero_output_period_never_continues_witness :
  GeneticAlgorithm.output_rounds (Sample.configure (Some Sample.selector) 0) = 0 /\
  forall st' w',
    GeneticAlgorithm.generation_body Sample.fitness Sample.uniform_real
      Sample.std_shuffle (Sample.configure (Some Sample.selector) 0)
      Sample.populator Sample.heading Sample.world
    <> Val (GeneticAlgorithm.Continue st') w'.
Proof.
  split; [reflexivity |]. intros st' w'.
  apply (zero_output_period_never_continues Sample.fitness Sample.uniform_real
           Sample.std_shuffle). reflexivity.
Defined.

Lemma population_stays_populated_witness :
  exists st w,
    GeneticAlgorithm.reached Sample.fitness Sample.uniform_real Sample.std_shuffle
      (Sample.options 3) Sample.populator Sample.world st w /\
    GeneticAlgorithm.generation st = 1 /\
    GeneticAlgorithm.populated 4 (GeneticAlgorithm.prevGeneration st).
Proof.
  eexists _, _.
  match goal with
  | |- ?A /\ _ =>
      assert (Hreached : A)
        by (eapply GeneticAlgorithm.reached_next;
            [apply GeneticAlgorithm.reached_first; vm_compute; reflexivity
            | vm_compute; reflexivity])
  end.
  split; [exact Hreached | split; [reflexivity |]].
  apply (population_stays_populated Sample.fitness Sample.uniform_real
           Sample.std_shuffle (Sample.options 3) Sample.populator Sample.selector
           Sample.world _ _ (sample_workable _ 4 3 100 2 eq_refl ltac:(lia))
           Hreached).
Defined.

Lemma exit_tells_the_threshold_witness :
  exists e w',
    GeneticAlgorithm.generations Sample.fitness Sample.uniform_real
      Sample.std_shuffle (Sample.options 3) Sample.populator 2 Sample.heading
      Sample.world = Val e w' /\
    match e with
    | GeneticAlgorithm.Solved _ b =>
        ge (Sample.fitness b)
           (GeneticAlgorithm.fitness_success_threshold (Sample.options 3)) = true
    | GeneticAlgorithm.Exhausted _ b =>
        (0 < 2)%nat ->
        ge (Sample.fitness b)
           (GeneticAlgorithm.fitness_success_threshold (Sample.options 3)) = false
    end.
Proof.
  eexists _, _.
  match goal with
  | |- ?A /\ _ => assert (Hrun : A) by (vm_compute; reflexivity)
  end.
  split; [exact Hrun |].
  exact (exit_tells_the_threshold Sample.fitness Sample.uniform_real
           Sample.std_shuffle _ _ _ _ _ _ _ Hrun).
Defined.

Lemma budget_of_one_returns_the_first_best_witness :
  exists st w',
    GeneticAlgorithm.initialize Sample.fitness (Sample.options 1) Sample.populator
      Sample.world = Val st w' /\
    GeneticAlgorithm.run Sample.fitness Sample.uniform_real Sample.std_shuffle
      (Sample.options 1) Sample.world
    = Val (Some (GeneticAlgorithm.best st)) w' /\
    events w' = events Sample.world ++ [EvClock] ++ replicate 4 EvGenerate
                  ++ [EvSurvive].
Proof.
  eexists _, _.
  match goal with
  | |- ?A /\ _ => assert (Hinit : A) by (vm_compute; reflexivity)
  end.
  split; [exact Hinit |].
  apply (budget_of_one_returns_the_first_best Sample.fitness Sample.uniform_real
           Sample.std_shuffle (Sample.options 1) Sample.populator);
    [reflexivity | reflexivity | reflexivity | exact Hinit].
Defined.

Lemma kill_replaces_at_or_below_witness :
  exists killed w',
    GeneticAlgorithm.kill Sample.fitness Sample.defaults Sample.populator 1
      (0 : ZFitness) [Some 0; Some 3] (Sample.world_at 4) = Val killed w' /\
    length killed = 2%nat /\
    forall i c, [Some 0; Some 3] !! i = Some (Some c) ->
      if le (Sample.fitness c) (0 : ZFitness)
      then exists r, killed !! i = Some (Some (generate Sample.populator r).1)
      else killed !! i = Some (Some c).
Proof.
  eexists _, _.
  match goal with
  | |- ?A /\ _ => assert (Hrun : A) by (vm_compute; reflexivity)
  end.
  split; [exact Hrun |].
  refine (kill_replaces_at_or_below Sample.fitness Sample.defaults Sample.populator 1
            (0 : ZFitness) [Some 0; Some 3] (Sample.world_at 4) _ _ _ _ Hrun);
    [vm_compute; reflexivity | reflexivity].
Defined.

Lemma null_selector_is_dereferenced_witness :
  exists st w1,
    GeneticAlgorithm.initialize Sample.fitness (Sample.configure None 1)
      Sample.populator Sample.world = Val st w1 /\
    GeneticAlgorithm.run Sample.fitness Sample.uniform_real Sample.std_shuffle
      (Sample.configure None 1) Sample.world = Undefined.
Proof.
  eexists _, _.
  match goal with
  | |- ?A /\ _ => assert (Hinit : A) by (vm_compute; reflexivity)
  end.
  split; [exact Hinit |].
  refine (null_selector_is_dereferenced Sample.fitness Sample.uniform_real
            Sample.std_shuffle (Sample.configure None 1) Sample.populator
            Sample.world _ _ _ _ _ _ _ Hinit _);
    [reflexivity | reflexivity | reflexivity | simpl; lia | vm_compute; reflexivity
    | vm_compute; reflexivity].
Defined.

Lemma best_dominates_current_witness :
  exists cur' best' w',
    HillClimbingAlgorithm.iteration_body Sample.fitness (Sample.climb 2 3 100)
      Sample.climber (HillClimbingAlgorithm.base_policy Sample.fitness) 2 None tt
      Sample.world = Val (HillClimbingAlgorithm.Continue cur' best' tt) w' /\
    exists b, best' = Some b /\ lt (Sample.fitness b) (Sample.fitness cur') = false.
Proof.
  eexists _, _, _.
  match goal with
  | |- ?A /\ _ => assert (Hrun : A) by (vm_compute; reflexivity)
  end.
  split; [exact Hrun |].
  exact (best_dominates_current Sample.fitness _ _ _ _ _ _ _ _ _ _ _
           ZFitness_order Hrun).
Defined.

Lemma base_acceptance_never_descends_witness :
  exists r w',
    HillClimbingAlgorithm.iteration_body Sample.fitness (Sample.climb 2 3 100)
      Sample.climber (HillClimbingAlgorithm.base_policy Sample.fitness) 2 None tt
      (Sample.world_at 2) = Val r w' /\
    let next := (HillClimbingAlgorithm.generateNeighbour Sample.climber 2 2).1 in
    let cur' := match r with
                | HillClimbingAlgorithm.Return c => c
                | HillClimbingAlgorithm.Continue c _ _ => c
                end in
    cur' = (if lt (Sample.fitness 2) (Sample.fitness next) then next else 2) /\
    lt (Sample.fitness cur') (Sample.fitness 2) = false.
Proof.
  eexists _, _.
  match goal with
  | |- ?A /\ _ => assert (Hrun : A) by (vm_compute; reflexivity)
  end.
  split; [exact Hrun |].
  exact (base_acceptance_never_descends Sample.fitness _ _ _ _ _ _ _
           ZFitness_order Hrun).
Defined.

Lemma hill_climbing_exit_tells_the_threshold_witness :
  exists e w',
    HillClimbingAlgorithm.rounds Sample.fitness (Sample.climb 2 3 100)
      Sample.climber (HillClimbingAlgorithm.base_policy Sample.fitness) 2 0 None
      Sample.world = Val e w' /\
    match e with
    | HillClimbingAlgorithm.Solved _ _ c =>
        ge (Sample.fitness c)
           (HillClimbingAlgorithm.fitness_success_threshold (Sample.climb 2 3 100))
        = true
    | HillClimbingAlgorithm.Exhausted None => True
    | HillClimbingAlgorithm.Exhausted (Some b) =>
        ge (Sample.fitness b)
           (HillClimbingAlgorithm.fitness_success_threshold (Sample.climb 2 3 100))
        = false
    end.
Proof.
  eexists _, _.
  match goal with
  | |- ?A /\ _ => assert (Hrun : A) by (vm_compute; reflexivity)
  end.
  split; [exact Hrun |].
  exact (hill_climbing_exit_tells_the_threshold Sample.fitness _ _ _ _ _ None _ _ _
           I Hrun).
Defined.

Lemma initialize_row_finds_empty_and_missing_witness :
  GenSudokuBoardGAPopulator.initialize_row 4 Sample.puzzle 1
  = Some (GenSudokuBoardGAPopulator.spec_empty_positions 4 Sample.puzzle 1,
          GenSudokuBoardGAPopulator.spec_missing_entries 4 Sample.puzzle 1) /\
  GenSudokuBoardGAPopulator.spec_empty_positions 4 Sample.puzzle 1 = [0; 1; 3]%nat /\
  GenSudokuBoardGAPopulator.spec_missing_entries 4 Sample.puzzle 1 = [2; 3; 4].
Proof.
  split; [| split; reflexivity].
  apply (initialize_row_finds_empty_and_missing 4 Sample.puzzle 1).
  exact (proj1 (sample_puzzle_valid 1 ltac:(lia))).
Defined.

Lemma initialize_builds_the_tables_witness :
  (GenSudokuBoardGAPopulator.initialize 4 Sample.puzzle = Some Sample.tables /\
   GenSudokuBoardGAPopulator.initialize_asserting 4 Sample.puzzle
   = GenSudokuBoardGAPopulator.Done Sample.tables) /\
  (GenSudokuBoardGAPopulator.initialize 2 [1; 1; 0; 0]
   = Some ([[]; [0; 1]]%nat, [[2]; [1; 2]]) /\
   GenSudokuBoardGAPopulator.initialize_asserting 2 [1; 1; 0; 0]
   = GenSudokuBoardGAPopulator.Aborted).
Proof.
  split.
  - exact (proj1 (initialize_builds_the_tables 4 Sample.puzzle) sample_puzzle_valid).
  - apply (proj2 (initialize_builds_the_tables 2 [1; 1; 0; 0])).
    + intros row col Hrow Hcol.
      assert (row = 0 \/ row = 1)%nat as [-> | ->] by lia;
        assert (col = 0 \/ col = 1)%nat as [-> | ->] by lia;
        vm_compute; split; discriminate.
    + exists 0%nat. split; [lia | vm_compute; discriminate].
Defined.


Lemma initialize_assertion_holds_witness :
  GenSudokuBoardGAPopulator.initialize_row 4 Sample.puzzle 1
  = Some ([0; 1; 3]%nat, [2; 3; 4]) /\
  length [0; 1; 3]%nat = length [2; 3; 4].
Proof.
  split; [reflexivity |].
  apply (initialize_assertion_holds 4 Sample.puzzle 1);
    [apply sample_puzzle_valid; lia | reflexivity].
Defined.

Lemma fillRow_fills_the_row_witness :
  exists b' s',
    GenSudokuBoardGAPopulator.fillRow 4 Sample.rotate Sample.candidates 5
      Sample.puzzle 1 (Sample.populating 2) = Val (Some b') s' /\
    length b' = length Sample.puzzle /\
    GenSudokuBoardGAPopulator.rowEmptyPositions s' = Sample.tables.1 /\
    (exists entries',
       GenSudokuBoardGAPopulator.rowMissingEntries s'
       = <[1%nat := entries']> Sample.tables.2 /\
       Permutation entries' [2; 3; 4] /\
       forall i e, entries' !! i = Some e ->
         exists p cs, [0; 1; 3]%nat !! i = Some p /\
                      b' !! (1 * 4 + p)%nat = Some e /\
                      Sample.candidates !! (1 * 4 + p)%nat = Some cs /\
                      In e cs) /\
    (forall k, (forall p, In p [0; 1; 3]%nat -> k <> (1 * 4 + p)%nat) ->
       b' !! k = Sample.puzzle !! k).
Proof.
  eexists _, _.
  match goal with
  | |- ?A /\ _ => assert (Hrun : A) by (vm_compute; reflexivity)
  end.
  split; [exact Hrun |].
  refine (fillRow_fills_the_row 4 Sample.rotate Sample.candidates 5 Sample.puzzle 1
            (Sample.populating 2) [0; 1; 3]%nat [2; 3; 4] _ _
            sample_rotate_permutes _ _ _ Hrun);
    [reflexivity | exact (spec_empty_NoDup 4 Sample.puzzle 1) | reflexivity].
Defined.

Lemma mutate_refills_one_row_witness :
  (exists b' s',
     GenSudokuBoardGAPopulator.mutate 4 Sample.rotate Sample.pick_row
       Sample.open_candidates 1 [1; 2; 3; 4; 2; 3; 1; 4; 2; 1; 3; 4; 4; 2; 3; 1]
       (Sample.populating 1) = Val (Some b') s') /\
  (forall fuel b' s',
     GenSudokuBoardGAPopulator.mutate 4 Sample.rotate Sample.pick_row
       Sample.open_candidates fuel [1; 2; 3; 4; 2; 3; 1; 4; 2; 1; 3; 4; 4; 2; 3; 1]
       (Sample.populating 1) = Val (Some b') s' ->
     length b' = 16%nat /\
     (forall k, (forall p, In p [0; 1; 3]%nat -> k <> (1 * 4 + p)%nat) ->
        b' !! k = [1; 2; 3; 4; 2; 3; 1; 4; 2; 1; 3; 4; 4; 2; 3; 1] !! k) /\
     exists entries',
       GenSudokuBoardGAPopulator.rowMissingEntries s'
       = <[1%nat := entries']> Sample.tables.2 /\
       Permutation entries' [2; 3; 4] /\
       forall i e, entries' !! i = Some e ->
         exists p, [0; 1; 3]%nat !! i = Some p /\ b' !! (1 * 4 + p)%nat = Some e).
Proof.
  destruct (mutate_refills_one_row 4 Sample.rotate Sample.pick_row
              Sample.open_candidates
              [1; 2; 3; 4; 2; 3; 1; 4; 2; 1; 3; 4; 4; 2; 3; 1] (Sample.populating 1)
              [0; 1; 3]%nat [2; 3; 4] sample_rotate_permutes eq_refl
              (spec_empty_NoDup 4 Sample.puzzle 1) eq_refl)
    as (_ & Hpartial & Hreturns).
  - simpl. lia.
  - intros p [<- | [<- | [<- | []]]]; (split; [simpl; lia | eexists; reflexivity]).
  - split; [| exact Hpartial].
    apply (Hreturns (fun p cs e Hp He Hcs =>
                       sample_open_row p cs e Hp He Hcs) 0%nat).
Defined.

Lemma generate_keeps_the_givens_and_fills_with_candidates_witness :
  exists b s',
    GenSudokuBoardGAPopulator.generate 4 Sample.rotate Sample.puzzle
      Sample.candidates 5 (Sample.populating 0) = Val (Some b) s' /\
    length b = length Sample.puzzle /\
    GenSudokuBoardGAPopulator.initialized 4 Sample.puzzle s' /\
    forall row col, (row < 4)%nat -> (col < 4)%nat ->
      (GenSudokuBoardGAPopulator.cell Sample.puzzle (row * 4 + col) <> 0 ->
       b !! (row * 4 + col)%nat = Sample.puzzle !! (row * 4 + col)%nat) /\
      (GenSudokuBoardGAPopulator.cell Sample.puzzle (row * 4 + col) = 0 ->
       exists e cs,
         b !! (row * 4 + col)%nat = Some e /\
         In e (GenSudokuBoardGAPopulator.spec_missing_entries 4 Sample.puzzle row) /\
         Sample.candidates !! (row * 4 + col)%nat = Some cs /\ In e cs).
Proof.
  eexists _, _.
  match goal with
  | |- ?A /\ _ => assert (Hrun : A) by (vm_compute; reflexivity)
  end.
  split; [exact Hrun |].
  exact (generate_keeps_the_givens_and_fills_with_candidates 4 Sample.rotate
           Sample.puzzle Sample.candidates 5 (Sample.populating 0) _ _
           sample_rotate_permutes sample_puzzle_valid (sample_initialized 0) Hrun).
Defined.

Lemma generate_rows_are_permutations_witness :
  exists b s',
    GenSudokuBoardGAPopulator.generate 4 Sample.rotate Sample.puzzle
      Sample.candidates 5 (Sample.populating 0) = Val (Some b) s' /\
    forall r, (r < 4)%nat ->
      Permutation (GenSudokuBoardGAPopulator.row 4 r b) (map Z.of_nat (seq 1 4)).
Proof.
  eexists _, _.
  match goal with
  | |- ?A /\ _ => assert (Hrun : A) by (vm_compute; reflexivity)
  end.
  split; [exact Hrun |].
  exact (generate_rows_are_permutations 4 Sample.rotate Sample.puzzle
           Sample.candidates 5 (Sample.populating 0) _ _
           sample_rotate_permutes sample_puzzle_valid eq_refl (sample_initialized 0)
           Hrun).
Defined.

Lemma generate_returns_a_complete_board_witness :
  exists g,
    GenSudokuBoardGAPopulator.generate 4 Sample.rotate Sample.solved
      Sample.candidates 1 (Sample.solving 0)
    = Val (Some Sample.solved)
        {| GenSudokuBoardGAPopulator.gen := g;
           GenSudokuBoardGAPopulator.rowEmptyPositions := replicate 4 [];
           GenSudokuBoardGAPopulator.rowMissingEntries := replicate 4 [] |}.
Proof.
  apply (generate_returns_a_complete_board 4 Sample.rotate Sample.solved
           Sample.candidates 0 (Sample.solving 0) sample_rotate_permutes
           sample_solved_valid).
  - intros row col Hrow Hcol.
    assert (row = 0 \/ row = 1 \/ row = 2 \/ row = 3)%nat
      as [-> | [-> | [-> | ->]]] by lia;
      assert (col = 0 \/ col = 1 \/ col = 2 \/ col = 3)%nat
        as [-> | [-> | [-> | ->]]] by lia;
      vm_compute; discriminate.
  - exact (sample_solving_initialized 0).
Defined.

Lemma generate_returns_when_every_order_fits_witness :
  exists b s',
    GenSudokuBoardGAPopulator.generate 4 Sample.rotate Sample.puzzle
      Sample.open_candidates 1 (Sample.populating 2) = Val (Some b) s'.
Proof.
  exact (generate_returns_when_every_order_fits 4 Sample.rotate Sample.puzzle
           Sample.open_candidates 0 (Sample.populating 2) sample_rotate_permutes
           sample_puzzle_valid eq_refl sample_open_candidates
           (sample_initialized 2)).
Defined.

Lemma crossover_children_hold_the_parents_cells_witness :
  length [1; 2; 3; 4] = (2 * 2)%nat /\
  let children :=
    (GenSudokuBoardGAPopulator.crossover 2 Sample.coin [0; 0; 0; 0]
       [1; 2; 3; 4] [5; 6; 7; 8] 2).1 in
  forall k, (k < 2 * 2)%nat ->
    (children.1 !! k = [1; 2; 3; 4] !! k /\ children.2 !! k = [5; 6; 7; 8] !! k) \/
    (children.1 !! k = [5; 6; 7; 8] !! k /\ children.2 !! k = [1; 2; 3; 4] !! k).
Proof.
  split; [reflexivity |].
  apply (crossover_children_hold_the_parents_cells 2 Sample.coin [0; 0; 0; 0]
           [1; 2; 3; 4] [5; 6; 7; 8] 2); reflexivity.
Defined.

Lemma crossover_ignores_the_fresh_board_witness :
  (GenSudokuBoardGAPopulator.crossover 2 Sample.coin [0; 0; 0; 0]
     [1; 2; 3; 4] [5; 6; 7; 8] 2).1
  = (GenSudokuBoardGAPopulator.crossover 2 Sample.coin [9; 9; 9; 9]
       [1; 2; 3; 4] [5; 6; 7; 8] 2).1.
Proof.
  apply (crossover_ignores_the_fresh_board 2 Sample.coin [0; 0; 0; 0] [9; 9; 9; 9]
           [1; 2; 3; 4] [5; 6; 7; 8] 2); reflexivity.
Defined.


Lemma initialize_establishes_the_tables_witness :
  exists tables,
    GenSudokuBoardGAPopulator.initialize 4 Sample.puzzle = Some tables /\
    GenSudokuBoardGAPopulator.initialize_asserting 4 Sample.puzzle
    = GenSudokuBoardGAPopulator.Done tables /\
    forall g : nat,
      let s := {| GenSudokuBoardGAPopulator.gen := g;
                  GenSudokuBoardGAPopulator.rowEmptyPositions := tables.1;
                  GenSudokuBoardGAPopulator.rowMissingEntries := tables.2 |} in
      GenSudokuBoardGAPopulator.initialized 4 Sample.puzzle s /\
      (forall row positions entries,
         tables.1 !! row = Some positions -> tables.2 !! row = Some entries ->
         length positions = length entries) /\
      (GenSudokuBoardGAPopulator.shuffle_permutes Sample.rotate ->
       length Sample.puzzle = (4 * 4)%nat ->
       length Sample.candidates = (4 * 4)%nat ->
       forall fuel, exists r s',
         GenSudokuBoardGAPopulator.generate 4 Sample.rotate Sample.puzzle
           Sample.candidates fuel s = Val r s').
Proof.
  exact (initialize_establishes_the_tables 4 Sample.rotate Sample.puzzle
           Sample.candidates sample_puzzle_valid).
Defined.
